(** * Amulet map editor: NBT tree model, key serialisation, coordinate paste
      pattern and selection movement

    A shallow embedding of the logic of
    - [amulet_map_editor/programs/edit/key_config.py],
    - [amulet_map_editor/programs/edit/plugins/tools/select.py],
    - [amulet_map_editor/programs/edit/api/ui/goto.py],
    - [amulet_map_editor/api/wx/ui/nbt_editor.py],
    with the properties proved about it. *)

From Stdlib Require Import ZArith Lia String Ascii List Bool.
From stdpp Require Import gmap strings list fin_maps.

Local Open Scope Z_scope.

(** ** Results of Python calls: a value or a raised exception *)

Inductive exn : Type :=
| AttributeError
| ValueError
| KeyError
| TypeError
| RecursionError
| OverflowError.

Inductive result (A : Type) : Type :=
| Ok (a : A)
| Raise (e : exn).
Arguments Ok {A} a.
Arguments Raise {A} e.

(** * key_config.py *)

Module KeyConfig.

(** [KeyType = Union[int, str]] *)
Inductive KeyType : Type :=
| KInt (code : Z)
| KStr (name : string).

Definition ModifierType := list string.
Definition SerialisedKeyType := (ModifierType * KeyType)%type.

Definition MouseLeft : string := "ML".
Definition MouseMiddle : string := "MM".
Definition MouseRight : string := "MR".
Definition MouseWheelScrollUp : string := "MWSU".
Definition MouseWheelScrollDown : string := "MWSD".
Definition Control : string := "CTRL".
Definition Shift : string := "SHIFT".
Definition Alt : string := "ALT".
Definition Space : string := "SPACE".
Definition PageUp : string := "PAGE_UP".
Definition PageDown : string := "PAGE_DOWN".

(** The constants of the [wx] toolkit the module reads.  They are not part of
    the repository, so the functions below take them as a parameter. *)
Record WxConstants : Type := {
  WXK_CONTROL : Z;
  WXK_SHIFT : Z;
  WXK_ALT : Z;
  WXK_SPACE : Z;
  WXK_PAGEUP : Z;
  WXK_PAGEDOWN : Z;
  EVT_LEFT_DOWN : Z;      (* wx.EVT_LEFT_DOWN.evtType[0] *)
  EVT_LEFT_UP : Z;
  EVT_MIDDLE_DOWN : Z;
  EVT_MIDDLE_UP : Z;
  EVT_RIGHT_DOWN : Z;
  EVT_RIGHT_UP : Z;
  EVT_MOUSEWHEEL : list Z (* wx.EVT_MOUSEWHEEL.evtType *)
}.

(** The key codes of wxWidgets ([enum wxKeyCode]) and one assignment of
    distinct event type identifiers, used to run the functions. *)
Definition wx_sample : WxConstants := {|
  WXK_CONTROL := 308; WXK_SHIFT := 306; WXK_ALT := 307;
  WXK_SPACE := 32; WXK_PAGEUP := 366; WXK_PAGEDOWN := 367;
  EVT_LEFT_DOWN := 10030; EVT_LEFT_UP := 10031;
  EVT_MIDDLE_DOWN := 10032; EVT_MIDDLE_UP := 10033;
  EVT_RIGHT_DOWN := 10034; EVT_RIGHT_UP := 10035;
  EVT_MOUSEWHEEL := [10045]
|}.

(** What the function reads of a [wx.KeyEvent] and of a [wx.MouseEvent]. *)
Record KeyEvent : Type := {
  GetUnicodeKey : Z;
  GetKeyCode : Z;
  ControlDown : bool;
  ShiftDown : bool;
  AltDown : bool
}.

Record MouseEvent : Type := {
  GetEventType : Z;
  GetWheelRotation : Z
}.

(** [evt: Union[wx.KeyEvent, wx.MouseEvent]] *)
Inductive Event : Type :=
| EvKey (e : KeyEvent)
| EvMouse (e : MouseEvent).

(** [chr(key).upper()] on a code point of the ASCII range: the letters
    [a]..[z] (97..122) go to [A]..[Z], every other character is kept. *)
Definition chr (key : Z) : ascii := ascii_of_N (Z.to_N key).

Definition upper (c : ascii) : ascii :=
  let n := N_of_ascii c in
  if ((97 <=? n) && (n <=? 122))%N then ascii_of_N (n - 32) else c.

Definition chr_upper (key : Z) : string := String (upper (chr key)) EmptyString.

Section Serialise.
Context (wx : WxConstants).

(** The dict literal [key_string_map]: entries are inserted in textual order. *)
Definition key_string_map : gmap Z string :=
  <[WXK_PAGEDOWN wx := PageDown]>
    (<[WXK_PAGEUP wx := PageUp]>
      (<[WXK_SPACE wx := Space]>
        (<[WXK_ALT wx := Alt]>
          (<[WXK_SHIFT wx := Shift]> ∅)))).

(** The dict literal [_mouse_events]. *)
Definition _mouse_events : gmap Z string :=
  <[EVT_RIGHT_UP wx := MouseRight]>
    (<[EVT_RIGHT_DOWN wx := MouseRight]>
      (<[EVT_MIDDLE_UP wx := MouseMiddle]>
        (<[EVT_MIDDLE_DOWN wx := MouseMiddle]>
          (<[EVT_LEFT_UP wx := MouseLeft]>
            (<[EVT_LEFT_DOWN wx := MouseLeft]> ∅))))).

(** [key = evt.GetUnicodeKey() or evt.GetKeyCode()] *)
Definition event_key (e : KeyEvent) : Z :=
  if GetUnicodeKey e =? 0 then GetKeyCode e else GetUnicodeKey e.

(** The list [modifier] once the [if evt.ControlDown()] block has run. *)
Definition modifiers (e : KeyEvent) : ModifierType :=
  if ControlDown e then
    Control :: (if ShiftDown e then [Shift] else [])
            ++ (if AltDown e then [Alt] else [])
  else [].

(** The key after the [if 33 <= key <= 126 ... elif key in key_string_map]. *)
Definition serialise_key (key : Z) : KeyType :=
  if (33 <=? key) && (key <=? 126) then KStr (chr_upper key)
  else match key_string_map !! key with
       | Some name => KStr name
       | None => KInt key
       end.

Definition is_wheel (m : MouseEvent) : bool :=
  bool_decide (GetEventType m ∈ EVT_MOUSEWHEEL wx).

(** [None] of Python is [None] of [option]. *)
Definition serialise_key_event (evt : Event) : option SerialisedKeyType :=
  match evt with
  | EvKey e =>
      let key := event_key e in
      if key =? WXK_CONTROL wx then None
      else if ControlDown e && ((key =? WXK_SHIFT wx) || (key =? WXK_ALT wx))
      then None
      else Some (modifiers e, serialise_key key)
  | EvMouse m =>
      let key := GetEventType m in
      if is_wheel m then
        if GetWheelRotation m <? 0 then Some ([], KStr MouseWheelScrollDown)
        else if 0 <? GetWheelRotation m then Some ([], KStr MouseWheelScrollUp)
        else None
      else match _mouse_events !! key with
           | Some name => Some ([], KStr name)
           | None => None
           end
  end.

End Serialise.

(** A dict literal, as the list of its entries in the order they are written.
    [dict_get] is the subscript [d[k]]: [None] stands for [KeyError].  The
    literals below repeat no key, so the first entry for a key is the only
    one. *)
Fixpoint dict_get {V : Type} (d : list (string * V)) (k : string) : option V :=
  match d with
  | [] => None
  | (k', v) :: rest => if String.eqb k' k then Some v else dict_get rest k
  end.

Definition dict_keys {V : Type} (d : list (string * V)) : list string :=
  map fst d.

(** [KeybindDict = Dict[str, SerialisedKeyType]] *)
Definition KeybindDict := list (string * SerialisedKeyType).

Definition bind (k : string) : SerialisedKeyType := ([], KStr k).

Definition preset_right : KeybindDict :=
  [ ("up", bind Space); ("down", bind Shift);
    ("forwards", bind "W"); ("backwards", bind "S");
    ("left", bind "A"); ("right", bind "D");
    ("box click", bind MouseLeft);
    ("toggle selection mode", bind MouseRight);
    ("toggle mouse lock", bind MouseMiddle);
    ("speed+", bind MouseWheelScrollUp);
    ("speed-", bind MouseWheelScrollDown) ]%string.

Definition preset_right_laptop : KeybindDict :=
  [ ("up", bind Space); ("down", bind Shift);
    ("forwards", bind "W"); ("backwards", bind "S");
    ("left", bind "A"); ("right", bind "D");
    ("box click", bind MouseLeft);
    ("toggle selection mode", bind MouseRight);
    ("toggle mouse lock", bind "F");
    ("speed+", bind ".");
    ("speed-", bind ",") ]%string.

Definition preset_left : KeybindDict :=
  [ ("up", bind Space); ("down", bind ";");
    ("forwards", bind "I"); ("backwards", bind "K");
    ("left", bind "J"); ("right", bind "L");
    ("box click", bind MouseLeft);
    ("toggle selection mode", bind MouseRight);
    ("toggle mouse lock", bind MouseMiddle);
    ("speed+", bind MouseWheelScrollUp);
    ("speed-", bind MouseWheelScrollDown) ]%string.

Definition preset_left_laptop : KeybindDict :=
  [ ("up", bind Space); ("down", bind ";");
    ("forwards", bind "I"); ("backwards", bind "K");
    ("left", bind "J"); ("right", bind "L");
    ("box click", bind MouseLeft);
    ("toggle selection mode", bind MouseRight);
    ("toggle mouse lock", bind "H");
    ("speed+", bind ".");
    ("speed-", bind ",") ]%string.

Definition _presets : list (string * KeybindDict) :=
  [ ("right", preset_right);
    ("right_laptop", preset_right_laptop);
    ("left", preset_left);
    ("left_laptop", preset_left_laptop) ]%string.

(** [DefaultKeys = _presets["right"]] *)
Definition DefaultKeys : option KeybindDict := dict_get _presets "right".

(** The eleven action names a preset binds. *)
Definition action_names : list string :=
  [ "up"; "down"; "forwards"; "backwards"; "left"; "right"; "box click";
    "toggle selection mode"; "toggle mouse lock"; "speed+"; "speed-" ]%string.

Definition preset_names : list string :=
  [ "right"; "right_laptop"; "left"; "left_laptop" ]%string.

(** The wheel identifiers and the button identifiers of the toolkit are
    distinct event types. *)
Definition wheel_not_button (wx : WxConstants) : Prop :=
  forall t, t ∈ EVT_MOUSEWHEEL wx -> _mouse_events wx !! t = None.

(** The lower-case letters of ASCII. *)
Definition is_lower (c : ascii) : bool :=
  ((97 <=? N_of_ascii c) && (N_of_ascii c <=? 122))%N.

Definition ctrl_key_event : KeyEvent :=
  {| GetUnicodeKey := 0; GetKeyCode := 308;
     ControlDown := true; ShiftDown := false; AltDown := false |}.

Definition ctrl_shift_a_event : KeyEvent :=
  {| GetUnicodeKey := 97; GetKeyCode := 65;
     ControlDown := true; ShiftDown := true; AltDown := false |}.

(** What the functions need of the toolkit: the six key codes are distinct
    and none is a printable character, the six button event types are
    distinct, and there is a wheel event type, which is no button event
    type. *)
Definition wx_well_formed (wx : WxConstants) : Prop :=
  NoDup [WXK_CONTROL wx; WXK_SHIFT wx; WXK_ALT wx; WXK_SPACE wx; WXK_PAGEUP wx;
         WXK_PAGEDOWN wx]
  /\ Forall (fun k => ~ 33 <= k <= 126)
       [WXK_CONTROL wx; WXK_SHIFT wx; WXK_ALT wx; WXK_SPACE wx; WXK_PAGEUP wx;
        WXK_PAGEDOWN wx]
  /\ NoDup [EVT_LEFT_DOWN wx; EVT_LEFT_UP wx; EVT_MIDDLE_DOWN wx; EVT_MIDDLE_UP wx;
            EVT_RIGHT_DOWN wx; EVT_RIGHT_UP wx]
  /\ EVT_MOUSEWHEEL wx <> []
  /\ wheel_not_button wx.

(** A key event with no modifier held. *)
Definition plain_key_event (unicode code : Z) : KeyEvent :=
  {| GetUnicodeKey := unicode; GetKeyCode := code;
     ControlDown := false; ShiftDown := false; AltDown := false |}.

End KeyConfig.

(** * select.py: the three movement buttons *)

Module Select.

Definition BlockCoordinates := (Z * Z * Z)%type.

(** The part of [BlockSelectionBehaviour] the buttons read and write: the
    attribute [active_block_positions], a pair of block positions. *)
Record BlockSelectionBehaviour : Type := {
  active_block_positions : BlockCoordinates * BlockCoordinates
}.

Definition Point1MoveButton_move (offset : Z * Z * Z)
    (_selection : BlockSelectionBehaviour) : BlockSelectionBehaviour :=
  let '(ox, oy, oz) := offset in
  let '((x, y, z), point2) := active_block_positions _selection in
  {| active_block_positions := ((x + ox, y + oy, z + oz), point2) |}.

Definition Point2MoveButton_move (offset : Z * Z * Z)
    (_selection : BlockSelectionBehaviour) : BlockSelectionBehaviour :=
  let '(ox, oy, oz) := offset in
  let '(point1, (x, y, z)) := active_block_positions _selection in
  {| active_block_positions := (point1, (x + ox, y + oy, z + oz)) |}.

Definition SelectionMoveButton_move (offset : Z * Z * Z)
    (_selection : BlockSelectionBehaviour) : BlockSelectionBehaviour :=
  let '(ox, oy, oz) := offset in
  let '((x1, y1, z1), (x2, y2, z2)) := active_block_positions _selection in
  {| active_block_positions :=
       ((x1 + ox, y1 + oy, z1 + oz), (x2 + ox, y2 + oy, z2 + oz)) |}.

Definition point1 (s : BlockSelectionBehaviour) : BlockCoordinates :=
  fst (active_block_positions s).
Definition point2 (s : BlockSelectionBehaviour) : BlockCoordinates :=
  snd (active_block_positions s).

Definition add3 (p o : Z * Z * Z) : Z * Z * Z :=
  let '(x, y, z) := p in let '(ox, oy, oz) := o in (x + ox, y + oy, z + oz).
Definition sub3 (p q : Z * Z * Z) : Z * Z * Z :=
  let '(x, y, z) := p in let '(a, b, c) := q in (x - a, y - b, z - c).

(** The extent [p2 - p1] of the selection box. *)
Definition extent (s : BlockSelectionBehaviour) : Z * Z * Z :=
  sub3 (point2 s) (point1 s).

(** ** [MovementButton]: the press, release and held handlers

    The action identifiers come from the key configuration of the edit
    program, which the module imports; the handlers only compare them. *)
Record ActionIds : Type := {
  ACT_MOVE_UP : string;
  ACT_MOVE_DOWN : string;
  ACT_MOVE_FORWARDS : string;
  ACT_MOVE_BACKWARDS : string;
  ACT_MOVE_LEFT : string;
  ACT_MOVE_RIGHT : string;
  ACT_BOX_CLICK : string
}.

(** One assignment of distinct identifiers, used to run the handlers. *)
Definition act_sample : ActionIds := {|
  ACT_MOVE_UP := "ACT_MOVE_UP"; ACT_MOVE_DOWN := "ACT_MOVE_DOWN";
  ACT_MOVE_FORWARDS := "ACT_MOVE_FORWARDS";
  ACT_MOVE_BACKWARDS := "ACT_MOVE_BACKWARDS";
  ACT_MOVE_LEFT := "ACT_MOVE_LEFT"; ACT_MOVE_RIGHT := "ACT_MOVE_RIGHT";
  ACT_BOX_CLICK := "ACT_BOX_CLICK"
|}.

Section MovementButton.
Variable act : ActionIds.
(** What [_move] works on (the selection of the subclasses), the overridden
    method [_move], and [_rotate] as a function of the camera it reads. *)
Context {Sel Camera : Type}.
Variable _move : Z * Z * Z -> Sel -> Sel.
Variable _rotate : Camera -> Z * Z * Z -> Z * Z * Z.

Definition _MoveActions : list string :=
  [ ACT_MOVE_UP act; ACT_MOVE_DOWN act; ACT_MOVE_FORWARDS act;
    ACT_MOVE_BACKWARDS act; ACT_MOVE_LEFT act; ACT_MOVE_RIGHT act ].

(** The attributes the handlers read and write, and [_selection], the object
    that [_move] changes in the subclasses.  The buttons of the tool share one
    selection object; the record follows one button, and the selection as
    this button leaves it. *)
Record MovementButton : Type := {
  _listen : bool;
  _timeout : Z;
  _selection : Sel
}.

(** The state [__init__] leaves. *)
Definition MovementButton_init (sel : Sel) : MovementButton :=
  {| _listen := false; _timeout := 10; _selection := sel |}.

Definition _on_down (action_id : string) (self : MovementButton) : MovementButton :=
  if String.eqb action_id (ACT_BOX_CLICK act) then
    {| _listen := true; _timeout := _timeout self;
       _selection := _selection self |}
  else if bool_decide (action_id ∈ _MoveActions) then
    {| _listen := _listen self; _timeout := 10; _selection := _selection self |}
  else self.

Definition _on_up (action_id : string) (self : MovementButton) : MovementButton :=
  if String.eqb action_id (ACT_BOX_CLICK act) then
    {| _listen := false; _timeout := _timeout self;
       _selection := _selection self |}
  else self.

(** [x = y = z = 0] and the six [if ... in evt.action_ids] statements. *)
Definition direction (action_ids : list string) : Z * Z * Z :=
  let held a := bool_decide (a ∈ action_ids) in
  let x := 0 in
  let y := 0 in
  let z := 0 in
  let x := if held (ACT_MOVE_LEFT act) then x + 1 else x in
  let x := if held (ACT_MOVE_RIGHT act) then x - 1 else x in
  let y := if held (ACT_MOVE_UP act) then y + 1 else y in
  let y := if held (ACT_MOVE_DOWN act) then y - 1 else y in
  let z := if held (ACT_MOVE_FORWARDS act) then z + 1 else z in
  let z := if held (ACT_MOVE_BACKWARDS act) then z - 1 else z in
  (x, y, z).

(** [any((x, y, z))] *)
Definition any3 (o : Z * Z * Z) : bool :=
  let '(x, y, z) := o in negb (x =? 0) || negb (y =? 0) || negb (z =? 0).

Definition _on_held (action_ids : list string) (camera : Camera)
    (self : MovementButton) : MovementButton :=
  if _listen self then
    let self1 :=
      if (_timeout self =? 0) || (_timeout self =? 10) then
        if any3 (direction action_ids) then
          {| _listen := _listen self; _timeout := _timeout self;
             _selection := _move (_rotate camera (direction action_ids))
                             (_selection self) |}
        else self
      else self in
    if negb (_timeout self1 =? 0) then
      {| _listen := _listen self1; _timeout := _timeout self1 - 1;
         _selection := _selection self1 |}
    else self1
  else self.

(** The events bound to the three handlers. *)
Inductive InputEvent : Type :=
| InputPress (action_id : string)
| InputRelease (action_id : string)
| InputHeld (action_ids : list string) (camera : Camera).

Definition handle (evt : InputEvent) (self : MovementButton) : MovementButton :=
  match evt with
  | InputPress a => _on_down a self
  | InputRelease a => _on_up a self
  | InputHeld ids camera => _on_held ids camera self
  end.

(** The events of a list, in order. *)
Definition handle_all (evts : list InputEvent) (self : MovementButton)
    : MovementButton :=
  fold_left (fun b evt => handle evt b) evts self.

(** The number of moves [n] held events in a row make, the first of them
    arriving with the time-out at ten. *)
Definition moves_after (n : nat) : nat :=
  match n with
  | O => O
  | _ => if (n <=? 10)%nat then 1%nat else (n - 9)%nat
  end.

End MovementButton.

(** A selection and a button that listens, for running the handlers. *)
Definition sample_selection : BlockSelectionBehaviour :=
  {| active_block_positions := ((0, 0, 0), (1, 1, 1)) |}.

Definition listening_button : @MovementButton BlockSelectionBehaviour :=
  {| _listen := true; _timeout := 10; _selection := sample_selection |}.

End Select.

(** * goto.py: the pattern [CoordRegex] and the paste handler *)

Module GoTo.

(** A Python string is a sequence of code points. *)
Abbreviation text := (list N) (only parsing).

(** Named groups and numbered groups, the latter under their number. *)
Abbreviation captures := (list (string * list N)) (only parsing).

(** The constructs of [re] that the pattern uses.  [r+] is [r r*], [r?] is
    [r|] (the greedy choice tries [r] first), [(?:r)] is [r]. *)
Inductive regex : Type :=
| Eps
| Class (p : N -> bool)
| Seq (r1 r2 : regex)
| Alt (r1 r2 : regex)
| Star (r : regex)
| Group (name : string) (r : regex)
| Bol
| Eol.

Definition Chr (c : N) : regex := Class (N.eqb c).
Definition Plus (r : regex) : regex := Seq r (Star r).
Definition Opt (r : regex) : regex := Alt r Eps.

(** [r*], greedy: every way of matching [body] once more and going on, then
    the way that stops here.  An iteration has to consume something (the
    starred parts of the pattern are single characters); [fuel] bounds the
    number of iterations by the length of the subject. *)
Fixpoint star (body : text -> captures -> list (text * captures))
    (fuel : nat) (s : text) (c : captures)
    : list (text * captures) :=
  match fuel with
  | O => [(s, c)]
  | S fuel' =>
      flat_map (fun sc => if (length (fst sc) <? length s)%nat
                          then star body fuel' (fst sc) (snd sc) else [])
               (body s c)
      ++ [(s, c)]
  end.

(** The backtracking matcher: all the ways [r] matches a prefix of [s], in the
    order the engine tries them, each with what is left of [s] and the groups
    bound so far.  [n0] is the length of the whole subject, for [^]. *)
Fixpoint run (n0 : nat) (r : regex) (s : text) (c : captures)
    : list (text * captures) :=
  match r with
  | Eps => [(s, c)]
  | Class p =>
      match s with
      | a :: s' => if p a then [(s', c)] else []
      | [] => []
      end
  | Seq r1 r2 => flat_map (fun sc => run n0 r2 (fst sc) (snd sc)) (run n0 r1 s c)
  | Alt r1 r2 => run n0 r1 s c ++ run n0 r2 s c
  | Star r1 => star (run n0 r1) (length s) s c
  | Group name r1 =>
      map (fun sc => (fst sc,
                      (name, take (length s - length (fst sc)) s) :: snd sc))
          (run n0 r1 s c)
  | Bol => if (length s =? n0)%nat then [(s, c)] else []
  | Eol =>
      match s with
      | [] => [(s, c)]
      | [a] => if (a =? 10)%N then [(s, c)] else []
      | _ => []
      end
  end.

(** [pattern.fullmatch(s)]: the first way that leaves nothing; [None] when
    there is none. *)
Definition fullmatch (r : regex) (s : text) : option captures :=
  match filter (fun sc => fst sc = []) (run (length s) r s []) with
  | sc :: _ => Some (snd sc)
  | [] => None
  end.

(** [match.group(name)]: the last binding made for the group. *)
Fixpoint group (m : captures) (name : string) : option text :=
  match m with
  | [] => None
  | (n, w) :: rest => if String.eqb n name then Some w else group rest name
  end.

Definition minus : N := 45.
Definition comma : N := 44.
Definition dot : N := 46.
Definition is_digit (a : N) : bool := ((48 <=? a) && (a <=? 57))%N.

Section Pattern.
(** The class [\s] of the [re] module for [str] patterns. *)
Variable is_space : N -> bool.

(** One coordinate: an optional minus, digits, an optional point, digits. *)
Definition coordinate : regex :=
  Seq (Opt (Chr minus))
    (Seq (Plus (Class is_digit))
       (Seq (Opt (Chr dot)) (Star (Class is_digit)))).

(** The separator, without the group around it: a comma and any white
    space, or white space. *)
Definition separator : regex :=
  Alt (Seq (Chr comma) (Star (Class is_space))) (Plus (Class is_space)).

Definition CoordRegex : regex :=
  Seq Bol
    (Seq (Star (Class is_space))
       (Seq (Group "x" coordinate)
          (Seq (Group "2" separator)
             (Seq (Group "y" coordinate)
                (Seq (Group "4" separator)
                   (Seq (Group "z" coordinate)
                      (Seq (Opt (Chr comma))
                         (Seq (Star (Class is_space)) Eol)))))))).

(** ** The handler [GoTo._on_text]

    The three spin controls hold floats; [float] and the text the copy branch
    formats are functions of the host language that stay abstract. *)
Context {F : Type}.
Variable float : text -> F.
Variable format_location : F -> F -> F -> text.

Record GoTo : Type := { x : F; y : F; z : F }.

(** The clipboard: whether [Open()] succeeds, and the text [GetData] gives
    when it does. *)
Record Clipboard : Type := {
  Open : bool;
  GetData : option text
}.

Record CharEvent : Type := {
  ControlDown : bool;
  GetKeyCode : Z
}.

(** What the handler leaves behind: the dialog, the clipboard, and whether
    [evt.Skip()] was called. *)
Record Outcome : Type := {
  dialog : GoTo;
  clipboard : Clipboard;
  skipped : bool
}.

(** The variable [text] of the paste branch. *)
Definition clipboard_text (cb : Clipboard) : text :=
  if Open cb then
    match GetData cb with
    | Some t => t
    | None => []
    end
  else [].

Definition _on_text (evt : CharEvent) (self : GoTo) (cb : Clipboard) : Outcome :=
  if ControlDown evt && (GetKeyCode evt =? 3) then
    {| dialog := self;
       clipboard :=
         if Open cb
         then {| Open := true;
                 GetData := Some (format_location (x self) (y self) (z self)) |}
         else cb;
       skipped := false |}
  else if ControlDown evt && (GetKeyCode evt =? 22) then
    let text := clipboard_text cb in
    match fullmatch CoordRegex text with
    | Some m =>
        match group m "x", group m "y", group m "z" with
        | Some gx, Some gy, Some gz =>
            {| dialog := {| x := float gx; y := float gy; z := float gz |};
               clipboard := cb; skipped := false |}
        | _, _, _ =>
            (* not reached: a match binds the three groups *)
            {| dialog := self; clipboard := cb; skipped := true |}
        end
    | None => {| dialog := self; clipboard := cb; skipped := true |}
    end
  else {| dialog := self; clipboard := cb; skipped := true |}.

End Pattern.

(** ** The accepted texts, as the specification words them *)

Section Language.
Variable is_space : N -> bool.

Definition all (p : N -> bool) (w : text) : Prop := Forall (fun a => p a = true) w.

(** An optional minus sign, one or more digits, and an optional fractional
    part: a decimal point and the digits after it, if any. *)
Definition is_coordinate (w : text) : Prop :=
  exists sign digits frac,
    w = sign ++ digits ++ frac
    /\ (sign = [] \/ sign = [minus])
    /\ digits <> [] /\ all is_digit digits
    /\ (frac = [] \/ exists ds, frac = dot :: ds /\ all is_digit ds).

(** A comma with optional following whitespace, or whitespace. *)
Definition is_separator (w : text) : Prop :=
  (exists ws, w = comma :: ws /\ all is_space ws)
  \/ (w <> [] /\ all is_space w).

(** Optional leading whitespace, three coordinates with a separator between
    each pair, an optional trailing comma and optional trailing whitespace;
    [gx], [gy], [gz] are the three coordinates. *)
Definition coord_text (s gx gy gz : text) : Prop :=
  exists lead sep1 sep2 tc trail,
    s = lead ++ gx ++ sep1 ++ gy ++ sep2 ++ gz ++ tc ++ trail
    /\ all is_space lead
    /\ is_coordinate gx /\ is_separator sep1
    /\ is_coordinate gy /\ is_separator sep2
    /\ is_coordinate gz
    /\ (tc = [] \/ tc = [comma])
    /\ all is_space trail.

Definition accepted (s : text) : Prop := exists gx gy gz, coord_text s gx gy gz.

(** What it is for [r] to match [s1] when [rest] follows, binding groups. *)
Inductive matches (n0 : nat) : regex -> text -> text ->
    captures -> captures -> Prop :=
| m_eps rest c : matches n0 Eps [] rest c c
| m_class p a rest c : p a = true -> matches n0 (Class p) [a] rest c c
| m_seq r1 r2 s1 s2 rest c c1 c2 :
    matches n0 r1 s1 (s2 ++ rest) c c1 -> matches n0 r2 s2 rest c1 c2 ->
    matches n0 (Seq r1 r2) (s1 ++ s2) rest c c2
| m_alt_l r1 r2 s1 rest c c1 :
    matches n0 r1 s1 rest c c1 -> matches n0 (Alt r1 r2) s1 rest c c1
| m_alt_r r1 r2 s1 rest c c1 :
    matches n0 r2 s1 rest c c1 -> matches n0 (Alt r1 r2) s1 rest c c1
| m_star_nil r rest c : matches n0 (Star r) [] rest c c
| m_star_cons r s1 s2 rest c c1 c2 :
    s1 <> [] -> matches n0 r s1 (s2 ++ rest) c c1 ->
    matches n0 (Star r) s2 rest c1 c2 ->
    matches n0 (Star r) (s1 ++ s2) rest c c2
| m_group name r s1 rest c c1 :
    matches n0 r s1 rest c c1 ->
    matches n0 (Group name r) s1 rest c ((name, s1) :: c1)
| m_bol rest c : length rest = n0 -> matches n0 Bol [] rest c c
| m_eol rest c : rest = [] \/ rest = [10%N] -> matches n0 Eol [] rest c c.

End Language.

(** One reading of [\s], the white space of ASCII, and sample texts. *)
Definition ascii_space (a : N) : bool :=
  ((9 <=? a) && (a <=? 13) || (a =? 32))%N.

Definition text_of (s : string) : text :=
  map N_of_ascii (list_ascii_of_string s).

(** The characters a coordinate is made of, and those of a separator. *)
Definition coordinate_char (a : N) : bool :=
  is_digit a || (a =? minus)%N || (a =? dot)%N.

Definition separator_char (is_space : N -> bool) (a : N) : bool :=
  (a =? comma)%N || is_space a.

(** No white space character is a digit, a minus sign, a point or a comma. *)
Definition space_class (is_space : N -> bool) : Prop :=
  forall a, is_space a = true -> coordinate_char a = false /\ (a =? comma)%N = false.

(** [r] is empty or begins with a character that is not in the class. *)
Definition stops (p : N -> bool) (r : list N) : Prop :=
  match r with
  | [] => True
  | a :: _ => p a = false
  end.

(** The text of the copy branch: the three fields, rounded and printed by
    [str_round], with one space between them. *)
Definition format_rounded {F : Type} (str_round : F -> list N) (x y z : F) : list N :=
  str_round x ++ [32%N] ++ str_round y ++ [32%N] ++ str_round z.

End GoTo.

(** * nbt_editor.py *)

Module NbtEditor.

(** ** The NBT values of the [amulet_nbt] library, as far as the editor reads
    them.  A tag is a mapping ([TAG_Compound], a [MutableMapping]), a sequence
    ([TAG_List], a [MutableSequence]) or a value tag with a payload [.value];
    the array tags are value tags whose payload is the array. *)

Inductive ValueType : Type :=
| TAG_Byte | TAG_Short | TAG_Int | TAG_Long | TAG_Float | TAG_Double
| TAG_String | TAG_Byte_Array | TAG_Int_Array | TAG_Long_Array.

(** The classes [type(value)] can be. *)
Inductive TagType : Type :=
| TAG_Value (t : ValueType)
| TAG_Compound
| TAG_List.

(** The Python object behind [.value]: an integer, a float (kept as its bit
    pattern), a string or an array of integers. *)
Inductive payload : Type :=
| PInt (z : Z)
| PFloat (bits : Z)
| PStr (s : string)
| PArray (l : list Z).

#[warnings="-register-all"]
Inductive nbt : Type :=
| NValue (t : ValueType) (value : payload)
| NCompound (items : list (string * nbt))
| NList (elems : list nbt).

Definition type_of (v : nbt) : TagType :=
  match v with
  | NValue t _ => TAG_Value t
  | NCompound _ => TAG_Compound
  | NList _ => TAG_List
  end.

(** [tag_type()] with no argument: the default payload of a value tag. *)
Definition default_payload (t : ValueType) : payload :=
  match t with
  | TAG_Byte | TAG_Short | TAG_Int | TAG_Long => PInt 0
  | TAG_Float | TAG_Double => PFloat 0
  | TAG_String => PStr ""
  | TAG_Byte_Array | TAG_Int_Array | TAG_Long_Array => PArray []
  end.

(** [container[name] = v] on a mapping kept as the list of its items: an
    existing key keeps its place and takes the new value, a new key goes to
    the end. *)
Fixpoint setitem (items : list (string * nbt)) (name : string) (v : nbt)
    : list (string * nbt) :=
  match items with
  | [] => [(name, v)]
  | (k, w) :: rest =>
      if String.eqb k name then (k, v) :: rest
      else (k, w) :: setitem rest name v
  end.

(** ** The library

    What the editor uses of [amulet_nbt] beyond reading a tag: the call of a
    tag class on a payload, [cls(value)], and [TAG_List.append].  The library
    is not part of the repository, so the functions below take it as a
    parameter.  Both operations may raise, an [OverflowError], a [TypeError]
    or a [ValueError]; they do not run out of stack. *)

Inductive library_error : Type :=
| LibOverflowError
| LibTypeError
| LibValueError.

Definition library_raise (e : library_error) : exn :=
  match e with
  | LibOverflowError => OverflowError
  | LibTypeError => TypeError
  | LibValueError => ValueError
  end.

Record AmuletNbt : Type := {
  (* cls(value): the tag, or what the class raises *)
  tag_new : TagType -> payload -> (nbt + library_error)%type;
  (* container.append(v): the elements of the list afterwards *)
  list_append : list nbt -> nbt -> (list nbt + library_error)%type
}.

Definition of_library {A : Type} (r : (A + library_error)%type) : result A :=
  match r with
  | inl a => Ok a
  | inr e => Raise (library_raise e)
  end.

#[global] Instance ValueType_eq_dec : EqDecision ValueType.
Proof. solve_decision. Defined.

#[global] Instance TagType_eq_dec : EqDecision TagType.
Proof. solve_decision. Defined.

(** A stand-in for the library, to run the functions on.  An integer class
    takes the integers of its range and raises [OverflowError] on the others;
    a list takes the elements that have the class of its first element and
    raises [TypeError] on the others; everything else is taken. *)
Definition in_range (t : ValueType) (value : payload) : bool :=
  match t, value with
  | TAG_Byte, PInt z => (-128 <=? z)%Z && (z <=? 127)%Z
  | TAG_Short, PInt z => (-32768 <=? z)%Z && (z <=? 32767)%Z
  | TAG_Int, PInt z => (-2147483648 <=? z)%Z && (z <=? 2147483647)%Z
  | TAG_Long, PInt z =>
      (-9223372036854775808 <=? z)%Z && (z <=? 9223372036854775807)%Z
  | _, _ => true
  end.

Definition lib_sample : AmuletNbt := {|
  tag_new := fun ty value =>
    match ty with
    | TAG_Value t =>
        if in_range t value then inl (NValue t value) else inr LibOverflowError
    | TAG_Compound => inl (NCompound [])
    | TAG_List => inl (NList [])
    end;
  list_append := fun container v =>
    match container with
    | [] => inl [v]
    | first :: _ =>
        if bool_decide (type_of first = type_of v) then inl (container ++ [v])
        else inr LibTypeError
    end
|}.

(** ** The objects of the parsed tree

    [ParsedNBTValue] and [ParsedNBTContainer] objects live in a store and are
    referred to by address, so that the [_parent] references and the sharing
    of a node between its parent's [_children] list and the tree widget can be
    expressed.  A new object takes the next free address. *)

Abbreviation addr := nat (only parsing).

(** The slot a subclass adds: [_value] or [_children]. *)
Inductive body : Type :=
| Value (_value : payload)
| Children (_children : list addr).

Record node : Type := {
  _parent : option addr;
  _name : string;
  _type : TagType;
  _body : body
}.

Abbreviation store := (list node) (only parsing).

(** [isinstance(n, ParsedNBTContainer)] *)
Definition is_container (n : node) : bool :=
  match _body n with Children _ => true | Value _ => false end.

(** The tag types that are mappings or sequences. *)
Definition mapping_or_sequence (t : TagType) : bool :=
  match t with TAG_Compound | TAG_List => true | TAG_Value _ => false end.

Definition set_body (n : node) (b : body) : node :=
  {| _parent := _parent n; _name := _name n; _type := _type n; _body := b |}.

Definition set_parent (n : node) (p : option addr) : node :=
  {| _parent := p; _name := _name n; _type := _type n; _body := _body n |}.

(** ** Statements that change a state and may raise *)

Definition M (S A : Type) : Type := S -> result A * S.

Definition ret {S A : Type} (a : A) : M S A := fun s => (Ok a, s).

Definition raise {S A : Type} (e : exn) : M S A := fun s => (Raise e, s).

Definition bind {S A B : Type} (m : M S A) (k : A -> M S B) : M S B :=
  fun s =>
    match m s with
    | (Ok a, s') => k a s'
    | (Raise e, s') => (Raise e, s')
    end.

Notation "'let!' x ':=' m 'in' k" := (bind m (fun x => k))
  (at level 10, x name, m at level 100, k at level 200).
Notation "m ';;' k" := (bind m (fun _ => k))
  (at level 100, k at level 200, right associativity).

(** ** Constructors and methods of the parsed classes *)

Definition new_object (n : node) : M store addr :=
  fun s => (Ok (length s), s ++ [n]).

(** [ParsedNBTValue(parent, name, value, _type)] *)
Definition ParsedNBTValue (parent : option addr) (name : string)
    (value : payload) (ty : TagType) : M store addr :=
  new_object {| _parent := parent; _name := name; _type := ty;
                _body := Value value |}.

(** [ParsedNBTContainer(parent, name, _type)] *)
Definition ParsedNBTContainer (parent : option addr) (name : string)
    (ty : TagType) : M store addr :=
  new_object {| _parent := parent; _name := name; _type := ty;
                _body := Children [] |}.

(** [self._children.append(child)]; a [ParsedNBTValue] has no such method. *)
Definition add_child (self : addr) (child : addr) : M store unit :=
  fun s =>
    match s !! self with
    | Some n =>
        match _body n with
        | Children cs => (Ok tt, <[self := set_body n (Children (cs ++ [child]))]> s)
        | Value _ => (Raise AttributeError, s)
        end
    | None => (Raise AttributeError, s)
    end.

(** [parent.add_child(child)] where [parent] may be [None]. *)
Definition call_add_child (parent : option addr) (child : addr) : M store unit :=
  match parent with
  | Some p => add_child p child
  | None => raise AttributeError
  end.

(** [list.remove]: drops the first occurrence, [None] when there is none. *)
Fixpoint list_remove (x : addr) (l : list addr) : option (list addr) :=
  match l with
  | [] => None
  | y :: rest =>
      if Nat.eqb y x then Some rest
      else match list_remove x rest with
           | Some rest' => Some (y :: rest')
           | None => None
           end
  end.

(** [self._children.remove(child)] *)
Definition remove_child (self : addr) (child : addr) : M store unit :=
  fun s =>
    match s !! self with
    | Some n =>
        match _body n with
        | Children cs =>
            match list_remove child cs with
            | Some cs' => (Ok tt, <[self := set_body n (Children cs')]> s)
            | None => (Raise ValueError, s)
            end
        | Value _ => (Raise AttributeError, s)
        end
    | None => (Raise AttributeError, s)
    end.

(** [ParsedNBTValue.remove] and [ParsedNBTContainer.remove] *)
Definition remove (self : addr) : M store unit :=
  fun s =>
    match s !! self with
    | Some n =>
        match _body n, _parent n with
        | Value _, Some p => remove_child p self s
        | Value _, None => (Raise AttributeError, s)
        | Children _, Some p => remove_child p self s
        | Children _, None => (Ok tt, s)
        end
    | None => (Raise AttributeError, s)
    end.

(** [child.parent = parent] *)
Definition assign_parent (self : addr) (parent : option addr) : M store unit :=
  fun s =>
    match s !! self with
    | Some n => (Ok tt, <[self := set_parent n parent]> s)
    | None => (Raise AttributeError, s)
    end.

(** [update(name, value)]: a [ParsedNBTValue] takes the name and the value, a
    [ParsedNBTContainer] the name only. *)
Definition update (self : addr) (name : string) (value : payload) : M store unit :=
  fun s =>
    match s !! self with
    | Some n =>
        match _body n with
        | Value _ =>
            (Ok tt, <[self := {| _parent := _parent n; _name := name;
                                 _type := _type n; _body := Value value |}]> s)
        | Children cs =>
            (Ok tt, <[self := {| _parent := _parent n; _name := name;
                                 _type := _type n; _body := Children cs |}]> s)
        end
    | None => (Raise AttributeError, s)
    end.

(** Reading [tag.value]: only a [ParsedNBTValue] has the attribute. *)
Definition get_value (self : addr) : M store payload :=
  fun s =>
    match s !! self with
    | Some n =>
        match _body n with
        | Value v => (Ok v, s)
        | Children _ => (Raise AttributeError, s)
        end
    | None => (Raise AttributeError, s)
    end.

(** ** parse_nbt *)

Section ParseLoops.
Variable parse_nbt : nbt -> option addr -> M store unit.

(** The body of [for child in value] for the sequence [new_parent]. *)
Definition parse_child (new_parent : addr) (child : nbt) : M store unit :=
  match child with
  | NCompound _ | NList _ =>
      let! new_new_parent :=
        ParsedNBTContainer (Some new_parent) "" (type_of child) in
      parse_nbt child (Some new_new_parent) ;;
      add_child new_parent new_new_parent
  | NValue t v =>
      let! c := ParsedNBTValue (Some new_parent) "" v (TAG_Value t) in
      add_child new_parent c
  end.

Fixpoint parse_children (new_parent : addr) (elems : list nbt) : M store unit :=
  match elems with
  | [] => ret tt
  | child :: more =>
      parse_child new_parent child ;; parse_children new_parent more
  end.

(** The body of [for key, value in _nbt.items()]. *)
Definition parse_item (parent : option addr) (key : string) (value : nbt)
    : M store unit :=
  match value with
  | NCompound _ =>
      let! new_parent := ParsedNBTContainer parent key (type_of value) in
      parse_nbt value (Some new_parent) ;;
      call_add_child parent new_parent
  | NList elems =>
      let! new_parent := ParsedNBTContainer parent key (type_of value) in
      parse_children new_parent elems ;;
      call_add_child parent new_parent
  | NValue t v =>
      match parent with
      | Some p =>
          let! c := ParsedNBTValue parent key v (TAG_Value t) in
          add_child p c
      | None => ret tt (* the orphan is only reported on stderr *)
      end
  end.

Fixpoint parse_items (parent : option addr) (items : list (string * nbt))
    : M store unit :=
  match items with
  | [] => ret tt
  | (key, value) :: rest =>
      parse_item parent key value ;; parse_items parent rest
  end.

End ParseLoops.

(** [_nbt.items()] exists on mappings only: a sequence or a value tag raises
    [AttributeError]. *)
Fixpoint parse_nbt (_nbt : nbt) (parent : option addr) {struct _nbt}
    : M store unit :=
  match _nbt with
  | NCompound items => parse_items parse_nbt parent items
  | NList _ | NValue _ _ => raise AttributeError
  end.

(** ** build_nbt

    The method only reads the tree.  [limit] bounds the depth of the recursion,
    as the interpreter does; a tree of parsed objects has no other bound, as a
    node can be made its own descendant. *)

Section BuildLoops.
Variable lib : AmuletNbt.
Variable s : store.
Variable build_nbt : addr -> result nbt.

(** [for child in self._children: container[child.name] = child.build_nbt()] *)
Fixpoint build_items (container : list (string * nbt)) (children : list addr)
    : result (list (string * nbt)) :=
  match children with
  | [] => Ok container
  | child :: more =>
      match s !! child with
      | None => Raise AttributeError
      | Some n =>
          match build_nbt child with
          | Ok v => build_items (setitem container (_name n) v) more
          | Raise e => Raise e
          end
      end
  end.

(** [for child in self._children: container.append(child.build_nbt())] *)
Fixpoint build_elems (container : list nbt) (children : list addr)
    : result (list nbt) :=
  match children with
  | [] => Ok container
  | child :: more =>
      match build_nbt child with
      | Ok v =>
          match of_library (list_append lib container v) with
          | Ok container' => build_elems container' more
          | Raise e => Raise e
          end
      | Raise e => Raise e
      end
  end.

End BuildLoops.

(** [ParsedNBTValue.build_nbt] is [self._type(self._value)], the call of the
    library; [ParsedNBTContainer.build_nbt] starts from the empty
    [self._type()], which has no [append] when the class is a value class. *)
Fixpoint build_nbt (lib : AmuletNbt) (limit : nat) (s : store) (self : addr)
    : result nbt :=
  match limit with
  | O => Raise RecursionError
  | S limit' =>
      match s !! self with
      | None => Raise AttributeError
      | Some n =>
          match _body n with
          | Value v => of_library (tag_new lib (_type n) v)
          | Children cs =>
              match _type n with
              | TAG_Compound =>
                  match build_items s (build_nbt lib limit' s) [] cs with
                  | Ok items => Ok (NCompound items)
                  | Raise e => Raise e
                  end
              | TAG_List =>
                  match build_elems lib (build_nbt lib limit' s) [] cs with
                  | Ok elems => Ok (NList elems)
                  | Raise e => Raise e
                  end
              | TAG_Value t =>
                  match cs with
                  | [] => Ok (NValue t (default_payload t))
                  | _ :: _ => Raise AttributeError
                  end
              end
          end
      end
  end.

(** ** The items of the tree widget

    [_build_sub_tree] and [_build_tree] fill the tree widget.  The calls of
    the toolkit are taken to return, and the items of the widget are not part
    of the state; what is left is how the two methods read the parsed tree,
    and that reading [.children] of a [ParsedNBTValue] raises. *)

(** [t.name] of the node at an address. *)
Definition name_of (s : store) (c : addr) : string :=
  match s !! c with
  | Some n => _name n
  | None => ""
  end.

(** [sorted(children, key=lambda t: t.name)]: ascending by code points, the
    children of one name in the order they had. *)
Fixpoint insert_sorted (s : store) (c : addr) (l : list addr) : list addr :=
  match l with
  | [] => [c]
  | d :: rest =>
      if String.leb (name_of s c) (name_of s d) then c :: l
      else d :: insert_sorted s c rest
  end.

Definition sorted (s : store) (children : list addr) : list addr :=
  foldr (insert_sorted s) [] children.

Section SubTreeLoops.
Variable s : store.
Variable _build_sub_tree : addr -> result unit.

(** [for nbt_child in sorted(...)]: only a container is descended into. *)
Fixpoint sub_tree_children (children : list addr) : result unit :=
  match children with
  | [] => Ok tt
  | nbt_child :: more =>
      match s !! nbt_child with
      | None => Raise AttributeError
      | Some n =>
          if is_container n then
            match _build_sub_tree nbt_child with
            | Ok _ => sub_tree_children more
            | Raise e => Raise e
            end
          else sub_tree_children more
      end
  end.

(** [for root_nbt in parsed_nbt.children]: every child is descended into. *)
Fixpoint tree_roots (children : list addr) : result unit :=
  match children with
  | [] => Ok tt
  | root_nbt :: more =>
      match s !! root_nbt with
      | None => Raise AttributeError
      | Some _ =>
          match _build_sub_tree root_nbt with
          | Ok _ => tree_roots more
          | Raise e => Raise e
          end
      end
  end.

End SubTreeLoops.

Fixpoint _build_sub_tree (limit : nat) (s : store) (nbt_parent : addr)
    : result unit :=
  match limit with
  | O => Raise RecursionError
  | S limit' =>
      match s !! nbt_parent with
      | None => Raise AttributeError
      | Some n =>
          match _body n with
          | Children cs =>
              sub_tree_children s (_build_sub_tree limit' s) (sorted s cs)
          | Value _ => Raise AttributeError
          end
      end
  end.

Definition _build_tree (limit : nat) (s : store) (parsed_nbt : addr)
    : result unit :=
  match s !! parsed_nbt with
  | None => Raise AttributeError
  | Some n =>
      match _body n with
      | Children cs => tree_roots s (_build_sub_tree limit s) cs
      | Value _ => Raise AttributeError
      end
  end.

(** ** The editor

    The NBT objects the caller and the editor hold are cells of a heap of
    documents; the parsed tree is the store of nodes.  [parse_nbt] keeps in
    each [ParsedNBTValue] the payload object [value.value] of the tag it
    reads, not a copy of it: [parsed_objects] are the NBT objects it was
    called on, whose payload objects the parsed tree holds. *)

Record world : Type := {
  heap : list nbt;
  nodes : store;
  parsed_objects : list addr
}.

(** A statement on the parsed tree, run in the world. *)
Definition on_nodes {A : Type} (m : M store A) : M world A :=
  fun w =>
    let '(r, s') := m (nodes w) in
    (r, {| heap := heap w; nodes := s'; parsed_objects := parsed_objects w |}).

(** A function that only reads the parsed tree. *)
Definition read_nodes {A : Type} (f : store -> result A) : M world A :=
  fun w => (f (nodes w), w).

(** A new NBT object. *)
Definition new_nbt (v : nbt) : M world addr :=
  fun w => (Ok (length (heap w)),
            {| heap := heap w ++ [v]; nodes := nodes w;
               parsed_objects := parsed_objects w |}).

(** Reading the NBT object at an address. *)
Definition read_nbt (a : addr) : M world nbt :=
  fun w =>
    match heap w !! a with
    | Some v => (Ok v, w)
    | None => (Raise AttributeError, w)
    end.

(** [deepcopy(nbt_data)]: a new object with the same content. *)
Definition deepcopy (a : addr) : M world addr :=
  let! v := read_nbt a in new_nbt v.

(** [parse_nbt(obj, parent)] for the NBT object at an address. *)
Definition parse_object (obj : addr) (parent : option addr) : M world unit :=
  fun w =>
    match heap w !! obj with
    | Some v =>
        let '(r, s') := parse_nbt v parent (nodes w) in
        (r, {| heap := heap w; nodes := s';
               parsed_objects := obj :: parsed_objects w |})
    | None => (Raise AttributeError, w)
    end.

(** [NBTEditor.__init__]; the result is [self._parent]. *)
Definition NBTEditor_init (limit : nat) (nbt_data : addr) : M world addr :=
  let! _parent := on_nodes (ParsedNBTContainer None "" TAG_Compound) in
  let! copy := deepcopy nbt_data in
  parse_object copy (Some _parent) ;;
  read_nodes (fun s => _build_tree limit s _parent) ;;
  ret _parent.

(** The property [NBTEditor.nbt]: a new NBT object built from the tree. *)
Definition NBTEditor_nbt (lib : AmuletNbt) (limit : nat) (_parent : addr)
    : M world addr :=
  fun w =>
    match build_nbt lib limit (nodes w) _parent with
    | Ok v => new_nbt v w
    | Raise e => (Raise e, w)
    end.

(** The tag [NewTagDialog._save] hands to the callback of [_add_tag]. *)
Definition new_tag (name : string) (tag_type : TagType) (value : payload)
    : M store addr :=
  match tag_type with
  | TAG_Value _ => ParsedNBTValue None name value tag_type
  | TAG_Compound | TAG_List => ParsedNBTContainer None name tag_type
  end.

(** The callback of [_add_tag] for the focused node [parent_tag]: the two
    statements that change the parsed tree.  The rest of this callback, and of
    the next two, fills the tree widget again and only reads the parsed
    tree. *)
Definition add_tag (parent_tag : addr) (name : string) (tag_type : TagType)
    (value : payload) : M store unit :=
  let! t := new_tag name tag_type value in
  assign_parent t (Some parent_tag) ;;
  add_child parent_tag t.

(** The callback of [_edit_tag]:
    [parsed_tag.update(edited_tag.name, edited_tag.value)], where [edited_tag]
    is the dialog's copy of [parsed_tag] with the name and, for a value tag,
    the value the user entered.  The copy is not part of the tree and is left
    out; reading [edited_tag.value] raises for a container, before [update]
    is called. *)
Definition edit_tag (parsed_tag : addr) (name : string) (value : payload)
    : M store unit :=
  get_value parsed_tag ;;
  update parsed_tag name value.

(** [_delete_tag]: [parsed_tag.remove()]. *)
Definition delete_tag (parsed_tag : addr) : M store unit :=
  remove parsed_tag.

(** What the user can do with an editor once it is built. *)
Inductive operation : Type :=
| AddTag (parent_tag : addr) (name : string) (tag_type : TagType) (value : payload)
| EditTag (parsed_tag : addr) (name : string) (value : payload)
| DeleteTag (parsed_tag : addr)
| ReadNbt.

Definition run_operation (lib : AmuletNbt) (limit : nat) (_parent : addr)
    (o : operation) : M world unit :=
  match o with
  | AddTag p name ty v => on_nodes (add_tag p name ty v)
  | EditTag t name v => on_nodes (edit_tag t name v)
  | DeleteTag t => on_nodes (delete_tag t)
  | ReadNbt => NBTEditor_nbt lib limit _parent ;; ret tt
  end.

(** Operations are event callbacks: one that raises leaves the world as it is
    at that point, and the next one runs all the same. *)
Fixpoint run_operations (lib : AmuletNbt) (limit : nat) (_parent : addr)
    (os : list operation) (w : world) : world :=
  match os with
  | [] => w
  | o :: rest =>
      run_operations lib limit _parent rest
        (snd (run_operation lib limit _parent o w))
  end.

(** ** Consistency of the parsed tree *)

(** A node is of the container class exactly when its tag type is a mapping or
    a sequence type. *)
Definition kind_ok (n : node) : Prop :=
  is_container n = mapping_or_sequence (_type n).

(** The number of times [c] is in a [_children] list. *)
Fixpoint occurrences (c : addr) (l : list addr) : nat :=
  match l with
  | [] => O
  | x :: rest => ((if Nat.eqb x c then 1 else 0) + occurrences c rest)%nat
  end.

(** Every [_children] list of the store repeats no node, and each of its
    members is a node whose [_parent] is the owner of the list and whose class
    fits its tag type. *)
Definition consistent (s : store) : Prop :=
  forall p np cs, s !! p = Some np -> _body np = Children cs ->
    NoDup cs
    /\ forall c, c ∈ cs ->
         exists nc, s !! c = Some nc /\ _parent nc = Some p /\ kind_ok nc.

(** The nodes that can be reached from [root] through [_children]. *)
Inductive reachable (s : store) (root : addr) : addr -> Prop :=
| reach_root : reachable s root root
| reach_child (p c : addr) (np : node) (cs : list addr) :
    reachable s root p -> s !! p = Some np -> _body np = Children cs ->
    c ∈ cs -> reachable s root c.

(** Consistency seen from [root]: a node reachable from [root], other than
    [root], has a parent, is exactly once among the children of that parent,
    and is a container exactly when its tag type is a mapping or sequence. *)
Definition tree_consistent (s : store) (root : addr) : Prop :=
  forall c, reachable s root c -> c <> root ->
    exists nc p np cs,
      s !! c = Some nc /\ _parent nc = Some p
      /\ s !! p = Some np /\ _body np = Children cs
      /\ occurrences c cs = 1%nat
      /\ (is_container nc = true <-> mapping_or_sequence (_type nc) = true).

(** A node that is in no [_children] list. *)
Definition detached (s : store) (c : addr) : Prop :=
  forall p np cs, s !! p = Some np -> _body np = Children cs -> c ∉ cs.

(** Nodes that are built and know their parent but are not yet appended to its
    children, as between the constructor call and [add_child] in [parse_nbt]. *)
Abbreviation pending := (list (addr * option addr)) (only parsing).

Definition inv (P : pending) (s : store) : Prop :=
  consistent s
  /\ (forall p np cs c, s !! p = Some np -> _body np = Children cs ->
        c ∈ cs -> c ∉ P.*1)
  /\ (forall c par, (c, par) ∈ P ->
        exists nc, s !! c = Some nc /\ _parent nc = par /\ kind_ok nc)
  /\ NoDup P.*1.

(** What a statement guarantees: [Post] when it returns, [Exc] when it
    raises. *)
Definition triple {A : Type} (Pre : store -> Prop) (m : M store A)
    (Post : A -> store -> Prop) (Exc : store -> Prop) : Prop :=
  forall s, Pre s ->
    match m s with
    | (Ok a, s') => Post a s'
    | (Raise _, s') => Exc s'
    end.

(** Induction over NBT values, through the lists of items and elements. *)
Section NbtInd.
Variable Q : nbt -> Prop.
Hypothesis Hvalue : forall t v, Q (NValue t v).
Hypothesis Hcompound :
  forall items, Forall (fun kv => Q (snd kv)) items -> Q (NCompound items).
Hypothesis Hlist : forall elems, Forall Q elems -> Q (NList elems).

Fixpoint nbt_induction (d : nbt) : Q d :=
  match d with
  | NValue t v => Hvalue t v
  | NCompound items =>
      Hcompound items
        ((fix go (l : list (string * nbt)) : Forall (fun kv => Q (snd kv)) l :=
            match l with
            | [] => List.Forall_nil _
            | kv :: rest => List.Forall_cons _ kv rest (nbt_induction (snd kv)) (go rest)
            end) items)
  | NList elems =>
      Hlist elems
        ((fix go (l : list nbt) : Forall Q l :=
            match l with
            | [] => List.Forall_nil _
            | e :: rest => List.Forall_cons _ e rest (nbt_induction e) (go rest)
            end) elems)
  end.
End NbtInd.

(** What [parse_nbt] and its loops keep. *)
Definition keeps (m : M store unit) : Prop :=
  forall P, triple (inv P) m (fun _ => inv P) (inv P).

(** The heap only grows: every object of [w] is an object of [w']. *)
Definition grows (w w' : world) : Prop := exists objs, heap w' = heap w ++ objs.

(** ** The round trip *)

Local Open Scope nat_scope.

(** The documents [parse_nbt] handles: a mapping has each key once, and no
    list is an element of a list. *)
#[warnings="-register-all"]
Inductive parsable : nbt -> Prop :=
| parsable_value t v : parsable (NValue t v)
| parsable_compound items :
    NoDup items.*1 -> Forall (fun kv => parsable (snd kv)) items ->
    parsable (NCompound items)
| parsable_list elems :
    Forall (fun e => parsable e /\ forall l, e <> NList l) elems ->
    parsable (NList elems).

(** The node at [a] and the nodes below it, all at addresses from [lo] on,
    stand for the tag [d]. *)
#[warnings="-register-all"]
Inductive repr (lo : nat) (s : store) : addr -> nbt -> Prop :=
| repr_value a n t v :
    lo <= a -> s !! a = Some n -> _type n = TAG_Value t -> _body n = Value v ->
    repr lo s a (NValue t v)
| repr_compound a n cs items :
    lo <= a -> s !! a = Some n -> _type n = TAG_Compound ->
    _body n = Children cs ->
    Forall2 (fun c kv => (_name <$> s !! c) = Some (fst kv) /\ repr lo s c (snd kv))
            cs items ->
    repr lo s a (NCompound items)
| repr_list a n cs elems :
    lo <= a -> s !! a = Some n -> _type n = TAG_List ->
    _body n = Children cs ->
    Forall2 (repr lo s) cs elems ->
    repr lo s a (NList elems).

(** A statement that appends children to [p] and builds new nodes leaves the
    other nodes of the store as they are. *)
Definition frame (p : addr) (s s' : store) : Prop :=
  length s <= length s'
  /\ forall b, b < length s -> b <> p -> s' !! b = s !! b.

(** What [parse_nbt] does for the items of a mapping and the elements of a
    sequence: it returns, touches no node but the parent and the new ones, and
    appends to the parent one subtree for each. *)
Definition parses_items (items : list (string * nbt)) : Prop :=
  forall p s np cs0, s !! p = Some np -> _body np = Children cs0 ->
    exists s' cs,
      parse_items parse_nbt (Some p) items s = (Ok tt, s')
      /\ frame p s s'
      /\ s' !! p = Some (set_body np (Children (cs0 ++ cs)))
      /\ Forall2 (fun c kv => (_name <$> s' !! c) = Some (fst kv)
                               /\ repr (length s) s' c (snd kv)) cs items.

Definition parses_elems (elems : list nbt) : Prop :=
  forall p s np cs0, s !! p = Some np -> _body np = Children cs0 ->
    exists s' cs,
      parse_children parse_nbt p elems s = (Ok tt, s')
      /\ frame p s s'
      /\ s' !! p = Some (set_body np (Children (cs0 ++ cs)))
      /\ Forall2 (repr (length s) s') cs elems.

Definition parses (d : nbt) : Prop :=
  match d with
  | NValue _ _ => True
  | NCompound items => parses_items items
  | NList elems => parses_elems elems
  end.

(** One subtree: a new node for [value], filled and appended to [p]. *)
Definition attaches (step : M store unit) (name : string) (value : nbt) (p : addr)
    : Prop :=
  forall s np cs0, s !! p = Some np -> _body np = Children cs0 ->
    exists s1,
      step s = (Ok tt, s1)
      /\ frame p s s1
      /\ s1 !! p = Some (set_body np (Children (cs0 ++ [length s])))
      /\ (_name <$> s1 !! length s) = Some name
      /\ repr (length s) s1 (length s) value.

(** ** Sample states and documents *)

(** The store of a new editor: the root container alone. *)
Definition empty_root : store :=
  [{| _parent := None; _name := ""; _type := TAG_Compound; _body := Children [] |}].

Definition sample_doc : nbt :=
  NCompound
    [ ("a", NValue TAG_Int (PInt 3));
      ("b", NList [NValue TAG_Byte (PInt 1); NValue TAG_Byte (PInt 2)]);
      ("c", NCompound [("x", NValue TAG_String (PStr "hi"))]);
      ("l", NList [NCompound [("k", NValue TAG_Int (PInt 9))]; NCompound []]) ]%string.

(** A document with a list as an element of a list. *)
Definition list_in_list_doc : nbt := NCompound [("a", NList [NList []])]%string.

(** A root with one child. *)
Definition attached_store : store :=
  [ {| _parent := None; _name := ""; _type := TAG_Compound; _body := Children [1] |};
    {| _parent := Some 0; _name := "x"; _type := TAG_Value TAG_Int;
       _body := Value (PInt 1) |} ].

(** A world in which the caller holds [sample_doc]. *)
Definition sample_world : world :=
  {| heap := [sample_doc]; nodes := []; parsed_objects := [] |}.

(** A document with mappings and sequences only at the top, a world in which
    the caller holds it, and the parsed tree the editor makes of it. *)
Definition editor_items : list (string * nbt) :=
  [ ("Data", NCompound [("x", NValue TAG_String (PStr "hi"));
                        ("n", NValue TAG_Int (PInt 3))]);
    ("Pos", NList [NValue TAG_Byte (PInt 1); NValue TAG_Byte (PInt 2)]) ]%string.

Definition editor_doc : nbt := NCompound editor_items.

Definition editor_world : world :=
  {| heap := [editor_doc]; nodes := []; parsed_objects := [] |}.

Definition editor_nodes : store := nodes (snd (NBTEditor_init 16 0 editor_world)).

(** ** Notions the properties of parse_nbt, build_nbt and the editor use *)

(** No list is an element of a list, at any depth. *)
Fixpoint supported (d : nbt) : bool :=
  match d with
  | NValue _ _ => true
  | NCompound items => forallb (fun kv => supported (snd kv)) items
  | NList elems =>
      forallb (fun e => match e with
                        | NList _ => false
                        | _ => supported e
                        end) elems
  end.

(** [isinstance(value, (MutableMapping, MutableSequence))] is false. *)
Definition is_value (d : nbt) : bool :=
  match d with NValue _ _ => true | _ => false end.

(** [container[name]] on a mapping kept as the list of its items. *)
Fixpoint getitem (items : list (string * nbt)) (name : string) : option nbt :=
  match items with
  | [] => None
  | (k, v) :: rest => if String.eqb k name then Some v else getitem rest name
  end.

(** The last of the children that has the name. *)
Fixpoint last_named (s : store) (children : list addr) (name : string)
    : option addr :=
  match children with
  | [] => None
  | c :: more =>
      match last_named s more name with
      | Some c' => Some c'
      | None =>
          match s !! c with
          | Some n => if String.eqb (_name n) name then Some c else None
          | None => None
          end
      end
  end.

(** What a call returned, when it returned. *)
Definition returned {A : Type} (r : result A) : option A :=
  match r with Ok a => Some a | Raise _ => None end.

(** A statement that raises nothing but [AttributeError]. *)
Definition raises_only_attribute_error {A : Type} (m : M store A) : Prop :=
  forall s e s', m s = (Raise e, s') -> e = AttributeError.

(** [parse_nbt] raises [AttributeError] on the items, or on the elements,
    whatever container it is to fill. *)
Definition fails_items (items : list (string * nbt)) : Prop :=
  forall p s np cs0, s !! p = Some np -> _body np = Children cs0 ->
    fst (parse_items parse_nbt (Some p) items s) = Raise AttributeError.

Definition fails_elems (elems : list nbt) : Prop :=
  forall p s np cs0, s !! p = Some np -> _body np = Children cs0 ->
    fst (parse_children parse_nbt p elems s) = Raise AttributeError.

(** The node [add_tag] leaves at the new address. *)
Definition added_node (parent_tag : addr) (name : string) (tag_type : TagType)
    (value : payload) : node :=
  {| _parent := Some parent_tag; _name := name; _type := tag_type;
     _body := match tag_type with
              | TAG_Value _ => Value value
              | TAG_Compound | TAG_List => Children []
              end |}.

(** What [build_nbt] gives for a node that [add_tag] has just made: the call
    [tag_type(value)] of the library for a value class, the empty mapping or
    sequence otherwise. *)
Definition added_tag (lib : AmuletNbt) (tag_type : TagType) (value : payload)
    : result nbt :=
  match tag_type with
  | TAG_Value _ => of_library (tag_new lib tag_type value)
  | TAG_Compound => Ok (NCompound [])
  | TAG_List => Ok (NList [])
  end.

(** Appending the elements one after the other to [container] returns, and
    gives the list of them all. *)
Fixpoint appends (lib : AmuletNbt) (container : list nbt) (elems : list nbt)
    : Prop :=
  match elems with
  | [] => True
  | e :: more =>
      list_append lib container e = inl (container ++ [e])
      /\ appends lib (container ++ [e]) more
  end.

(** The library makes the tag again from its parts: a value tag from its
    class and payload, a list from its elements.  This holds of the tags the
    library itself has made. *)
#[warnings="-register-all"]
Inductive rebuilds (lib : AmuletNbt) : nbt -> Prop :=
| rebuilds_value t v :
    tag_new lib (TAG_Value t) v = inl (NValue t v) -> rebuilds lib (NValue t v)
| rebuilds_compound items :
    Forall (fun kv => rebuilds lib (snd kv)) items -> rebuilds lib (NCompound items)
| rebuilds_list elems :
    Forall (rebuilds lib) elems -> appends lib [] elems ->
    rebuilds lib (NList elems).

(** What no operation of the editor changes of a node: its tag type, its
    parent, its class and, for a container, its name. *)
Definition same_identity (n n' : node) : Prop :=
  _type n' = _type n /\ _parent n' = _parent n
  /\ is_container n' = is_container n
  /\ (is_container n = true -> _name n' = _name n).

(** A compound with two children of the same name. *)
Definition twins_store : store :=
  [ {| _parent := None; _name := ""; _type := TAG_Compound;
       _body := Children [1; 2] |};
    {| _parent := Some 0; _name := "x"; _type := TAG_Value TAG_Int;
       _body := Value (PInt 1) |};
    {| _parent := Some 0; _name := "x"; _type := TAG_Value TAG_Int;
       _body := Value (PInt 2) |} ].

(** Every node of [s] is in [s'], as it was. *)
Definition untouched (s s' : store) : Prop :=
  length s <= length s' /\ forall b, b < length s -> s' !! b = s !! b.

(** What filling the container [p] may change of the nodes that exist:
    nothing, except that [p] may have more children at the end of its
    list. *)
Definition fills (p : addr) (s s' : store) : Prop :=
  frame p s s'
  /\ forall np, s !! p = Some np ->
       exists more,
         s' !! p = Some (match _body np with
                         | Children cs => set_body np (Children (cs ++ more))
                         | Value _ => np
                         end).

(** Every child was made after its parent: the children of a node are at
    higher addresses than the node. *)
Definition ordered (s : store) : Prop :=
  forall p np cs c, s !! p = Some np -> _body np = Children cs -> c ∈ cs -> p < c.

(** [ordered], for a store that has at least [L] nodes. *)
Definition ordered_from (L : nat) (s : store) : Prop := ordered s /\ L <= length s.

(** The operations as the tree widget allows them: a tag is added to a node
    that exists. *)
Definition operation_valid (s : store) (o : operation) : Prop :=
  match o with
  | AddTag parent_tag _ _ _ => parent_tag < length s
  | _ => True
  end.

Fixpoint operations_valid (lib : AmuletNbt) (limit : nat) (_parent : addr)
    (os : list operation) (w : world) : Prop :=
  match os with
  | [] => True
  | o :: rest =>
      operation_valid (nodes w) o
      /\ operations_valid lib limit _parent rest
           (snd (run_operation lib limit _parent o w))
  end.

End NbtEditor.

(** * Properties *)

(** ** select.py *)

Section SelectFacts.
Import Select.

(** C2. For every offset and every selection state, [Point1MoveButton._move]
    adds the offset to point 1 and leaves point 2 unchanged,
    [Point2MoveButton._move] adds it to point 2 and leaves point 1 unchanged,
    and [SelectionMoveButton._move] adds it to both points, so that the extent
    [p2 - p1] of the box is unchanged. *)
Theorem move_buttons_frame (offset : Z * Z * Z) (s : BlockSelectionBehaviour) :
  (point1 (Point1MoveButton_move offset s) = add3 (point1 s) offset
   /\ point2 (Point1MoveButton_move offset s) = point2 s)
  /\ (point2 (Point2MoveButton_move offset s) = add3 (point2 s) offset
      /\ point1 (Point2MoveButton_move offset s) = point1 s)
  /\ (point1 (SelectionMoveButton_move offset s) = add3 (point1 s) offset
      /\ point2 (SelectionMoveButton_move offset s) = add3 (point2 s) offset
      /\ extent (SelectionMoveButton_move offset s) = extent s).
Proof.
  destruct offset as [[ox oy] oz].
  destruct s as [[[[x1 y1] z1] [[x2 y2] z2]]].
  unfold extent, point1, point2; cbn.
  repeat split; try reflexivity.
  f_equal; [f_equal |]; lia.
Qed.

(** *** The movement buttons as event handlers *)

Section MovementButtonFacts.
Variable act : ActionIds.
Context {Sel Camera : Type}.
Variable _move : Z * Z * Z -> Sel -> Sel.
Variable _rotate : Camera -> Z * Z * Z -> Z * Z * Z.

Local Abbreviation handle := (Select.handle act _move _rotate).
Local Abbreviation handle_all := (Select.handle_all act _move _rotate).
Local Abbreviation _on_held := (Select._on_held act _move _rotate).

Lemma handle_all_app evts1 evts2 (b : MovementButton) :
  handle_all (evts1 ++ evts2) b = handle_all evts2 (handle_all evts1 b).
Proof. apply fold_left_app. Qed.

Lemma handle_not_listening (evt : InputEvent) (b : @MovementButton Sel) :
  _listen b = false -> evt <> InputPress (ACT_BOX_CLICK act) ->
  _listen (handle evt b) = false /\ _selection (handle evt b) = _selection b.
Proof.
  intros Hl Hne. destruct evt as [a | a | ids camera]; cbn [Select.handle].
  - unfold _on_down. destruct (String.eqb a (ACT_BOX_CLICK act)) eqn:Ha.
    + apply String.eqb_eq in Ha. subst a. contradiction.
    + destruct (bool_decide _); cbn; auto.
  - unfold _on_up. destruct (String.eqb a (ACT_BOX_CLICK act)); cbn; auto.
  - unfold Select._on_held. rewrite Hl. auto.
Qed.

(** X11. A movement button that is not listening moves nothing until the box
    click action is pressed: over any sequence of press, release and held
    events without that press, the selection stays as it was. *)
Theorem no_move_without_box_click (evts : list InputEvent) (b : @MovementButton Sel) :
  _listen b = false -> InputPress (ACT_BOX_CLICK act) ∉ evts ->
  _selection (handle_all evts b) = _selection b.
Proof.
  revert b. induction evts as [| evt rest IH]; intros b Hl Hnin; [reflexivity |].
  apply not_elem_of_cons in Hnin as [Hne Hnin].
  destruct (handle_not_listening evt b Hl (not_eq_sym Hne)) as [Hl' Hm'].
  change (handle_all (evt :: rest) b) with (handle_all rest (handle evt b)).
  rewrite (IH _ Hl' Hnin). exact Hm'.
Qed.

Lemma handle_timeout (evt : InputEvent) (b : @MovementButton Sel) :
  0 <= _timeout b <= 10 -> 0 <= _timeout (handle evt b) <= 10.
Proof.
  intros Ht. destruct evt as [a | a | ids camera]; cbn [Select.handle].
  - unfold _on_down. destruct (String.eqb _ _); [exact Ht |].
    destruct (bool_decide _); cbn; [lia | exact Ht].
  - unfold _on_up. destruct (String.eqb _ _); exact Ht.
  - unfold Select._on_held. destruct (_listen b); [| exact Ht].
    destruct ((_timeout b =? 0) || (_timeout b =? 10));
      [destruct (any3 _) |]; cbn [_timeout];
      destruct (_timeout b =? 0) eqn:E; cbn; lia.
Qed.

(** X12. Whatever events arrive at a new button, [_timeout] stays between 0
    and 10. *)
Theorem timeout_stays_in_range (evts : list InputEvent) (sel : Sel) :
  0 <= _timeout (handle_all evts (MovementButton_init sel)) <= 10.
Proof.
  assert (H : forall b : @MovementButton Sel,
             0 <= _timeout b <= 10 -> 0 <= _timeout (handle_all evts b) <= 10).
  { induction evts as [| evt rest IH]; intros b Hb; [exact Hb |].
    apply (IH (handle evt b)), handle_timeout, Hb. }
  apply H. cbn. lia.
Qed.

(** One held event, by the time-out it arrives at. *)
Lemma held_first ids camera (b : @MovementButton Sel) :
  _listen b = true -> _timeout b = 10 -> any3 (direction act ids) = true ->
  _on_held ids camera b
  = {| _listen := true; _timeout := 9;
       _selection := _move (_rotate camera (direction act ids)) (_selection b) |}.
Proof.
  intros Hl Ht Hany. unfold Select._on_held. rewrite Hl, Ht, Hany. reflexivity.
Qed.

Lemma held_waiting ids camera (b : @MovementButton Sel) :
  _listen b = true -> 1 <= _timeout b <= 9 ->
  _on_held ids camera b
  = {| _listen := true; _timeout := _timeout b - 1; _selection := _selection b |}.
Proof.
  intros Hl Ht. unfold Select._on_held. rewrite Hl.
  assert (H0 : (_timeout b =? 0) = false) by (apply Z.eqb_neq; lia).
  assert (H10 : (_timeout b =? 10) = false) by (apply Z.eqb_neq; lia).
  rewrite H0, H10. cbn [orb]. rewrite H0, Hl. reflexivity.
Qed.

Lemma held_repeating ids camera (b : @MovementButton Sel) :
  _listen b = true -> _timeout b = 0 -> any3 (direction act ids) = true ->
  _on_held ids camera b
  = {| _listen := true; _timeout := 0;
       _selection := _move (_rotate camera (direction act ids)) (_selection b) |}.
Proof.
  intros Hl Ht Hany. unfold Select._on_held. rewrite Hl, Ht, Hany. reflexivity.
Qed.

Lemma wait_ticks ids camera (k : nat) (b : @MovementButton Sel) :
  _listen b = true -> 1 <= _timeout b <= 9 -> Z.of_nat k <= _timeout b ->
  handle_all (repeat (InputHeld ids camera) k) b
  = {| _listen := true; _timeout := _timeout b - Z.of_nat k;
       _selection := _selection b |}.
Proof.
  intros Hl Ht. induction k as [| k IH]; intros Hk.
  - cbn. destruct b; cbn in *. subst. f_equal. lia.
  - rewrite <- Nat.add_1_r, repeat_app, handle_all_app, IH by lia.
    cbn [repeat Select.handle_all fold_left Select.handle].
    rewrite held_waiting by (cbn; lia). cbn. f_equal. lia.
Qed.

Lemma repeat_ticks ids camera (k : nat) (b : @MovementButton Sel) :
  _listen b = true -> _timeout b = 0 -> any3 (direction act ids) = true ->
  handle_all (repeat (InputHeld ids camera) k) b
  = {| _listen := true; _timeout := 0;
       _selection := Nat.iter k (_move (_rotate camera (direction act ids)))
                       (_selection b) |}.
Proof.
  intros Hl Ht Hany. induction k as [| k IH].
  - cbn. destruct b; cbn in *. subst. reflexivity.
  - rewrite <- Nat.add_1_r, repeat_app, handle_all_app, IH.
    cbn [repeat Select.handle_all fold_left Select.handle].
    rewrite held_repeating by (cbn; auto). cbn. rewrite Nat.add_1_r. reflexivity.
Qed.

(** X13. The repeat delay of a held movement key.  For a listening button
    whose time-out is 10, [n] held events in a row with the same keys, at
    least one direction of which is not cancelled, move once at the first
    event, not at all during the next nine, and once at every event from the
    eleventh on; the time-out counts down from 10 to 0 and stays there. *)
Theorem held_repeat_schedule (ids : list string) (camera : Camera) (n : nat)
    (b : @MovementButton Sel) :
  _listen b = true -> _timeout b = 10 -> any3 (direction act ids) = true ->
  handle_all (repeat (InputHeld ids camera) n) b
  = {| _listen := true;
       _timeout := Z.max 0 (10 - Z.of_nat n);
       _selection := Nat.iter (moves_after n)
                  (_move (_rotate camera (direction act ids))) (_selection b) |}.
Proof.
  intros Hl Ht Hany. destruct n as [| m].
  - cbn. destruct b; cbn in *. subst. reflexivity.
  - change (repeat (InputHeld ids camera) (S m))
      with ([InputHeld ids camera] ++ repeat (InputHeld ids camera) m).
    rewrite handle_all_app.
    cbn [Select.handle_all fold_left Select.handle].
    rewrite (held_first ids camera b Hl Ht Hany).
    destruct (le_gt_dec m 9) as [Hle | Hgt].
    + rewrite wait_ticks by (cbn; lia). cbn [_timeout _selection].
      unfold moves_after. replace (S m <=? 10)%nat with true
        by (symmetry; apply Nat.leb_le; lia).
      cbn [Nat.iter nat_rect]. f_equal. lia.
    + assert (Hrep : repeat (InputHeld ids camera) m
                     = repeat (InputHeld ids camera) 9
                       ++ repeat (InputHeld ids camera) (m - 9)).
      { rewrite <- repeat_app. f_equal. lia. }
      rewrite Hrep, handle_all_app.
      rewrite (wait_ticks ids camera 9) by (cbn; lia). cbn [_timeout _selection].
      rewrite repeat_ticks by (cbn; auto). cbn [_selection].
      unfold moves_after. replace (S m <=? 10)%nat with false
        by (symmetry; apply Nat.leb_gt; lia).
      replace (S m - 9)%nat with (S (m - 9)) by lia.
      rewrite Nat.iter_succ_r. f_equal. lia.
Qed.

Lemma direction_balanced (ids : list string) :
  (ACT_MOVE_LEFT act ∈ ids <-> ACT_MOVE_RIGHT act ∈ ids) ->
  (ACT_MOVE_UP act ∈ ids <-> ACT_MOVE_DOWN act ∈ ids) ->
  (ACT_MOVE_FORWARDS act ∈ ids <-> ACT_MOVE_BACKWARDS act ∈ ids) ->
  direction act ids = (0, 0, 0).
Proof.
  intros Hx Hy Hz. unfold direction.
  rewrite (bool_decide_ext _ _ Hx), (bool_decide_ext _ _ Hy), (bool_decide_ext _ _ Hz).
  destruct (bool_decide (ACT_MOVE_RIGHT act ∈ ids)),
    (bool_decide (ACT_MOVE_DOWN act ∈ ids)),
    (bool_decide (ACT_MOVE_BACKWARDS act ∈ ids)); reflexivity.
Qed.

(** X14. Opposite keys cancel: a held event in which, on each axis, both keys
    are held or neither is, moves nothing. *)
Theorem held_opposite_keys_cancel (ids : list string) (camera : Camera)
    (b : @MovementButton Sel) :
  (ACT_MOVE_LEFT act ∈ ids <-> ACT_MOVE_RIGHT act ∈ ids) ->
  (ACT_MOVE_UP act ∈ ids <-> ACT_MOVE_DOWN act ∈ ids) ->
  (ACT_MOVE_FORWARDS act ∈ ids <-> ACT_MOVE_BACKWARDS act ∈ ids) ->
  _selection (_on_held ids camera b) = _selection b.
Proof.
  intros Hx Hy Hz. unfold Select._on_held.
  rewrite (direction_balanced ids Hx Hy Hz). cbn [any3 Z.eqb negb orb].
  destruct (_listen b); [| reflexivity].
  destruct ((_timeout b =? 0) || (_timeout b =? 10));
    destruct (negb (_timeout b =? 0)); reflexivity.
Qed.

End MovementButtonFacts.

Lemma no_move_without_box_click_witness :
  _selection (handle_all act_sample Point1MoveButton_move (fun _ : unit => id)
           [InputPress "ACT_MOVE_UP"; InputHeld ["ACT_MOVE_UP"]%string tt;
            InputRelease "ACT_BOX_CLICK"]%string
           (MovementButton_init sample_selection))
  = sample_selection.
Proof.
  apply (no_move_without_box_click act_sample Point1MoveButton_move
           (fun _ : unit => id)).
  - reflexivity.
  - intros H. repeat (apply elem_of_cons in H as [H | H]; [discriminate H |]).
    inversion H.
Defined.

Lemma held_repeat_schedule_witness :
  handle_all act_sample SelectionMoveButton_move (fun _ : unit => id)
    (repeat (InputHeld ["ACT_MOVE_UP"; "ACT_MOVE_LEFT"]%string tt) 12)
    listening_button
  = {| _listen := true; _timeout := Z.max 0 (10 - Z.of_nat 12);
       _selection := Nat.iter (moves_after 12)
                  (SelectionMoveButton_move
                     (direction act_sample ["ACT_MOVE_UP"; "ACT_MOVE_LEFT"]%string))
                  sample_selection |}.
Proof.
  apply (held_repeat_schedule act_sample SelectionMoveButton_move
           (fun _ : unit => id) ["ACT_MOVE_UP"; "ACT_MOVE_LEFT"]%string tt 12
           listening_button); reflexivity.
Defined.

Lemma held_opposite_keys_cancel_witness :
  _selection (_on_held act_sample Point2MoveButton_move (fun _ : unit => id)
           ["ACT_MOVE_LEFT"; "ACT_MOVE_RIGHT"]%string tt listening_button)
  = sample_selection.
Proof.
  apply (held_opposite_keys_cancel act_sample Point2MoveButton_move
           (fun _ : unit => id) ["ACT_MOVE_LEFT"; "ACT_MOVE_RIGHT"]%string tt
           listening_button).
  - split; intros _; apply (bool_decide_unpack _); reflexivity.
  - split; intros H; cbn in H;
      repeat (apply elem_of_cons in H as [H | H]; [discriminate H |]); inversion H.
  - split; intros H; cbn in H;
      repeat (apply elem_of_cons in H as [H | H]; [discriminate H |]); inversion H.
Defined.

(** *** What each button leaves alone *)

Section ButtonFrame.
Variable act : ActionIds.
Context {Camera : Type}.
Variable _rotate : Camera -> Z * Z * Z -> Z * Z * Z.

(** What every move keeps, every sequence of events keeps. *)
Lemma handle_all_keeps {Sel A : Type} (_move : Z * Z * Z -> Sel -> Sel)
    (f : Sel -> A) (evts : list InputEvent) :
  (forall o sel, f (_move o sel) = f sel) ->
  forall b, f (_selection (handle_all act _move _rotate evts b)) = f (_selection b).
Proof.
  intros Hmove. induction evts as [| evt rest IH]; intros b; [reflexivity |].
  change (handle_all act _move _rotate (evt :: rest) b)
    with (handle_all act _move _rotate rest (handle act _move _rotate evt b)).
  rewrite IH. destruct evt as [a | a | ids camera]; cbn [handle].
  - unfold _on_down. destruct (String.eqb _ _); [reflexivity |].
    destruct (bool_decide _); reflexivity.
  - unfold _on_up. destruct (String.eqb _ _); reflexivity.
  - unfold _on_held. destruct (_listen b); [| reflexivity].
    destruct ((_timeout b =? 0) || (_timeout b =? 10));
      [destruct (any3 _) |]; cbn [_timeout _selection];
      destruct (negb (_timeout b =? 0)); cbn [_selection]; auto.
Qed.

(** X24. Over any sequence of press, release and held events, the point 1
    button never changes point 2, the point 2 button never changes point 1,
    and the selection button never changes the extent of the box. *)
Theorem buttons_keep_their_frame (evts : list (@InputEvent Camera))
    (b : @MovementButton BlockSelectionBehaviour) :
  point2 (_selection (handle_all act Point1MoveButton_move _rotate evts b))
  = point2 (_selection b)
  /\ point1 (_selection (handle_all act Point2MoveButton_move _rotate evts b))
     = point1 (_selection b)
  /\ extent (_selection (handle_all act SelectionMoveButton_move _rotate evts b))
     = extent (_selection b).
Proof.
  split; [| split]; apply handle_all_keeps;
    intros [[ox oy] oz] [[[[x1 y1] z1] [[x2 y2] z2]]];
    unfold extent, point1, point2; cbn; try reflexivity.
  f_equal; [f_equal |]; lia.
Qed.
End ButtonFrame.

End SelectFacts.

(** ** key_config.py *)

Section KeyConfigFacts.
Import KeyConfig.

Lemma is_wheel_true wx m :
  is_wheel wx m = true <-> GetEventType m ∈ EVT_MOUSEWHEEL wx.
Proof. unfold is_wheel. rewrite bool_decide_eq_true. reflexivity. Qed.

(** C10. A wheel event with rotation zero is not serialised; a negative
    rotation gives [MWSD] and a positive one [MWSU], both with the empty
    modifier tuple. *)
Theorem wheel_serialisation (wx : WxConstants) (m : MouseEvent) :
  GetEventType m ∈ EVT_MOUSEWHEEL wx ->
  (GetWheelRotation m = 0 -> serialise_key_event wx (EvMouse m) = None)
  /\ (GetWheelRotation m < 0 ->
      serialise_key_event wx (EvMouse m) = Some ([], KStr "MWSD"))
  /\ (0 < GetWheelRotation m ->
      serialise_key_event wx (EvMouse m) = Some ([], KStr "MWSU")).
Proof.
  intros Hw. apply is_wheel_true in Hw. cbn. rewrite Hw.
  repeat split; intros Hr.
  - rewrite Hr. reflexivity.
  - destruct (Z.ltb_spec (GetWheelRotation m) 0); [reflexivity | lia].
  - destruct (Z.ltb_spec (GetWheelRotation m) 0); [lia |].
    destruct (Z.ltb_spec 0 (GetWheelRotation m)); [reflexivity | lia].
Qed.

Lemma wheel_serialisation_witness :
  serialise_key_event wx_sample
    (EvMouse {| GetEventType := 10045; GetWheelRotation := 0 |}) = None
  /\ serialise_key_event wx_sample
       (EvMouse {| GetEventType := 10045; GetWheelRotation := -120 |})
     = Some ([], KStr "MWSD")
  /\ serialise_key_event wx_sample
       (EvMouse {| GetEventType := 10045; GetWheelRotation := 120 |})
     = Some ([], KStr "MWSU").
Proof.
  split; [| split].
  - apply (wheel_serialisation wx_sample
             {| GetEventType := 10045; GetWheelRotation := 0 |}).
    + cbn. set_solver.
    + reflexivity.
  - apply (wheel_serialisation wx_sample
             {| GetEventType := 10045; GetWheelRotation := -120 |}).
    + cbn. set_solver.
    + cbn. lia.
  - apply (wheel_serialisation wx_sample
             {| GetEventType := 10045; GetWheelRotation := 120 |}).
    + cbn. set_solver.
    + cbn. lia.
Defined.

(** C3. [serialise_key_event] returns [None] exactly when: the event is a
    keyboard event whose key is the Control key; or a keyboard event with
    Control held whose key is Shift or Alt; or a mouse event that is neither a
    wheel event with a rotation other than zero nor a left, middle or right
    button press or release.  In every other case it returns a pair. *)
Theorem serialise_none_iff (wx : WxConstants) (evt : Event) :
  wheel_not_button wx ->
  let none_case :=
    match evt with
    | EvKey e =>
        event_key e = WXK_CONTROL wx
        \/ (ControlDown e = true
            /\ (event_key e = WXK_SHIFT wx \/ event_key e = WXK_ALT wx))
    | EvMouse m =>
        ~ (GetEventType m ∈ EVT_MOUSEWHEEL wx /\ GetWheelRotation m <> 0)
        /\ ~ (GetEventType m ∈
                [EVT_LEFT_DOWN wx; EVT_LEFT_UP wx; EVT_MIDDLE_DOWN wx;
                 EVT_MIDDLE_UP wx; EVT_RIGHT_DOWN wx; EVT_RIGHT_UP wx])
    end in
  (serialise_key_event wx evt = None <-> none_case)
  /\ (~ none_case -> exists mods key,
        serialise_key_event wx evt = Some (mods, key)).
Proof.
  intros Hdisj none_case.
  assert (Hiff : serialise_key_event wx evt = None <-> none_case).
  { subst none_case. destruct evt as [e | m]; cbn.
    - destruct (Z.eqb_spec (event_key e) (WXK_CONTROL wx)) as [Hc | Hc].
      { split; [intros _; left; exact Hc | reflexivity]. }
      destruct (ControlDown e); cbn.
      + destruct (Z.eqb_spec (event_key e) (WXK_SHIFT wx)) as [Hs | Hs]; cbn.
        { split; [intros _; right; split; [reflexivity | left; exact Hs]
                 | reflexivity]. }
        destruct (Z.eqb_spec (event_key e) (WXK_ALT wx)) as [Ha | Ha]; cbn.
        { split; [intros _; right; split; [reflexivity | right; exact Ha]
                 | reflexivity]. }
        split; [discriminate |].
        intros [? | [_ [? | ?]]]; contradiction.
      + split; [discriminate |].
        intros [? | [? _]]; [contradiction | discriminate].
    - assert (Hbtn : GetEventType m ∈
                [EVT_LEFT_DOWN wx; EVT_LEFT_UP wx; EVT_MIDDLE_DOWN wx;
                 EVT_MIDDLE_UP wx; EVT_RIGHT_DOWN wx; EVT_RIGHT_UP wx]
              <-> is_Some (_mouse_events wx !! GetEventType m)).
      { unfold _mouse_events. rewrite !lookup_insert_is_Some, lookup_empty.
        rewrite !elem_of_cons, elem_of_nil.
        split.
        - intros H. clear -H.
          destruct (decide (EVT_RIGHT_UP wx = GetEventType m)); [tauto |].
          destruct (decide (EVT_RIGHT_DOWN wx = GetEventType m)); [tauto |].
          destruct (decide (EVT_MIDDLE_UP wx = GetEventType m)); [tauto |].
          destruct (decide (EVT_MIDDLE_DOWN wx = GetEventType m)); [tauto |].
          destruct (decide (EVT_LEFT_UP wx = GetEventType m)); [tauto |].
          destruct (decide (EVT_LEFT_DOWN wx = GetEventType m)); [tauto |].
          exfalso. intuition congruence.
        - intros H. pose proof (@is_Some_None string) as HN.
          intuition (try congruence; auto). }
      destruct (is_wheel wx m) eqn:Hw.
      + apply is_wheel_true in Hw. pose proof (Hdisj _ Hw) as Hnone.
        assert (Hnb : ~ is_Some (_mouse_events wx !! GetEventType m)).
        { rewrite Hnone. apply is_Some_None. }
        destruct (Z.ltb_spec (GetWheelRotation m) 0).
        { split; [discriminate |]. intros [Hn _]. exfalso. apply Hn.
          split; [exact Hw | lia]. }
        destruct (Z.ltb_spec 0 (GetWheelRotation m)).
        { split; [discriminate |]. intros [Hn _]. exfalso. apply Hn.
          split; [exact Hw | lia]. }
        split; [| reflexivity]. intros _. split.
        * intros [_ Hr]. lia.
        * rewrite Hbtn. exact Hnb.
      + assert (Hnw : ~ GetEventType m ∈ EVT_MOUSEWHEEL wx).
        { intros Hin. apply is_wheel_true in Hin. congruence. }
        destruct (_mouse_events wx !! GetEventType m) as [name |] eqn:Hl.
        * split; [discriminate |]. intros [_ Hn]. exfalso. apply Hn.
          apply Hbtn. eauto.
        * split; [| reflexivity]. intros _. split; [tauto |].
          rewrite Hbtn. apply is_Some_None. }
  split; [exact Hiff |].
  intros Hn. destruct (serialise_key_event wx evt) as [[mods key] |] eqn:Hs.
  - eauto.
  - exfalso. apply Hn, Hiff. reflexivity.
Qed.

Lemma wheel_not_button_sample : wheel_not_button wx_sample.
Proof.
  intros t Ht. apply list_elem_of_singleton in Ht. subst t. reflexivity.
Defined.

Lemma serialise_none_iff_witness :
  wheel_not_button wx_sample
  /\ serialise_key_event wx_sample (EvKey ctrl_key_event) = None.
Proof.
  split; [exact wheel_not_button_sample |].
  apply (proj1 (serialise_none_iff wx_sample (EvKey ctrl_key_event)
                  wheel_not_button_sample)).
  left. reflexivity.
Defined.

Lemma upper_not_lower (c : ascii) : is_lower (upper c) = false.
Proof.
  destruct c as [[] [] [] [] [] [] [] []]; vm_compute; reflexivity.
Qed.

Lemma upper_keeps (c : ascii) : is_lower c = false -> upper c = c.
Proof. unfold upper, is_lower. intros ->. reflexivity. Qed.

Lemma modifiers_shape (e : KeyEvent) :
  (ControlDown e = false -> modifiers e = [])
  /\ (modifiers e <> [] -> exists rest,
        modifiers e = "CTRL"%string :: rest
        /\ forall m, m ∈ rest ->
             (m = "SHIFT"%string /\ ShiftDown e = true)
             \/ (m = "ALT"%string /\ AltDown e = true)).
Proof.
  unfold modifiers. split.
  - intros ->. reflexivity.
  - destruct (ControlDown e); [| congruence]. intros _.
    eexists. split; [reflexivity |].
    intros m Hm. apply elem_of_app in Hm.
    destruct Hm as [Hm | Hm].
    + destruct (ShiftDown e); [| inversion Hm].
      apply list_elem_of_singleton in Hm. left. split; [exact Hm | reflexivity].
    + destruct (AltDown e); [| inversion Hm].
      apply list_elem_of_singleton in Hm. right. split; [exact Hm | reflexivity].
Qed.

(** The code point of [chr(k).upper()] for a printable [k]: the small letters
    97..122 move down by 32, every other code stays. *)
Lemma upper_chr_code (k : Z) :
  33 <= k <= 126 ->
  Z.of_N (N_of_ascii (upper (chr k)))
  = (if (97 <=? k) && (k <=? 122) then k - 32 else k).
Proof.
  intros Hk. unfold upper, chr. rewrite N_ascii_embedding by lia.
  destruct (Z.leb_spec 97 k), (Z.leb_spec k 122); cbn [andb].
  - replace ((97 <=? Z.to_N k)%N && (Z.to_N k <=? 122)%N) with true
      by (symmetry; apply andb_true_iff; split; apply N.leb_le; lia).
    rewrite N_ascii_embedding by lia. lia.
  - replace ((97 <=? Z.to_N k)%N && (Z.to_N k <=? 122)%N) with false
      by (symmetry; apply andb_false_iff; right; apply N.leb_gt; lia).
    rewrite N_ascii_embedding by lia. lia.
  - replace ((97 <=? Z.to_N k)%N && (Z.to_N k <=? 122)%N) with false
      by (symmetry; apply andb_false_iff; left; apply N.leb_gt; lia).
    rewrite N_ascii_embedding by lia. lia.
  - lia.
Qed.

(** C4. For a keyboard event serialised to [(mods, key)]: [mods] is empty
    whenever Control is not held; when it is not empty its first element is
    [CTRL], and what follows is [SHIFT] or [ALT] only, each only when that
    modifier is held; and when the key code [k] of the event (its Unicode key,
    or its key code when that is 0) lies in the printable range 33..126,
    [key] is a string of one character, whose code point is [k - 32] for a
    small letter (97..122) and [k] otherwise, and is never that of a small
    letter. *)
Theorem key_serialisation_shape (wx : WxConstants) (e : KeyEvent)
    (mods : ModifierType) (key : KeyType) :
  serialise_key_event wx (EvKey e) = Some (mods, key) ->
  (ControlDown e = false -> mods = [])
  /\ (mods <> [] -> exists rest,
        mods = "CTRL"%string :: rest
        /\ forall m, m ∈ rest ->
             (m = "SHIFT"%string /\ ShiftDown e = true)
             \/ (m = "ALT"%string /\ AltDown e = true))
  /\ (let k := if GetUnicodeKey e =? 0 then GetKeyCode e else GetUnicodeKey e in
      33 <= k <= 126 ->
      exists c : ascii,
        key = KStr (String c EmptyString)
        /\ Z.of_N (N_of_ascii c) = (if (97 <=? k) && (k <=? 122) then k - 32 else k)
        /\ ~ 97 <= Z.of_N (N_of_ascii c) <= 122).
Proof.
  cbn [serialise_key_event]. intros H.
  destruct (event_key e =? WXK_CONTROL wx); [discriminate |].
  destruct (ControlDown e && _) eqn:Hc; [discriminate |].
  injection H as <- <-.
  destruct (modifiers_shape e) as [H1 H2].
  split; [exact H1 | split; [exact H2 |]].
  cbv zeta. fold (event_key e). intros Hk. unfold serialise_key.
  destruct (Z.leb_spec 33 (event_key e)); [| lia].
  destruct (Z.leb_spec (event_key e) 126); [| lia].
  cbn [andb]. exists (upper (chr (event_key e))).
  split; [reflexivity |].
  rewrite (upper_chr_code _ Hk). split; [reflexivity |].
  destruct (Z.leb_spec 97 (event_key e)), (Z.leb_spec (event_key e) 122);
    cbn [andb]; lia.
Qed.

Lemma key_serialisation_shape_witness :
  serialise_key_event wx_sample (EvKey ctrl_shift_a_event)
  = Some (["CTRL"; "SHIFT"]%string, KStr "A")
  /\ exists c : ascii,
       KStr "A" = KStr (String c EmptyString)
       /\ Z.of_N (N_of_ascii c) = 65
       /\ ~ 97 <= Z.of_N (N_of_ascii c) <= 122.
Proof.
  split; [reflexivity |].
  apply (key_serialisation_shape wx_sample ctrl_shift_a_event
           ["CTRL"; "SHIFT"]%string (KStr "A")); [reflexivity | cbn; lia].
Defined.

(** C7. The four presets bind the same eleven action names (each preset
    lists exactly these keys, none twice); [DefaultKeys] is the preset
    [right]; and in every preset [box click] is bound to the left mouse button
    and [toggle selection mode] to the right mouse button, each with the empty
    modifier tuple. *)
Theorem presets_shape :
  dict_keys _presets = preset_names
  /\ length action_names = 11%nat
  /\ NoDup action_names
  /\ Forall (fun name => exists p,
               dict_get _presets name = Some p
               /\ dict_keys p = action_names
               /\ dict_get p "box click" = Some ([], KStr "ML")
               /\ dict_get p "toggle selection mode" = Some ([], KStr "MR"))
            preset_names
  /\ DefaultKeys = dict_get _presets "right"
  /\ DefaultKeys = Some preset_right.
Proof.
  split; [reflexivity |].
  split; [reflexivity |].
  split.
  { unfold action_names.
    repeat (apply NoDup_cons; split;
            [rewrite ?elem_of_cons, elem_of_nil;
             intros H; repeat destruct H as [H | H]; try discriminate H; exact H
            |]).
    apply NoDup_nil_2. }
  split.
  - repeat apply Forall_cons_2; try apply Forall_nil_2;
      (eexists; split; [reflexivity |]);
      repeat split; reflexivity.
  - split; reflexivity.
Qed.

(** *** The presets and the serialisation *)

Ltac distinct H :=
  repeat (apply NoDup_cons in H as [? H]);
  repeat match goal with
         | Hn : _ ∉ _ :: _ |- _ => apply not_elem_of_cons in Hn as [? Hn]
         end.

Lemma chr_N_of_ascii (c : ascii) : chr (Z.of_N (N_of_ascii c)) = c.
Proof. unfold chr. rewrite N2Z.id. apply ascii_N_embedding. Qed.

Lemma reach_char (wx : WxConstants) (c : ascii) :
  wx_well_formed wx ->
  33 <= Z.of_N (N_of_ascii c) <= 126 -> is_lower c = false ->
  exists evt, serialise_key_event wx evt = Some (bind (String c EmptyString)).
Proof.
  intros (_ & Hout & _) Hr Hl.
  exists (EvKey (plain_key_event (Z.of_N (N_of_ascii c)) 0)).
  apply Forall_cons in Hout as [Hc _].
  cbn. unfold event_key. cbn.
  destruct (Z.eqb_spec (Z.of_N (N_of_ascii c)) 0) as [H0 | _]; [lia |].
  destruct (Z.eqb_spec (Z.of_N (N_of_ascii c)) (WXK_CONTROL wx)) as [He | _];
    [rewrite <- He in Hc; contradiction |].
  unfold serialise_key, bind, chr_upper.
  destruct (Z.leb_spec 33 (Z.of_N (N_of_ascii c))); [| lia].
  destruct (Z.leb_spec (Z.of_N (N_of_ascii c)) 126); [| lia].
  cbn. rewrite chr_N_of_ascii, (upper_keeps c Hl). reflexivity.
Qed.

Lemma event_key_same (code : Z) : event_key (plain_key_event code code) = code.
Proof. unfold event_key. cbn. destruct (code =? 0); reflexivity. Qed.

(** A key of [key_string_map], pressed alone. *)
Lemma reach_named (wx : WxConstants) (code : Z) (name : string) :
  code <> WXK_CONTROL wx -> ~ 33 <= code <= 126 ->
  key_string_map wx !! code = Some name ->
  exists evt, serialise_key_event wx evt = Some (bind name).
Proof.
  intros Hc Hout Hl. exists (EvKey (plain_key_event code code)).
  cbn [serialise_key_event]. rewrite event_key_same.
  destruct (Z.eqb_spec code (WXK_CONTROL wx)); [contradiction |].
  cbn. unfold serialise_key. rewrite Hl.
  destruct (Z.leb_spec 33 code); [| reflexivity].
  destruct (Z.leb_spec code 126); [lia | reflexivity].
Qed.

Lemma reach_space (wx : WxConstants) :
  wx_well_formed wx ->
  exists evt, serialise_key_event wx evt = Some (bind Space).
Proof.
  intros (Hnd & Hout & _). distinct Hnd.
  apply Forall_cons in Hout as [_ Hout]. apply Forall_cons in Hout as [_ Hout].
  apply Forall_cons in Hout as [_ Hout]. apply Forall_cons in Hout as [Hsp _].
  apply (reach_named wx (WXK_SPACE wx)); [congruence | exact Hsp |].
  unfold key_string_map.
  rewrite lookup_insert_ne by congruence. rewrite lookup_insert_ne by congruence.
  apply lookup_insert_eq.
Qed.

Lemma reach_shift (wx : WxConstants) :
  wx_well_formed wx ->
  exists evt, serialise_key_event wx evt = Some (bind Shift).
Proof.
  intros (Hnd & Hout & _). distinct Hnd.
  apply Forall_cons in Hout as [_ Hout]. apply Forall_cons in Hout as [Hsh _].
  apply (reach_named wx (WXK_SHIFT wx)); [congruence | exact Hsh |].
  unfold key_string_map.
  rewrite lookup_insert_ne by congruence. rewrite lookup_insert_ne by congruence.
  rewrite lookup_insert_ne by congruence. rewrite lookup_insert_ne by congruence.
  apply lookup_insert_eq.
Qed.

(** A button event type, by its entry of [_mouse_events]. *)
Lemma reach_button (wx : WxConstants) (t : Z) (name : string) :
  wx_well_formed wx -> _mouse_events wx !! t = Some name ->
  exists evt, serialise_key_event wx evt = Some (bind name).
Proof.
  intros (_ & _ & _ & _ & Hwb) Hl.
  exists (EvMouse {| GetEventType := t; GetWheelRotation := 0 |}).
  cbn. destruct (is_wheel wx _) eqn:Hw.
  - apply is_wheel_true in Hw. cbn in Hw. rewrite (Hwb t Hw) in Hl. discriminate.
  - rewrite Hl. reflexivity.
Qed.

Lemma reach_left (wx : WxConstants) :
  wx_well_formed wx ->
  exists evt, serialise_key_event wx evt = Some (bind MouseLeft).
Proof.
  intros Hwf. apply (reach_button wx (EVT_LEFT_UP wx) MouseLeft Hwf).
  destruct Hwf as (_ & _ & Hnd & _). distinct Hnd. unfold _mouse_events.
  do 4 (rewrite lookup_insert_ne by congruence). apply lookup_insert_eq.
Qed.

Lemma reach_middle (wx : WxConstants) :
  wx_well_formed wx ->
  exists evt, serialise_key_event wx evt = Some (bind MouseMiddle).
Proof.
  intros Hwf. apply (reach_button wx (EVT_MIDDLE_UP wx) MouseMiddle Hwf).
  destruct Hwf as (_ & _ & Hnd & _). distinct Hnd. unfold _mouse_events.
  do 2 (rewrite lookup_insert_ne by congruence). apply lookup_insert_eq.
Qed.

Lemma reach_right (wx : WxConstants) :
  wx_well_formed wx ->
  exists evt, serialise_key_event wx evt = Some (bind MouseRight).
Proof.
  intros Hwf. apply (reach_button wx (EVT_RIGHT_UP wx) MouseRight Hwf).
  unfold _mouse_events. apply lookup_insert_eq.
Qed.

Lemma reach_wheel (wx : WxConstants) :
  wx_well_formed wx ->
  (exists evt, serialise_key_event wx evt = Some (bind MouseWheelScrollUp))
  /\ (exists evt, serialise_key_event wx evt = Some (bind MouseWheelScrollDown)).
Proof.
  intros (_ & _ & _ & Hne & _).
  destruct (EVT_MOUSEWHEEL wx) as [| t rest] eqn:Hw; [contradiction |].
  assert (Hin : forall r, is_wheel wx {| GetEventType := t; GetWheelRotation := r |}
                          = true).
  { intros r. apply is_wheel_true. cbn. rewrite Hw. left. }
  split.
  - exists (EvMouse {| GetEventType := t; GetWheelRotation := 1 |}).
    cbn [serialise_key_event]. rewrite Hin. reflexivity.
  - exists (EvMouse {| GetEventType := t; GetWheelRotation := -1 |}).
    cbn [serialise_key_event]. rewrite Hin. reflexivity.
Qed.

Lemma dict_get_Forall {V : Type} (Q : V -> Prop) (d : list (string * V))
    (k : string) (v : V) :
  Forall (fun kv => Q (snd kv)) d -> dict_get d k = Some v -> Q v.
Proof.
  induction 1 as [| [k' v'] rest Hv _ IH]; cbn [dict_get]; [discriminate |].
  destruct (String.eqb k' k); [| exact IH].
  intros H. injection H as <-. exact Hv.
Qed.

(** X15. Every binding of every preset can be pressed: with the key codes and
    event types of the toolkit distinct, and the key codes outside the
    printable range, each serialised key a preset binds to an action is what
    [serialise_key_event] returns for some event. *)
Theorem presets_can_be_pressed (wx : WxConstants) (preset action : string)
    (keys : KeybindDict) (b : SerialisedKeyType) :
  wx_well_formed wx ->
  dict_get _presets preset = Some keys -> dict_get keys action = Some b ->
  exists evt, serialise_key_event wx evt = Some b.
Proof.
  intros Hwf Hp Ha.
  pose proof (reach_space wx Hwf) as Hspace.
  pose proof (reach_shift wx Hwf) as Hshift.
  pose proof (reach_left wx Hwf) as Hleft.
  pose proof (reach_middle wx Hwf) as Hmiddle.
  pose proof (reach_right wx Hwf) as Hright.
  destruct (reach_wheel wx Hwf) as [Hup Hdown].
  assert (Hall : Forall (fun pd => Forall (fun ab => exists evt,
                           serialise_key_event wx evt = Some (snd ab)) (snd pd))
                   _presets).
  { unfold _presets, preset_right, preset_right_laptop, preset_left,
      preset_left_laptop.
    repeat (apply Forall_cons_2 || apply Forall_nil_2); cbn [snd];
      first [ exact Hspace | exact Hshift | exact Hleft | exact Hmiddle
            | exact Hright | exact Hup | exact Hdown
            | apply (reach_char wx _ Hwf); [cbn; lia | reflexivity] ]. }
  pose proof (dict_get_Forall
                (fun d : KeybindDict =>
                   Forall (fun ab => exists evt,
                             serialise_key_event wx evt = Some (snd ab)) d)
                _presets preset keys Hall Hp) as Hkeys.
  exact (dict_get_Forall
           (fun b' => exists evt, serialise_key_event wx evt = Some b')
           keys action b Hkeys Ha).
Qed.

Lemma wx_sample_well_formed : wx_well_formed wx_sample.
Proof.
  split; [apply (bool_decide_unpack _); vm_compute; reflexivity |].
  split; [cbn; repeat (apply Forall_cons_2 || apply Forall_nil_2); lia |].
  split; [apply (bool_decide_unpack _); vm_compute; reflexivity |].
  split; [discriminate | exact wheel_not_button_sample].
Defined.

Lemma presets_can_be_pressed_witness :
  exists evt, serialise_key_event wx_sample evt = Some (bind ";").
Proof.
  apply (presets_can_be_pressed wx_sample "left" "down" preset_left (bind ";")
           wx_sample_well_formed); reflexivity.
Defined.

(** *** Letters *)

Lemma chr_upper_letter (key : Z) :
  97 <= key <= 122 -> chr_upper key = chr_upper (key - 32).
Proof.
  intros Hk. unfold chr_upper, upper, chr. f_equal.
  rewrite !N_ascii_embedding by lia.
  replace ((97 <=? Z.to_N key)%N && (Z.to_N key <=? 122)%N) with true
    by (symmetry; apply andb_true_iff; split; apply N.leb_le; lia).
  replace ((97 <=? Z.to_N (key - 32))%N && (Z.to_N (key - 32) <=? 122)%N) with false
    by (symmetry; apply andb_false_iff; left; apply N.leb_gt; lia).
  f_equal. lia.
Qed.

(** X16. The case of a letter does not matter: two keyboard events with the
    same modifiers held, one with the key code of a lower-case letter and one
    with that of its capital, are serialised to the same pair, whose key is a
    string. *)
Theorem letter_case_ignored (wx : WxConstants) (e1 e2 : KeyEvent) :
  wx_well_formed wx ->
  97 <= event_key e1 <= 122 -> event_key e2 = event_key e1 - 32 ->
  ControlDown e2 = ControlDown e1 -> ShiftDown e2 = ShiftDown e1 ->
  AltDown e2 = AltDown e1 ->
  serialise_key_event wx (EvKey e1) = serialise_key_event wx (EvKey e2)
  /\ exists mods key, serialise_key_event wx (EvKey e1) = Some (mods, KStr key).
Proof.
  intros (_ & Hout & _) Hk He Hc Hs Ha.
  apply Forall_cons in Hout as [Hoc Hout]. apply Forall_cons in Hout as [Hos Hout].
  apply Forall_cons in Hout as [Hoa _].
  assert (Hne : forall k, 33 <= k <= 126 ->
            (k =? WXK_CONTROL wx) = false /\ (k =? WXK_SHIFT wx) = false
            /\ (k =? WXK_ALT wx) = false).
  { intros k Hr. repeat split; apply Z.eqb_neq; intros ->; contradiction. }
  destruct (Hne (event_key e1)) as (H1 & H2 & H3); [lia |].
  destruct (Hne (event_key e2)) as (H1' & H2' & H3'); [lia |].
  cbn [serialise_key_event]. rewrite H1, H2, H3, H1', H2', H3'.
  rewrite !andb_false_r.
  assert (Hm : modifiers e2 = modifiers e1).
  { unfold modifiers. rewrite Hc, Hs, Ha. reflexivity. }
  assert (Hk1 : serialise_key wx (event_key e1) = KStr (chr_upper (event_key e1))).
  { unfold serialise_key.
    destruct (Z.leb_spec 33 (event_key e1)); [| lia].
    destruct (Z.leb_spec (event_key e1) 126); [reflexivity | lia]. }
  assert (Hk2 : serialise_key wx (event_key e2) = KStr (chr_upper (event_key e2))).
  { unfold serialise_key.
    destruct (Z.leb_spec 33 (event_key e2)); [| lia].
    destruct (Z.leb_spec (event_key e2) 126); [reflexivity | lia]. }
  rewrite Hm, Hk1, Hk2, He, <- (chr_upper_letter _ Hk).
  split; [reflexivity | eauto].
Qed.

Lemma letter_case_ignored_witness :
  serialise_key_event wx_sample (EvKey (plain_key_event 97 65))
  = serialise_key_event wx_sample (EvKey (plain_key_event 65 65)).
Proof.
  apply (letter_case_ignored wx_sample (plain_key_event 97 65) (plain_key_event 65 65)
           wx_sample_well_formed); [cbn; lia | reflexivity..].
Defined.

(** *** Mouse events *)

(** X17. A mouse event is never serialised with a modifier: what
    [serialise_key_event] returns for it has the empty modifier tuple and one
    of the five mouse names as key. *)
Theorem mouse_serialisation_shape (wx : WxConstants) (m : MouseEvent)
    (b : SerialisedKeyType) :
  serialise_key_event wx (EvMouse m) = Some b ->
  exists name,
    b = ([], KStr name)
    /\ name ∈ [MouseLeft; MouseMiddle; MouseRight; MouseWheelScrollUp;
               MouseWheelScrollDown].
Proof.
  cbn. destruct (is_wheel wx m).
  - destruct (GetWheelRotation m <? 0).
    { intros H. injection H as <-. eexists. split; [reflexivity | set_solver]. }
    destruct (0 <? GetWheelRotation m); [| discriminate].
    intros H. injection H as <-. eexists. split; [reflexivity | set_solver].
  - destruct (_mouse_events wx !! GetEventType m) as [name |] eqn:Hl; [| discriminate].
    intros H. injection H as <-. exists name. split; [reflexivity |].
    unfold _mouse_events in Hl.
    repeat (apply lookup_insert_Some in Hl as [[_ <-] | [_ Hl]]; [set_solver |]).
    rewrite lookup_empty in Hl. discriminate.
Qed.

Lemma mouse_serialisation_shape_witness :
  exists name,
    ([] : ModifierType, KStr "MM") = ([], KStr name)
    /\ name ∈ [MouseLeft; MouseMiddle; MouseRight; MouseWheelScrollUp;
               MouseWheelScrollDown].
Proof.
  apply (mouse_serialisation_shape wx_sample
           {| GetEventType := 10033; GetWheelRotation := 0 |}).
  reflexivity.
Defined.

(** *** The bindings of a preset *)

Lemma dict_get_values {V : Type} (d : list (string * V)) (k : string) (v : V) :
  dict_get d k = Some v -> v ∈ map snd d.
Proof.
  induction d as [| [k' v'] rest IH]; cbn [dict_get]; [discriminate |].
  destruct (String.eqb k' k).
  - intros H. injection H as <-. left.
  - intros H. right. apply IH, H.
Qed.

Lemma dict_get_injective {V : Type} (d : list (string * V)) (k1 k2 : string) (v : V) :
  NoDup (map snd d) -> dict_get d k1 = Some v -> dict_get d k2 = Some v -> k1 = k2.
Proof.
  induction d as [| [k' v'] rest IH]; cbn [dict_get]; [discriminate |].
  intros Hnd. cbn in Hnd. apply NoDup_cons in Hnd as [Hnin Hnd].
  destruct (String.eqb k' k1) eqn:E1, (String.eqb k' k2) eqn:E2.
  - apply String.eqb_eq in E1, E2. intros _ _. congruence.
  - intros Hv H. injection Hv as ->. apply dict_get_values in H. contradiction.
  - intros H Hv. injection Hv as ->. apply dict_get_values in H. contradiction.
  - apply IH, Hnd.
Qed.

Lemma presets_values_distinct :
  Forall (fun pd => NoDup (map snd (snd pd))) _presets.
Proof.
  unfold _presets, preset_right, preset_right_laptop, preset_left, preset_left_laptop.
  repeat (apply Forall_cons_2 || apply Forall_nil_2); cbn [snd map];
    repeat (apply NoDup_cons; split;
            [rewrite ?elem_of_cons, elem_of_nil;
             intros H; repeat destruct H as [H | H]; try discriminate H; exact H
            |]);
    apply NoDup_nil_2.
Qed.

(** X22. No two actions of a preset share a binding: in each of the four
    presets, two action names bound to the same serialised key are the same
    action. *)
Theorem presets_bindings_distinct (preset action1 action2 : string)
    (keys : KeybindDict) (b : SerialisedKeyType) :
  dict_get _presets preset = Some keys ->
  dict_get keys action1 = Some b -> dict_get keys action2 = Some b ->
  action1 = action2.
Proof.
  intros Hp H1 H2.
  pose proof (dict_get_Forall (fun d : KeybindDict => NoDup (map snd d))
                _presets preset keys presets_values_distinct Hp) as Hnd.
  exact (dict_get_injective keys action1 action2 b Hnd H1 H2).
Qed.

Lemma presets_bindings_distinct_witness : "speed+"%string = "speed+"%string.
Proof.
  apply (presets_bindings_distinct "left_laptop" "speed+" "speed+" preset_left_laptop
           (bind ".")); reflexivity.
Defined.

End KeyConfigFacts.

(** ** goto.py *)

Section GoToFacts.
Import GoTo.
Local Open Scope nat_scope.

Section Matcher.
Variable n0 : nat.

Lemma star_sound (body : list N -> list (string * list N) -> list (list N * list (string * list N)))
    (r : regex) :
  (forall s c rest c', In (rest, c') (body s c) ->
     exists s1, s = s1 ++ rest /\ matches n0 r s1 rest c c') ->
  forall fuel s c rest c', In (rest, c') (star body fuel s c) ->
    exists s1, s = s1 ++ rest /\ matches n0 (Star r) s1 rest c c'.
Proof.
  intros Hbody. induction fuel as [| fuel IH]; intros s c rest c' Hin; cbn [star] in Hin.
  - destruct Hin as [Heq | []]. injection Heq as <- <-.
    exists []. split; [reflexivity | apply m_star_nil].
  - apply in_app_iff in Hin as [Hin | [Heq | []]].
    + apply in_flat_map in Hin as ([s' c1] & Hb & Hin). cbn [fst snd] in Hin.
      destruct (Nat.ltb_spec (length s') (length s)) as [Hlt |]; [| cbn in Hin; contradiction].
      destruct (Hbody _ _ _ _ Hb) as (s1 & -> & Hm1).
      destruct (IH _ _ _ _ Hin) as (s2 & -> & Hm2).
      exists (s1 ++ s2). split; [apply app_assoc |].
      apply m_star_cons with (c1 := c1); auto.
      intros ->. cbn in Hlt. lia.
    + injection Heq as <- <-. exists []. split; [reflexivity | apply m_star_nil].
Qed.

Lemma run_sound (r : regex) :
  forall s c rest c', In (rest, c') (run n0 r s c) ->
    exists s1, s = s1 ++ rest /\ matches n0 r s1 rest c c'.
Proof.
  induction r as [| p | r1 IH1 r2 IH2 | r1 IH1 r2 IH2 | r1 IH1 | name r1 IH1 | |];
    intros s c rest c' Hin; cbn [run] in Hin.
  - destruct Hin as [Heq | []]. injection Heq as <- <-.
    exists []. split; [reflexivity | apply m_eps].
  - destruct s as [| a s]; [cbn in Hin; contradiction |].
    destruct (p a) eqn:Hp; [| cbn in Hin; contradiction].
    destruct Hin as [Heq | []]. injection Heq as <- <-.
    exists [a]. split; [reflexivity | apply m_class; exact Hp].
  - apply in_flat_map in Hin as ([s' c1] & H1 & H2). cbn in H2.
    destruct (IH1 _ _ _ _ H1) as (s1 & -> & Hm1).
    destruct (IH2 _ _ _ _ H2) as (s2 & -> & Hm2).
    exists (s1 ++ s2). split; [apply app_assoc |].
    apply m_seq with (c1 := c1); auto.
  - apply in_app_iff in Hin as [Hin | Hin].
    + destruct (IH1 _ _ _ _ Hin) as (s1 & -> & Hm). exists s1.
      split; [reflexivity | apply m_alt_l; exact Hm].
    + destruct (IH2 _ _ _ _ Hin) as (s1 & -> & Hm). exists s1.
      split; [reflexivity | apply m_alt_r; exact Hm].
  - eapply star_sound; [| exact Hin]. exact IH1.
  - apply in_map_iff in Hin as ([s' c1] & Heq & Hin). cbn in Heq.
    injection Heq as <- <-.
    destruct (IH1 _ _ _ _ Hin) as (s1 & -> & Hm). exists s1.
    split; [reflexivity |].
    rewrite length_app, Nat.add_sub, take_app_length.
    apply m_group. exact Hm.
  - destruct (Nat.eqb_spec (length s) n0) as [Hl |]; [| cbn in Hin; contradiction].
    destruct Hin as [Heq | []]. injection Heq as <- <-.
    exists []. split; [reflexivity | apply m_bol; exact Hl].
  - destruct s as [| a [| b s]].
    + destruct Hin as [Heq | []]. injection Heq as <- <-.
      exists []. split; [reflexivity |]. apply m_eol. left. reflexivity.
    + destruct (N.eqb_spec a 10) as [-> |]; [| cbn in Hin; contradiction].
      destruct Hin as [Heq | []]. injection Heq as <- <-.
      exists []. split; [reflexivity |]. apply m_eol. right. reflexivity.
    + cbn in Hin. contradiction.
Qed.

Lemma run_complete (r : regex) (s1 rest : list N) (c c' : list (string * list N)) :
  matches n0 r s1 rest c c' ->
  In (rest, c') (run n0 r (s1 ++ rest) c)
  /\ (forall r1 fuel, r = Star r1 -> length (s1 ++ rest) <= fuel ->
        In (rest, c') (star (run n0 r1) fuel (s1 ++ rest) c)).
Proof.
  induction 1 as [rest c | p a rest c Hp
                 | r1 r2 s1 s2 rest c c1 c2 _ [IH1 _] _ [IH2 _]
                 | r1 r2 s1 rest c c1 _ [IH _] | r1 r2 s1 rest c c1 _ [IH _]
                 | r rest c
                 | r s1 s2 rest c c1 c2 Hne _ [IH1 _] _ [_ IH2]
                 | name r s1 rest c c1 _ [IH _]
                 | rest c Hl | rest c Hr].
  - split; [left; reflexivity | discriminate].
  - split; [| discriminate]. cbn. rewrite Hp. left. reflexivity.
  - split; [| discriminate]. cbn. apply in_flat_map. exists (s2 ++ rest, c1).
    split; [rewrite <- app_assoc; exact IH1 | exact IH2].
  - split; [| discriminate]. cbn. apply in_app_iff. left. exact IH.
  - split; [| discriminate]. cbn. apply in_app_iff. right. exact IH.
  - assert (Hall : forall fuel, In (rest, c) (star (run n0 r) fuel ([] ++ rest) c)).
    { intros [| fuel]; cbn; [left; reflexivity |].
      apply in_app_iff. right. left. reflexivity. }
    split; [apply Hall |]. intros r1 fuel Heq _. injection Heq as <-. apply Hall.
  - assert (Hall : forall fuel, length ((s1 ++ s2) ++ rest) <= fuel ->
                     In (rest, c2) (star (run n0 r) fuel ((s1 ++ s2) ++ rest) c)).
    { intros fuel Hle. destruct fuel as [| fuel].
      - destruct s1; [congruence | cbn in Hle; lia].
      - cbn [star]. apply in_app_iff. left. apply in_flat_map.
        exists (s2 ++ rest, c1). split; [rewrite <- app_assoc; exact IH1 |].
        cbn [fst snd].
        assert (Hlt : length (s2 ++ rest) < length ((s1 ++ s2) ++ rest)).
        { rewrite <- app_assoc, (length_app s1). destruct s1; [congruence | cbn; lia]. }
        destruct (Nat.ltb_spec (length (s2 ++ rest)) (length ((s1 ++ s2) ++ rest)));
          [| lia].
        apply (IH2 r fuel eq_refl). lia. }
    split; [apply Hall; reflexivity |].
    intros r1 fuel Heq Hle. injection Heq as <-. apply Hall. exact Hle.
  - split; [| discriminate]. cbn. apply in_map_iff. exists (rest, c1).
    split; [| exact IH]. cbn. f_equal. f_equal. f_equal.
    rewrite length_app, Nat.add_sub. apply take_app_length.
  - split; [| discriminate]. cbn. rewrite Hl, Nat.eqb_refl. left. reflexivity.
  - split; [| discriminate]. cbn. destruct Hr as [-> | ->]; cbn; left; reflexivity.
Qed.

End Matcher.

Lemma fullmatch_Some (r : regex) (s : list N) (m : list (string * list N)) :
  fullmatch r s = Some m -> matches (length s) r s [] [] m.
Proof.
  unfold fullmatch. intros H.
  destruct (filter _ _) as [| [rest c'] l] eqn:Hf; [discriminate |].
  injection H as <-.
  assert (Hin : (rest, c') ∈ filter (fun sc => sc.1 = []) (run (length s) r s [])).
  { rewrite Hf. apply elem_of_cons. left. reflexivity. }
  apply list_elem_of_filter in Hin as [Hnil Hin]. cbn in Hnil. subst rest.
  apply list_elem_of_In in Hin.
  destruct (run_sound _ _ _ _ _ _ Hin) as (s1 & -> & Hm).
  rewrite app_nil_r. cbn. rewrite app_nil_r in Hm. exact Hm.
Qed.

Lemma fullmatch_None (r : regex) (s : list N) (m : list (string * list N)) :
  matches (length s) r s [] [] m -> fullmatch r s <> None.
Proof.
  intros Hm. apply run_complete in Hm as [Hin _]. rewrite app_nil_r in Hin.
  unfold fullmatch.
  destruct (filter _ _) as [| sc l] eqn:Hf; [| discriminate].
  exfalso. apply list_elem_of_In in Hin.
  eapply (filter_nil_not_elem_of _ _ ([], m) Hf); [reflexivity | exact Hin].
Qed.

Section CoordFacts.
Variable is_space : N -> bool.
Variable n0 : nat.

Lemma matches_seq_inv r1 r2 s rest c c2 :
  matches n0 (Seq r1 r2) s rest c c2 ->
  exists s1 s2 c1, s = s1 ++ s2 /\ matches n0 r1 s1 (s2 ++ rest) c c1
                   /\ matches n0 r2 s2 rest c1 c2.
Proof. intros H. inversion H; subst. eauto 6. Qed.

Lemma matches_class_inv p s rest c c' :
  matches n0 (Class p) s rest c c' -> exists a, s = [a] /\ p a = true /\ c' = c.
Proof. intros H. inversion H; subst. eauto. Qed.

Lemma matches_chr_inv a s rest c c' :
  matches n0 (Chr a) s rest c c' -> s = [a] /\ c' = c.
Proof.
  intros H. apply matches_class_inv in H as (b & -> & Hb & ->).
  apply N.eqb_eq in Hb. subst b. auto.
Qed.

Lemma matches_chr a rest c : matches n0 (Chr a) [a] rest c c.
Proof. apply m_class. apply N.eqb_refl. Qed.

Lemma matches_alt_inv r1 r2 s rest c c' :
  matches n0 (Alt r1 r2) s rest c c' ->
  matches n0 r1 s rest c c' \/ matches n0 r2 s rest c c'.
Proof. intros H. inversion H; subst; auto. Qed.

Lemma matches_eps_inv s rest c c' :
  matches n0 Eps s rest c c' -> s = [] /\ c' = c.
Proof. intros H. inversion H; subst. auto. Qed.

Lemma matches_opt_chr_inv a s rest c c' :
  matches n0 (Opt (Chr a)) s rest c c' -> (s = [] \/ s = [a]) /\ c' = c.
Proof.
  intros H. apply matches_alt_inv in H as [H | H].
  - apply matches_chr_inv in H as [-> ->]. auto.
  - apply matches_eps_inv in H as [-> ->]. auto.
Qed.

Lemma matches_opt_chr a s rest c :
  s = [] \/ s = [a] -> matches n0 (Opt (Chr a)) s rest c c.
Proof.
  intros [-> | ->]; [apply m_alt_r, m_eps | apply m_alt_l, matches_chr].
Qed.

Lemma matches_star_class_inv p s rest c c' :
  matches n0 (Star (Class p)) s rest c c' -> all p s /\ c' = c.
Proof.
  intros H. remember (Star (Class p)) as r eqn:Hr.
  induction H; try discriminate; injection Hr as ->.
  - split; [apply List.Forall_nil | reflexivity].
  - apply matches_class_inv in H0 as (a & -> & Ha & ->).
    destruct (IHmatches2 eq_refl) as [Hall ->].
    split; [| reflexivity]. apply List.Forall_cons; assumption.
Qed.

Lemma matches_star_class p s rest c :
  all p s -> matches n0 (Star (Class p)) s rest c c.
Proof.
  induction 1 as [| a s Ha _ IH]; [apply m_star_nil |].
  apply (m_star_cons n0 (Class p) [a] s rest c c c); [discriminate | | exact IH].
  apply m_class. exact Ha.
Qed.

Lemma matches_plus_class_inv p s rest c c' :
  matches n0 (Plus (Class p)) s rest c c' -> s <> [] /\ all p s /\ c' = c.
Proof.
  intros H. apply matches_seq_inv in H as (s1 & s2 & c1 & -> & H1 & H2).
  apply matches_class_inv in H1 as (a & -> & Ha & ->).
  apply matches_star_class_inv in H2 as [Hall ->].
  split; [discriminate |]. split; [| reflexivity].
  apply List.Forall_cons; assumption.
Qed.

Lemma matches_plus_class p s rest c :
  s <> [] -> all p s -> matches n0 (Plus (Class p)) s rest c c.
Proof.
  intros Hne Hall. destruct Hall as [| a s Ha Hs]; [congruence |].
  apply (m_seq n0 (Class p) (Star (Class p)) [a] s rest c c c).
  - apply m_class. exact Ha.
  - apply matches_star_class. exact Hs.
Qed.

Lemma matches_coordinate_inv s rest c c' :
  matches n0 coordinate s rest c c' -> is_coordinate s /\ c' = c.
Proof.
  intros H. unfold coordinate in H.
  apply matches_seq_inv in H as (sign & s2 & c1 & -> & H1 & H).
  apply matches_opt_chr_inv in H1 as [Hsign ->].
  apply matches_seq_inv in H as (d1 & s3 & c2 & -> & H2 & H).
  apply matches_plus_class_inv in H2 as (Hne & Hd1 & ->).
  apply matches_seq_inv in H as (pt & d2 & c3 & -> & H3 & H4).
  apply matches_opt_chr_inv in H3 as [Hpt ->].
  apply matches_star_class_inv in H4 as [Hd2 ->].
  split; [| reflexivity].
  destruct Hpt as [-> | ->].
  - exists sign, (d1 ++ d2), []. rewrite app_nil_r. cbn.
    split; [reflexivity |]. split; [exact Hsign |].
    split; [intros Heq; apply app_eq_nil in Heq; tauto |].
    split; [apply Forall_app; auto | left; reflexivity].
  - exists sign, d1, (dot :: d2). split; [reflexivity |].
    split; [exact Hsign |]. split; [exact Hne |]. split; [exact Hd1 |].
    right. exists d2. auto.
Qed.

Lemma matches_coordinate s rest c :
  is_coordinate s -> matches n0 coordinate s rest c c.
Proof.
  intros (sign & digits & frac & -> & Hsign & Hne & Hd & Hfrac).
  unfold coordinate.
  apply m_seq with (c1 := c); [apply matches_opt_chr; exact Hsign |].
  apply m_seq with (c1 := c); [apply matches_plus_class; assumption |].
  destruct Hfrac as [-> | (ds & -> & Hds)].
  - apply (m_seq n0 _ _ [] [] rest c c c).
    + apply matches_opt_chr. left. reflexivity.
    + apply m_star_nil.
  - apply (m_seq n0 _ _ [dot] ds rest c c c).
    + apply matches_opt_chr. right. reflexivity.
    + apply matches_star_class. exact Hds.
Qed.

Lemma matches_separator_inv s rest c c' :
  matches n0 (separator is_space) s rest c c' -> is_separator is_space s /\ c' = c.
Proof.
  intros H. unfold separator in H. apply matches_alt_inv in H as [H | H].
  - apply matches_seq_inv in H as (s1 & s2 & c1 & -> & H1 & H2).
    apply matches_chr_inv in H1 as [-> ->].
    apply matches_star_class_inv in H2 as [Hws ->].
    split; [| reflexivity]. left. exists s2. auto.
  - apply matches_plus_class_inv in H as (Hne & Hws & ->).
    split; [| reflexivity]. right. auto.
Qed.

Lemma matches_separator s rest c :
  is_separator is_space s -> matches n0 (separator is_space) s rest c c.
Proof.
  intros [(ws & -> & Hws) | [Hne Hws]]; unfold separator.
  - apply m_alt_l. apply (m_seq n0 _ _ [comma] ws rest c c c).
    + apply matches_chr.
    + apply matches_star_class. exact Hws.
  - apply m_alt_r. apply matches_plus_class; assumption.
Qed.

Lemma matches_group_inv name r s rest c c' :
  matches n0 (Group name r) s rest c c' ->
  exists c1, matches n0 r s rest c c1 /\ c' = (name, s) :: c1.
Proof. intros H. inversion H; subst. eauto. Qed.

Lemma matches_bol_inv s rest c c' :
  matches n0 Bol s rest c c' -> s = [] /\ c' = c.
Proof. intros H. inversion H. auto. Qed.

Lemma matches_eol_inv s rest c c' :
  matches n0 Eol s rest c c' -> s = [] /\ c' = c.
Proof. intros H. inversion H. auto. Qed.

Lemma matches_CoordRegex_inv s m :
  matches n0 (CoordRegex is_space) s [] [] m ->
  exists gx sep1 gy sep2 gz,
    coord_text is_space s gx gy gz
    /\ m = [("z", gz); ("4", sep2); ("y", gy); ("2", sep1); ("x", gx)]%string.
Proof.
  intros H. unfold CoordRegex in H.
  apply matches_seq_inv in H as (s0 & ? & ? & -> & H0 & H).
  apply matches_bol_inv in H0 as [-> ->].
  apply matches_seq_inv in H as (lead & ? & ? & -> & H0 & H).
  apply matches_star_class_inv in H0 as [Hlead ->].
  apply matches_seq_inv in H as (gx & ? & ? & -> & H0 & H).
  apply matches_group_inv in H0 as (c1 & H0 & ->).
  apply matches_coordinate_inv in H0 as [Hgx ->].
  apply matches_seq_inv in H as (sep1 & ? & ? & -> & H0 & H).
  apply matches_group_inv in H0 as (c1 & H0 & ->).
  apply matches_separator_inv in H0 as [Hsep1 ->].
  apply matches_seq_inv in H as (gy & ? & ? & -> & H0 & H).
  apply matches_group_inv in H0 as (c1 & H0 & ->).
  apply matches_coordinate_inv in H0 as [Hgy ->].
  apply matches_seq_inv in H as (sep2 & ? & ? & -> & H0 & H).
  apply matches_group_inv in H0 as (c1 & H0 & ->).
  apply matches_separator_inv in H0 as [Hsep2 ->].
  apply matches_seq_inv in H as (gz & ? & ? & -> & H0 & H).
  apply matches_group_inv in H0 as (c1 & H0 & ->).
  apply matches_coordinate_inv in H0 as [Hgz ->].
  apply matches_seq_inv in H as (tc & ? & ? & -> & H0 & H).
  apply matches_opt_chr_inv in H0 as [Htc ->].
  apply matches_seq_inv in H as (trail & ? & ? & -> & H0 & H).
  apply matches_star_class_inv in H0 as [Htrail ->].
  apply matches_eol_inv in H as [-> ->].
  exists gx, sep1, gy, sep2, gz. split; [| reflexivity].
  exists lead, sep1, sep2, tc, trail. rewrite app_nil_r. cbn [app].
  repeat split; auto.
Qed.

End CoordFacts.

Lemma matches_CoordRegex (is_space : N -> bool) (s gx gy gz : list N) :
  coord_text is_space s gx gy gz ->
  exists m, matches (length s) (CoordRegex is_space) s [] [] m.
Proof.
  intros (lead & sep1 & sep2 & tc & trail & Hs & Hlead & Hgx & Hsep1 & Hgy
          & Hsep2 & Hgz & Htc & Htrail).
  eexists. unfold CoordRegex.
  replace s with ([] ++ lead ++ gx ++ sep1 ++ gy ++ sep2 ++ gz ++ tc ++ trail ++ [])
    at 2 by (rewrite app_nil_r; symmetry; exact Hs).
  apply m_seq with (c1 := []).
  { apply m_bol. rewrite app_nil_r, app_nil_r. rewrite Hs. reflexivity. }
  apply m_seq with (c1 := []); [apply matches_star_class; exact Hlead |].
  eapply m_seq; [apply m_group, matches_coordinate; exact Hgx |].
  eapply m_seq; [apply m_group, matches_separator; exact Hsep1 |].
  eapply m_seq; [apply m_group, matches_coordinate; exact Hgy |].
  eapply m_seq; [apply m_group, matches_separator; exact Hsep2 |].
  eapply m_seq; [apply m_group, matches_coordinate; exact Hgz |].
  eapply m_seq; [apply matches_opt_chr; destruct Htc; auto |].
  eapply m_seq; [apply matches_star_class; exact Htrail |].
  apply m_eol. left. reflexivity.
Qed.

(** C5. [CoordRegex] accepts a string exactly when it is optional leading
    white space, three coordinates (each an optional minus sign, one or more
    digits and an optional fractional part, a decimal point with the digits
    after it, if any), each pair separated by a comma with optional white
    space after it or by white space, then an optional comma and optional
    white space; the groups [x], [y], [z] of a match are the three
    coordinates; and on Ctrl+V the dialog sets its three fields from these
    groups exactly when the clipboard text is accepted, and is left as it was
    (with the event skipped) otherwise. *)
Theorem paste_pattern_spec (is_space : N -> bool) {F : Type}
    (float : list N -> F) (format_location : F -> F -> F -> list N) :
  (forall s, fullmatch (CoordRegex is_space) s <> None <-> accepted is_space s)
  /\ (forall s m,
        fullmatch (CoordRegex is_space) s = Some m ->
        exists gx gy gz,
          group m "x" = Some gx /\ group m "y" = Some gy /\ group m "z" = Some gz
          /\ coord_text is_space s gx gy gz)
  /\ (forall evt self cb,
        ControlDown evt = true -> GetKeyCode evt = 22%Z ->
        let out := _on_text is_space float format_location evt self cb in
        (accepted is_space (clipboard_text cb) ->
           skipped out = false
           /\ exists gx gy gz,
                coord_text is_space (clipboard_text cb) gx gy gz
                /\ dialog out = {| x := float gx; y := float gy; z := float gz |})
        /\ (~ accepted is_space (clipboard_text cb) ->
              skipped out = true /\ dialog out = self)).
Proof.
  assert (Hgroups : forall s m,
            fullmatch (CoordRegex is_space) s = Some m ->
            exists gx gy gz,
              group m "x" = Some gx /\ group m "y" = Some gy
              /\ group m "z" = Some gz /\ coord_text is_space s gx gy gz).
  { intros s m Hm. apply fullmatch_Some in Hm.
    apply matches_CoordRegex_inv in Hm as (gx & sep1 & gy & sep2 & gz & Ht & ->).
    exists gx, gy, gz. repeat split; auto. }
  assert (Hiff : forall s,
            fullmatch (CoordRegex is_space) s <> None <-> accepted is_space s).
  { intros s. split.
    - intros Hne. destruct (fullmatch (CoordRegex is_space) s) as [m |] eqn:Hm;
        [| congruence].
      destruct (Hgroups s m Hm) as (gx & gy & gz & _ & _ & _ & Ht).
      exists gx, gy, gz. exact Ht.
    - intros (gx & gy & gz & Ht).
      destruct (matches_CoordRegex is_space s gx gy gz Ht) as [m Hm].
      eapply fullmatch_None. exact Hm. }
  split; [exact Hiff |]. split; [exact Hgroups |].
  intros evt self cb Hctrl Hkey out. subst out. unfold _on_text.
  rewrite Hctrl, Hkey. cbn [andb Z.eqb Pos.eqb].
  destruct (fullmatch (CoordRegex is_space) (clipboard_text cb)) as [m |] eqn:Hm.
  - destruct (Hgroups _ m Hm) as (gx & gy & gz & -> & -> & -> & Ht).
    split.
    + intros _. split; [reflexivity |]. exists gx, gy, gz. split; [exact Ht | reflexivity].
    + intros Hn. exfalso. apply Hn. exists gx, gy, gz. exact Ht.
  - split.
    + intros Hacc. apply Hiff in Hacc. congruence.
    + intros _. split; reflexivity.
Qed.

Lemma paste_pattern_spec_witness :
  accepted ascii_space (text_of "-1.5, 22 3.25,")
  /\ dialog (_on_text ascii_space (fun t => t) (fun _ _ _ => [])
               {| ControlDown := true; GetKeyCode := 22 |}
               {| x := []; y := []; z := [] |}
               {| Open := true; GetData := Some (text_of "1 2 3") |})
     = {| x := text_of "1"; y := text_of "2"; z := text_of "3" |}.
Proof.
  split.
  - apply (proj1 (paste_pattern_spec ascii_space (fun t => t) (fun _ _ _ => []))
             (text_of "-1.5, 22 3.25,")).
    vm_compute. discriminate.
  - reflexivity.
Defined.

(** *** The groups of a match, and copy and paste *)

Section GoToMore.
Variable is_space : N -> bool.

Lemma span_unique (p : N -> bool) (l1 r1 l2 r2 : list N) :
  l1 ++ r1 = l2 ++ r2 -> all p l1 -> all p l2 -> stops p r1 -> stops p r2 ->
  l1 = l2 /\ r1 = r2.
Proof.
  revert l2. induction l1 as [| a l1 IH]; intros l2 Heq H1 H2 S1 S2.
  - destruct l2 as [| b l2]; [auto |]. cbn in Heq. subst r1. cbn in S1.
    apply Forall_cons in H2 as [Hb _]. congruence.
  - destruct l2 as [| b l2].
    + cbn in Heq. subst r2. cbn in S2. apply Forall_cons in H1 as [Ha _]. congruence.
    + cbn in Heq. injection Heq as -> Heq.
      apply Forall_cons in H1 as [_ H1]. apply Forall_cons in H2 as [_ H2].
      destruct (IH l2 Heq H1 H2 S1 S2) as [-> ->]. auto.
Qed.

Lemma digit_coordinate_char a : is_digit a = true -> coordinate_char a = true.
Proof. unfold coordinate_char. intros ->. reflexivity. Qed.

Lemma all_app (p : N -> bool) (l k : list N) : all p l -> all p k -> all p (l ++ k).
Proof. intros Hl Hk. apply Forall_app. auto. Qed.

Lemma all_impl (p q : N -> bool) (l : list N) :
  (forall a, p a = true -> q a = true) -> all p l -> all q l.
Proof. intros H Hl. eapply Forall_impl; [exact Hl | exact H]. Qed.

Lemma is_coordinate_chars (w : list N) :
  is_coordinate w ->
  all coordinate_char w
  /\ exists a w', w = a :: w' /\ coordinate_char a = true.
Proof.
  intros (sign & digits & frac & -> & Hsign & Hne & Hd & Hfrac).
  assert (Hds : all coordinate_char digits)
    by (eapply all_impl; [apply digit_coordinate_char | exact Hd]).
  assert (Hs : all coordinate_char sign).
  { destruct Hsign as [-> | ->]; [constructor |]. repeat constructor. }
  assert (Hf : all coordinate_char frac).
  { destruct Hfrac as [-> | (ds & -> & Hds')]; [constructor |].
    constructor; [reflexivity |].
    eapply all_impl; [apply digit_coordinate_char | exact Hds']. }
  split; [repeat apply all_app; assumption |].
  destruct Hsign as [-> | ->].
  - destruct digits as [| d digits]; [contradiction |].
    apply Forall_cons in Hds as [Hd0 _]. cbn. eauto.
  - cbn. eauto.
Qed.

Lemma is_separator_chars (w : list N) :
  is_separator is_space w ->
  all (separator_char is_space) w
  /\ exists a w', w = a :: w' /\ separator_char is_space a = true.
Proof.
  assert (Hsp : forall l, all is_space l -> all (separator_char is_space) l).
  { intros l. apply all_impl. intros a Ha. unfold separator_char. rewrite Ha.
    apply orb_true_r. }
  intros [(ws & -> & Hws) | [Hne Hw]].
  - split; [constructor; [reflexivity | apply Hsp, Hws] |]. eauto.
  - split; [apply Hsp, Hw |]. destruct w as [| a w]; [contradiction |].
    apply Hsp in Hw. apply Forall_cons in Hw as [Ha _]. eauto.
Qed.

Hypothesis Hclass : space_class is_space.

Lemma coordinate_not_separator a :
  coordinate_char a = true -> separator_char is_space a = false.
Proof.
  intros Hc. unfold separator_char.
  destruct (is_space a) eqn:Hs.
  - destruct (Hclass a Hs) as [Hn _]. congruence.
  - rewrite orb_false_r. destruct (N.eqb_spec a comma) as [-> | ?]; [| reflexivity].
    discriminate Hc.
Qed.

Lemma separator_not_coordinate a :
  separator_char is_space a = true -> coordinate_char a = false.
Proof.
  intros Hs. destruct (coordinate_char a) eqn:Hc; [| reflexivity].
  rewrite (coordinate_not_separator a Hc) in Hs. discriminate.
Qed.

Lemma coordinate_not_space a : coordinate_char a = true -> is_space a = false.
Proof.
  intros Hc. destruct (is_space a) eqn:Hs; [| reflexivity].
  destruct (Hclass a Hs) as [Hn _]. congruence.
Qed.

Lemma stops_coordinate (p : N -> bool) (w rest : list N) :
  (forall a, coordinate_char a = true -> p a = false) ->
  is_coordinate w -> stops p (w ++ rest).
Proof.
  intros Hp Hw. destruct (is_coordinate_chars w Hw) as [_ (a & w' & -> & Ha)].
  cbn. apply Hp, Ha.
Qed.

Lemma stops_separator (w rest : list N) :
  is_separator is_space w -> stops coordinate_char (w ++ rest).
Proof.
  intros Hw. destruct (is_separator_chars w Hw) as [_ (a & w' & -> & Ha)].
  cbn. apply separator_not_coordinate, Ha.
Qed.

Lemma stops_tail (tc trail : list N) :
  tc = [] \/ tc = [comma] -> all is_space trail ->
  stops coordinate_char (tc ++ trail).
Proof.
  intros [-> | ->] Ht; cbn; [| reflexivity].
  destruct trail as [| a trail]; [exact I |].
  apply Forall_cons in Ht as [Ha _]. cbn. apply (Hclass a Ha).
Qed.

(** A text is three coordinates in one way only. *)
Lemma coord_text_unique (s gx gy gz gx' gy' gz' : list N) :
  coord_text is_space s gx gy gz -> coord_text is_space s gx' gy' gz' ->
  gx = gx' /\ gy = gy' /\ gz = gz'.
Proof.
  intros (lead & sep1 & sep2 & tc & trail & Hs & Hlead & Hgx & Hsep1 & Hgy
          & Hsep2 & Hgz & Htc & Htrail)
         (lead' & sep1' & sep2' & tc' & trail' & Hs' & Hlead' & Hgx' & Hsep1' & Hgy'
          & Hsep2' & Hgz' & Htc' & Htrail').
  rewrite Hs in Hs'. clear Hs.
  apply span_unique with (p := is_space) in Hs' as [_ Hs'];
    [| assumption | assumption
     | apply stops_coordinate; [apply coordinate_not_space | assumption]
     | apply stops_coordinate; [apply coordinate_not_space | assumption]].
  apply span_unique with (p := coordinate_char) in Hs' as [Hx Hs'];
    [| apply is_coordinate_chars; assumption | apply is_coordinate_chars; assumption
     | apply stops_separator; assumption | apply stops_separator; assumption].
  apply span_unique with (p := separator_char is_space) in Hs' as [_ Hs'];
    [| apply is_separator_chars; assumption | apply is_separator_chars; assumption
     | apply stops_coordinate; [apply coordinate_not_separator | assumption]
     | apply stops_coordinate; [apply coordinate_not_separator | assumption]].
  apply span_unique with (p := coordinate_char) in Hs' as [Hy Hs'];
    [| apply is_coordinate_chars; assumption | apply is_coordinate_chars; assumption
     | apply stops_separator; assumption | apply stops_separator; assumption].
  apply span_unique with (p := separator_char is_space) in Hs' as [_ Hs'];
    [| apply is_separator_chars; assumption | apply is_separator_chars; assumption
     | apply stops_coordinate; [apply coordinate_not_separator | assumption]
     | apply stops_coordinate; [apply coordinate_not_separator | assumption]].
  apply span_unique with (p := coordinate_char) in Hs' as [Hz _];
    [| apply is_coordinate_chars; assumption | apply is_coordinate_chars; assumption
     | apply stops_tail; assumption | apply stops_tail; assumption].
  auto.
Qed.

End GoToMore.

Section GoToHandler.
Variable is_space : N -> bool.
Context {F : Type}.
Variable float : list N -> F.

Lemma space_class_ascii : space_class ascii_space.
Proof.
  intros a Ha. unfold ascii_space in Ha.
  unfold coordinate_char, is_digit, minus, dot, comma.
  apply orb_true_iff in Ha as [Ha | Ha].
  - apply andb_true_iff in Ha as [H1 H2]. apply N.leb_le in H1, H2.
    split; [| apply N.eqb_neq; lia].
    rewrite !orb_false_iff, andb_false_iff. repeat split.
    + left. apply N.leb_gt. lia.
    + apply N.eqb_neq. lia.
    + apply N.eqb_neq. lia.
  - apply N.eqb_eq in Ha. subst a. split; reflexivity.
Defined.

Lemma fullmatch_groups (s : list N) (m : list (string * list N)) :
  fullmatch (CoordRegex is_space) s = Some m ->
  exists gx gy gz,
    group m "x" = Some gx /\ group m "y" = Some gy /\ group m "z" = Some gz
    /\ coord_text is_space s gx gy gz.
Proof.
  intros Hm. apply fullmatch_Some in Hm.
  apply matches_CoordRegex_inv in Hm as (gx & sep1 & gy & sep2 & gz & Ht & ->).
  exists gx, gy, gz. repeat split; auto.
Qed.

Lemma fullmatch_accepted (s : list N) :
  accepted is_space s -> exists m, fullmatch (CoordRegex is_space) s = Some m.
Proof.
  intros (gx & gy & gz & Ht).
  destruct (matches_CoordRegex is_space s gx gy gz Ht) as [m Hm].
  apply fullmatch_None in Hm.
  destruct (fullmatch (CoordRegex is_space) s) as [m' |]; [eauto | congruence].
Qed.

Lemma fullmatch_empty : fullmatch (CoordRegex is_space) [] = None.
Proof. reflexivity. Qed.

(** X18. The groups of a match are determined by the text: however an
    accepted text is read as three coordinates with separators, the groups
    [x], [y] and [z] of the match are these three coordinates. *)
Theorem groups_determined_by_text (s gx gy gz : list N)
    (m : list (string * list N)) :
  space_class is_space ->
  fullmatch (CoordRegex is_space) s = Some m ->
  coord_text is_space s gx gy gz ->
  group m "x" = Some gx /\ group m "y" = Some gy /\ group m "z" = Some gz.
Proof.
  intros Hclass Hm Ht.
  destruct (fullmatch_groups s m Hm) as (gx' & gy' & gz' & Hx & Hy & Hz & Ht').
  destruct (coord_text_unique is_space Hclass s _ _ _ _ _ _ Ht' Ht) as (-> & -> & ->).
  auto.
Qed.

(** X19. What [_on_text] leaves alone: the fields of the dialog change only on
    Ctrl+V with an accepted clipboard text, the clipboard only on Ctrl+C when
    it can be opened, and the event is consumed only for these two keys; on
    Ctrl+V with a clipboard that cannot be opened or holds no text, nothing
    changes and the event is skipped. *)
Theorem on_text_frame (format_location : F -> F -> F -> list N)
    (evt : CharEvent) (self : GoTo) (cb : Clipboard) :
  let out := _on_text is_space float format_location evt self cb in
  (dialog out = self
   \/ (ControlDown evt = true /\ GetKeyCode evt = 22%Z
       /\ accepted is_space (clipboard_text cb)))
  /\ (clipboard out = cb
      \/ (ControlDown evt = true /\ GetKeyCode evt = 3%Z /\ Open cb = true))
  /\ (skipped out = false ->
      ControlDown evt = true /\ (GetKeyCode evt = 3%Z \/ GetKeyCode evt = 22%Z))
  /\ (ControlDown evt = true -> GetKeyCode evt = 22%Z ->
      Open cb = false \/ GetData cb = None ->
      out = {| dialog := self; clipboard := cb; skipped := true |}).
Proof.
  intros out. subst out. unfold _on_text.
  destruct (ControlDown evt) eqn:Hc; cbn [andb].
  2: { repeat split; auto; discriminate. }
  destruct (Z.eqb_spec (GetKeyCode evt) 3) as [H3 | H3].
  { cbn [dialog clipboard skipped]. split; [auto |]. split.
    - destruct (Open cb) eqn:Ho; auto.
    - split; [auto |]. intros _ H22. rewrite H3 in H22. discriminate. }
  destruct (Z.eqb_spec (GetKeyCode evt) 22) as [H22 | H22].
  2: { repeat split; auto; try discriminate; intros; contradiction. }
  destruct (fullmatch (CoordRegex is_space) (clipboard_text cb)) as [m |] eqn:Hm.
  - destruct (fullmatch_groups _ m Hm) as (gx & gy & gz & -> & -> & -> & Ht).
    cbn [dialog clipboard skipped]. split.
    { right. repeat split; auto. exists gx, gy, gz. exact Ht. }
    split; [auto |]. split; [auto |].
    intros _ _ Hcb. exfalso.
    assert (Hempty : clipboard_text cb = []).
    { unfold clipboard_text. destruct Hcb as [-> | ->]; [reflexivity |].
      destruct (Open cb); reflexivity. }
    rewrite Hempty, fullmatch_empty in Hm. discriminate.
  - cbn [dialog clipboard skipped]. repeat split; auto; discriminate.
Qed.

Lemma copy_run (format_location : F -> F -> F -> list N) (self : GoTo)
    (cb : Clipboard) :
  Open cb = true ->
  _on_text is_space float format_location {| ControlDown := true; GetKeyCode := 3 |}
    self cb
  = {| dialog := self;
       clipboard := {| Open := true;
                       GetData := Some (format_location (x self) (y self) (z self)) |};
       skipped := false |}.
Proof. intros Ho. unfold _on_text. cbn. rewrite Ho. reflexivity. Qed.

Lemma paste_run (format_location : F -> F -> F -> list N) (other : GoTo)
    (cb : Clipboard) (gx gy gz : list N) :
  space_class is_space -> coord_text is_space (clipboard_text cb) gx gy gz ->
  _on_text is_space float format_location {| ControlDown := true; GetKeyCode := 22 |}
    other cb
  = {| dialog := {| x := float gx; y := float gy; z := float gz |};
       clipboard := cb; skipped := false |}.
Proof.
  intros Hclass Ht. unfold _on_text. cbn [ControlDown GetKeyCode andb Z.eqb Pos.eqb].
  destruct (fullmatch_accepted (clipboard_text cb)) as [m Hm];
    [eexists _, _, _; exact Ht |].
  rewrite Hm.
  destruct (fullmatch_groups _ m Hm) as (gx' & gy' & gz' & -> & -> & -> & Ht').
  destruct (coord_text_unique is_space Hclass _ _ _ _ _ _ _ Ht' Ht) as (-> & -> & ->).
  reflexivity.
Qed.

Variable str_round : F -> list N.

(** X20. Copy, then paste.  When the three rounded fields print as
    coordinates, Ctrl+C followed by Ctrl+V, in this or another dialog, sets
    the three fields to [float] of the printed fields, and neither event is
    skipped. *)
Theorem copy_then_paste (self other : GoTo) (cb : Clipboard) :
  space_class is_space -> is_space 32%N = true -> Open cb = true ->
  is_coordinate (str_round (x self)) -> is_coordinate (str_round (y self)) ->
  is_coordinate (str_round (z self)) ->
  let copy := _on_text is_space float (format_rounded str_round)
                {| ControlDown := true; GetKeyCode := 3 |} self cb in
  let paste := _on_text is_space float (format_rounded str_round)
                 {| ControlDown := true; GetKeyCode := 22 |} other (clipboard copy) in
  dialog copy = self /\ skipped copy = false
  /\ skipped paste = false
  /\ dialog paste = {| x := float (str_round (x self));
                       y := float (str_round (y self));
                       z := float (str_round (z self)) |}.
Proof.
  intros Hclass H32 Ho Hx Hy Hz copy paste. subst paste copy.
  rewrite (copy_run _ self cb Ho). cbn [dialog skipped clipboard].
  split; [reflexivity |]. split; [reflexivity |].
  rewrite (paste_run _ other _ (str_round (x self)) (str_round (y self))
             (str_round (z self)) Hclass).
  - split; reflexivity.
  - exists [], [32%N], [32%N], [], []. unfold clipboard_text, format_rounded.
    cbn [Open GetData]. rewrite !app_nil_r. cbn [app].
    assert (Hsep : is_separator is_space [32%N]).
    { right. split; [discriminate |]. repeat constructor. exact H32. }
    repeat split; auto; constructor.
Qed.

End GoToHandler.

Lemma is_coordinate_digit (d : N) : is_digit d = true -> is_coordinate [d].
Proof.
  intros Hd. exists [], [d], []. split; [reflexivity |].
  split; [left; reflexivity |]. split; [discriminate |].
  split; [repeat constructor; exact Hd | left; reflexivity].
Defined.

Lemma coord_text_sample :
  coord_text ascii_space (text_of "1 2 3") (text_of "1") (text_of "2") (text_of "3").
Proof.
  exists [], [32%N], [32%N], [], [].
  assert (Hsep : is_separator ascii_space [32%N]).
  { right. split; [discriminate |]. repeat constructor. }
  split; [reflexivity |]. split; [constructor |].
  split; [apply is_coordinate_digit; reflexivity |]. split; [exact Hsep |].
  split; [apply is_coordinate_digit; reflexivity |]. split; [exact Hsep |].
  split; [apply is_coordinate_digit; reflexivity |].
  split; [left; reflexivity | constructor].
Defined.

Lemma groups_determined_by_text_witness :
  exists m,
    fullmatch (CoordRegex ascii_space) (text_of "1 2 3") = Some m
    /\ group m "x" = Some (text_of "1") /\ group m "y" = Some (text_of "2")
    /\ group m "z" = Some (text_of "3").
Proof.
  eexists. split; [vm_compute; reflexivity |].
  apply (groups_determined_by_text ascii_space (text_of "1 2 3") _ _ _ _
           space_class_ascii); [vm_compute; reflexivity | exact coord_text_sample].
Defined.

Lemma copy_then_paste_witness :
  dialog (_on_text ascii_space (fun t => t) (format_rounded (fun t => t))
            {| ControlDown := true; GetKeyCode := 22 |}
            {| x := []; y := []; z := [] |}
            (clipboard
               (_on_text ascii_space (fun t => t) (format_rounded (fun t => t))
                  {| ControlDown := true; GetKeyCode := 3 |}
                  {| x := text_of "1"; y := text_of "2"; z := text_of "3" |}
                  {| Open := true; GetData := None |})))
  = {| x := text_of "1"; y := text_of "2"; z := text_of "3" |}.
Proof.
  apply (copy_then_paste ascii_space (fun t => t) (fun t => t)
           {| x := text_of "1"; y := text_of "2"; z := text_of "3" |}
           {| x := []; y := []; z := [] |}
           {| Open := true; GetData := None |} space_class_ascii);
    try reflexivity; apply is_coordinate_digit; reflexivity.
Defined.

End GoToFacts.

(** ** nbt_editor.py *)

Section NbtEditorFacts.
Import NbtEditor.
Local Open Scope nat_scope.

Variable lib : AmuletNbt.

Lemma occurrences_notin c l : c ∉ l -> occurrences c l = 0.
Proof.
  induction l as [| x l IH]; [reflexivity |].
  intros Hn. apply not_elem_of_cons in Hn as [Hne Hn]. cbn.
  destruct (Nat.eqb_spec x c); [congruence |]. rewrite IH; auto.
Qed.

Lemma occurrences_NoDup c l : NoDup l -> c ∈ l -> occurrences c l = 1.
Proof.
  induction 1 as [| x l Hx Hnd IH]; intros Hin; [inversion Hin |].
  cbn. destruct (Nat.eqb_spec x c) as [-> | Hne].
  - rewrite occurrences_notin; auto.
  - apply elem_of_cons in Hin as [-> | Hin]; [congruence |]. rewrite IH; auto.
Qed.

Lemma inv_weaken P x s : inv (x :: P) s -> inv P s.
Proof.
  intros (Hc & Hn & Hp & Hd). split; [exact Hc |]. split; [| split].
  - intros p np cs c H1 H2 H3 Hin. apply (Hn p np cs c H1 H2 H3).
    cbn. apply elem_of_cons. right. exact Hin.
  - intros c par Hin. apply Hp. apply elem_of_cons. right. exact Hin.
  - cbn in Hd. apply NoDup_cons in Hd. tauto.
Qed.

Lemma inv_consistent P s : inv P s -> consistent s.
Proof. intros H. apply H. Qed.

Lemma consistent_inv s : consistent s -> inv [] s.
Proof.
  intros Hc. split; [exact Hc |]. split; [| split].
  - intros p np cs c _ _ _ Hin. inversion Hin.
  - intros c par Hin. inversion Hin.
  - apply NoDup_nil_2.
Qed.

Lemma inv_new_object P s n :
  inv P s -> kind_ok n -> (forall cs, _body n = Children cs -> cs = []) ->
  inv ((length s, _parent n) :: P) (s ++ [n]).
Proof.
  intros (Hc & Hn & Hp & Hd) Hk Hb.
  assert (Hold : forall a x, s !! a = Some x -> (s ++ [n]) !! a = Some x).
  { intros a x Ha. apply lookup_app_l_Some. exact Ha. }
  assert (Hnew : forall a x, (s ++ [n]) !! a = Some x ->
                   s !! a = Some x \/ (a = length s /\ x = n)).
  { intros a x Ha. apply lookup_app_Some in Ha as [Ha | [Hge Ha]]; [left; exact Ha |].
    right. apply list_lookup_singleton_Some in Ha as [Hz ->].
    split; [lia | reflexivity]. }
  assert (Hfresh : length s ∉ P.*1).
  { intros Hin. apply list_elem_of_fmap in Hin as ([c par] & Heq & Hin).
    cbn in Heq. subst c. destruct (Hp _ _ Hin) as (nc & Hl & _).
    apply lookup_lt_Some in Hl. lia. }
  split; [| split; [| split]].
  - intros p np cs Hl Hbody.
    apply Hnew in Hl as [Hl | [-> ->]].
    + destruct (Hc p np cs Hl Hbody) as [Hnd Hch]. split; [exact Hnd |].
      intros c Hin. destruct (Hch c Hin) as (nc & H1 & H2 & H3).
      exists nc. split; [apply Hold; exact H1 | tauto].
    + rewrite (Hb cs Hbody). split; [apply NoDup_nil_2 |].
      intros c Hin. inversion Hin.
  - intros p np cs c Hl Hbody Hin. cbn.
    apply Hnew in Hl as [Hl | [-> ->]].
    + apply not_elem_of_cons. split; [| eapply Hn; eauto].
      destruct (Hc p np cs Hl Hbody) as [_ Hch].
      destruct (Hch c Hin) as (nc & H1 & _). apply lookup_lt_Some in H1. lia.
    + rewrite (Hb cs Hbody) in Hin. inversion Hin.
  - intros c par Hin. apply elem_of_cons in Hin as [Heq | Hin].
    + injection Heq as -> ->. exists n. split; [| tauto].
      apply list_lookup_middle. reflexivity.
    + destruct (Hp c par Hin) as (nc & H1 & H2). exists nc.
      split; [apply Hold; exact H1 | exact H2].
  - cbn. apply NoDup_cons. split; [exact Hfresh | exact Hd].
Qed.

Lemma inv_set_children P P' s p np cs cs' :
  inv P s -> s !! p = Some np -> _body np = Children cs ->
  NoDup cs' ->
  (forall c, c ∈ cs' ->
     (c ∉ P'.*1)
     /\ exists nc, s !! c = Some nc /\ _parent nc = Some p /\ kind_ok nc) ->
  (forall x, x ∈ P' -> x ∈ P) -> NoDup P'.*1 ->
  inv P' (<[p := set_body np (Children cs')]> s).
Proof.
  intros (Hc & Hn & Hp & Hd) Hlp Hbp Hnd' Hch' Hsub Hd'.
  set (s' := <[p := set_body np (Children cs')]> s).
  assert (Hhead : forall a x, s !! a = Some x ->
            exists x', s' !! a = Some x' /\ _parent x' = _parent x
                       /\ (kind_ok x -> kind_ok x')).
  { intros a x Ha. destruct (decide (a = p)) as [-> | Hne].
    - exists (set_body np (Children cs')). split.
      + apply list_lookup_insert_eq. eapply lookup_lt_Some; eauto.
      + assert (x = np) by congruence. subst x. split; [reflexivity |].
        unfold kind_ok, is_container. cbn. rewrite Hbp. tauto.
    - exists x. split; [| tauto].
      unfold s'. rewrite list_lookup_insert_ne by congruence. exact Ha. }
  assert (Hcase : forall q nq csq, s' !! q = Some nq -> _body nq = Children csq ->
            (q = p /\ csq = cs') \/ (q <> p /\ s !! q = Some nq)).
  { intros q nq csq Hl Hb. unfold s' in Hl.
    apply list_lookup_insert_Some in Hl as [(-> & <- & _) | [Hne Hl]].
    - left. cbn in Hb. split; [reflexivity | congruence].
    - right. split; [congruence | exact Hl]. }
  assert (Hsub1 : forall c, c ∈ P'.*1 -> c ∈ P.*1).
  { intros c Hin. apply list_elem_of_fmap in Hin as (x & -> & Hin).
    apply list_elem_of_fmap. exists x. split; [reflexivity | apply Hsub; exact Hin]. }
  split; [| split; [| split]].
  - intros q nq csq Hl Hb.
    destruct (Hcase q nq csq Hl Hb) as [[-> ->] | [Hne Hl0]].
    + split; [exact Hnd' |]. intros c Hin.
      destruct (Hch' c Hin) as (_ & nc & H1 & H2 & H3).
      destruct (Hhead c nc H1) as (x' & Hx1 & Hx2 & Hx3).
      exists x'. split; [exact Hx1 |]. split; [congruence | auto].
    + destruct (Hc q nq csq Hl0 Hb) as [Hnd Hch]. split; [exact Hnd |].
      intros c Hin. destruct (Hch c Hin) as (nc & H1 & H2 & H3).
      destruct (Hhead c nc H1) as (x' & Hx1 & Hx2 & Hx3).
      exists x'. split; [exact Hx1 |]. split; [congruence | auto].
  - intros q nq csq c Hl Hb Hin.
    destruct (Hcase q nq csq Hl Hb) as [[-> ->] | [Hne Hl0]].
    + apply (Hch' c Hin).
    + intros Hc'. apply (Hn q nq csq c Hl0 Hb Hin). apply Hsub1. exact Hc'.
  - intros c par Hin. destruct (Hp c par (Hsub _ Hin)) as (nc & H1 & H2 & H3).
    destruct (Hhead c nc H1) as (x' & Hx1 & Hx2 & Hx3).
    exists x'. split; [exact Hx1 |]. split; [congruence | auto].
  - exact Hd'.
Qed.

(** Rules for [triple]. *)
Lemma triple_ret {A} (a : A) (Post : A -> store -> Prop) Exc :
  triple (Post a) (ret a) Post Exc.
Proof. intros s H. exact H. Qed.

Lemma triple_raise {A} e (Post : A -> store -> Prop) (Exc : store -> Prop) :
  triple Exc (raise e) Post Exc.
Proof. intros s H. exact H. Qed.

Lemma triple_bind {A B} (m : M store A) (k : A -> M store B) Pre Mid Post Exc :
  triple Pre m Mid Exc -> (forall a, triple (Mid a) (k a) Post Exc) ->
  triple Pre (bind m k) Post Exc.
Proof.
  intros Hm Hk s Hpre. unfold bind. specialize (Hm s Hpre).
  destruct (m s) as [[a | e] s']; [apply Hk; exact Hm | exact Hm].
Qed.

Lemma triple_weaken {A} (m : M store A) (Pre Pre' : store -> Prop)
    (Post Post' : A -> store -> Prop) (Exc Exc' : store -> Prop) :
  triple Pre m Post Exc ->
  (forall s, Pre' s -> Pre s) -> (forall a s, Post a s -> Post' a s) ->
  (forall s, Exc s -> Exc' s) ->
  triple Pre' m Post' Exc'.
Proof.
  intros Hm H1 H2 H3 s Hpre. specialize (Hm s (H1 s Hpre)).
  destruct (m s) as [[a | e] s']; auto.
Qed.

Lemma triple_container P parent name ty :
  mapping_or_sequence ty = true ->
  triple (inv P) (ParsedNBTContainer parent name ty)
    (fun a => inv ((a, parent) :: P)) (inv P).
Proof.
  intros Hty s H. cbn.
  apply (inv_new_object P s
           {| _parent := parent; _name := name; _type := ty; _body := Children [] |}).
  - exact H.
  - unfold kind_ok. cbn. congruence.
  - cbn. congruence.
Qed.

Lemma triple_value P parent name v t :
  triple (inv P) (ParsedNBTValue parent name v (TAG_Value t))
    (fun a => inv ((a, parent) :: P)) (inv P).
Proof.
  intros s H. cbn.
  apply (inv_new_object P s
           {| _parent := parent; _name := name; _type := TAG_Value t;
              _body := Value v |}).
  - exact H.
  - reflexivity.
  - cbn. discriminate.
Qed.

Lemma triple_add_child P p c :
  triple (inv ((c, Some p) :: P)) (add_child p c) (fun _ => inv P) (inv P).
Proof.
  intros s H. unfold add_child.
  destruct (s !! p) as [np |] eqn:Hlp; [| eapply inv_weaken; eauto].
  destruct (_body np) as [v | cs] eqn:Hb; [eapply inv_weaken; eauto |].
  pose proof H as (Hc & Hn & Hp & Hd).
  cbn in Hd. apply NoDup_cons in Hd as [Hfresh Hd].
  assert (Hnotin : c ∉ cs).
  { intros Hin. apply (Hn p np cs c Hlp Hb Hin). cbn. apply elem_of_cons. left.
    reflexivity. }
  destruct (Hc p np cs Hlp Hb) as [Hnd Hch].
  apply (inv_set_children ((c, Some p) :: P) P s p np cs (cs ++ [c])); auto.
  - apply NoDup_app. split; [exact Hnd |]. split; [| apply NoDup_singleton].
    intros x Hx Hx'. apply list_elem_of_singleton in Hx'. subst x. auto.
  - intros x Hx. apply elem_of_app in Hx as [Hx | Hx].
    + split; [| apply Hch; exact Hx].
      intros Hin. apply (Hn p np cs x Hlp Hb Hx). cbn. apply elem_of_cons. right.
      exact Hin.
    + apply list_elem_of_singleton in Hx. subst x. split; [exact Hfresh |].
      apply Hp. apply elem_of_cons. left. reflexivity.
  - intros x Hx. apply elem_of_cons. right. exact Hx.
Qed.

Lemma triple_call_add_child P parent c :
  triple (inv ((c, parent) :: P)) (call_add_child parent c)
    (fun _ => inv P) (inv P).
Proof.
  destruct parent as [p |]; cbn.
  - apply triple_add_child.
  - intros s H. cbn. eapply inv_weaken; eauto.
Qed.

Lemma keeps_under P x (m : M store unit) :
  keeps m ->
  triple (inv (x :: P)) m (fun _ => inv (x :: P)) (inv P).
Proof.
  intros Hm. eapply triple_weaken; [apply (Hm (x :: P)) | auto | auto |].
  intros s. apply inv_weaken.
Qed.

Lemma keeps_parse_child (new_parent : addr) (child : nbt) :
  (forall parent, keeps (parse_nbt child parent)) ->
  keeps (parse_child parse_nbt new_parent child).
Proof.
  intros IH P. destruct child as [t v | items | elems]; cbn [parse_child].
  - eapply triple_bind; [apply triple_value |].
    intros c. apply triple_add_child.
  - eapply triple_bind; [apply triple_container; reflexivity |].
    intros c. eapply triple_bind; [apply keeps_under, IH |].
    intros ?. apply triple_add_child.
  - eapply triple_bind; [apply triple_container; reflexivity |].
    intros c. eapply triple_bind; [apply keeps_under, IH |].
    intros ?. apply triple_add_child.
Qed.

Lemma keeps_parse_children (new_parent : addr) (elems : list nbt) :
  Forall (fun d => forall parent, keeps (parse_nbt d parent)) elems ->
  keeps (parse_children parse_nbt new_parent elems).
Proof.
  induction 1 as [| child more Hc _ IH]; intros P; cbn [parse_children].
  - intros s H. exact H.
  - eapply triple_bind; [apply keeps_parse_child, Hc |].
    intros ?. apply IH.
Qed.

Lemma keeps_parse_item (parent : option addr) (key : string) (value : nbt) :
  (forall parent', keeps (parse_nbt value parent')) ->
  (forall new_parent elems, value = NList elems ->
     keeps (parse_children parse_nbt new_parent elems)) ->
  keeps (parse_item parse_nbt parent key value).
Proof.
  intros IH IHl P. destruct value as [t v | items | elems]; cbn [parse_item].
  - destruct parent as [p |].
    + eapply triple_bind; [apply triple_value |].
      intros c. apply triple_add_child.
    + intros s H. exact H.
  - eapply triple_bind; [apply triple_container; reflexivity |].
    intros c. eapply triple_bind; [apply keeps_under, IH |].
    intros ?. apply triple_call_add_child.
  - eapply triple_bind; [apply triple_container; reflexivity |].
    intros c. eapply triple_bind; [apply keeps_under, (IHl c elems eq_refl) |].
    intros ?. apply triple_call_add_child.
Qed.

(** [parse_nbt] keeps the invariant, whatever the document and the parent, and
    whether it returns or raises. *)
Lemma keeps_parse_nbt (d : nbt) :
  (forall parent, keeps (parse_nbt d parent))
  /\ (forall new_parent elems, d = NList elems ->
        keeps (parse_children parse_nbt new_parent elems)).
Proof.
  induction d as [t v | items IH | elems IH] using nbt_induction.
  - split; [| discriminate]. intros parent P s H. exact H.
  - split; [| discriminate]. intros parent. cbn [parse_nbt].
    induction IH as [| [key value] rest [Hv Hl] _ IHrest]; intros P;
      cbn [parse_items].
    + intros s H. exact H.
    + eapply triple_bind; [apply keeps_parse_item; [exact Hv | exact Hl] |].
      intros ?. apply IHrest.
  - split.
    + intros parent P s H. exact H.
    + intros new_parent elems' Heq. injection Heq as <-.
      apply keeps_parse_children.
      eapply Forall_impl; [exact IH |]. intros d [Hd _]. exact Hd.
Qed.

Lemma parse_nbt_consistent (d : nbt) (parent : option addr) (s : store) :
  consistent s -> consistent (snd (parse_nbt d parent s)).
Proof.
  intros Hc. pose proof (proj1 (keeps_parse_nbt d) parent [] s (consistent_inv s Hc)) as H.
  destruct (parse_nbt d parent s) as [[[] | e] s']; cbn; apply (inv_consistent _ _ H).
Qed.

Lemma consistent_tree (s : store) (root : addr) :
  consistent s -> tree_consistent s root.
Proof.
  intros Hc c Hr Hne. destruct Hr as [| p c np cs Hr Hlp Hb Hin]; [congruence |].
  destruct (Hc p np cs Hlp Hb) as [Hnd Hch].
  destruct (Hch c Hin) as (nc & H1 & H2 & H3).
  exists nc, p, np, cs. repeat split; auto.
  - apply occurrences_NoDup; auto.
  - unfold kind_ok in H3. congruence.
  - unfold kind_ok in H3. congruence.
Qed.

Lemma inv_assign_parent (s : store) (c p : addr) (nc : node) :
  consistent s -> detached s c -> s !! c = Some nc -> kind_ok nc ->
  inv [(c, Some p)] (<[c := set_parent nc (Some p)]> s).
Proof.
  intros Hc Hdet Hlc Hk.
  set (s1 := <[c := set_parent nc (Some p)]> s).
  assert (Hcase : forall q nq, s1 !! q = Some nq ->
            exists nq0, s !! q = Some nq0 /\ _body nq = _body nq0).
  { intros q nq Hl. unfold s1 in Hl.
    apply list_lookup_insert_Some in Hl as [(-> & <- & _) | [Hne Hl]].
    - exists nc. split; [exact Hlc | reflexivity].
    - exists nq. split; [exact Hl | reflexivity]. }
  assert (Hother : forall a x, a <> c -> s !! a = Some x -> s1 !! a = Some x).
  { intros a x Hne Ha. unfold s1. rewrite list_lookup_insert_ne by congruence.
    exact Ha. }
  split; [| split; [| split]].
  - intros q nq csq Hl Hb. destruct (Hcase q nq Hl) as (nq0 & Hl0 & Hb0).
    rewrite Hb0 in Hb. destruct (Hc q nq0 csq Hl0 Hb) as [Hnd Hch].
    split; [exact Hnd |]. intros x Hx.
    destruct (Hch x Hx) as (nx & H1 & H2 & H3). exists nx.
    split; [| tauto]. apply Hother; [| exact H1].
    intros ->. apply (Hdet q nq0 csq Hl0 Hb Hx).
  - intros q nq csq x Hl Hb Hx. destruct (Hcase q nq Hl) as (nq0 & Hl0 & Hb0).
    rewrite Hb0 in Hb. cbn. intros Hin. apply list_elem_of_singleton in Hin.
    subst x. apply (Hdet q nq0 csq Hl0 Hb Hx).
  - intros x par Hin. apply list_elem_of_singleton in Hin. injection Hin as -> ->.
    exists (set_parent nc (Some p)). split.
    + apply list_lookup_insert_eq. eapply lookup_lt_Some; eauto.
    + split; [reflexivity | exact Hk].
  - cbn. apply NoDup_singleton.
Qed.

Lemma add_child_paired_consistent (s s' : store) (p c : addr) (nc : node) :
  consistent s -> detached s c -> s !! c = Some nc -> kind_ok nc ->
  (assign_parent c (Some p) ;; add_child p c) s = (Ok tt, s') ->
  consistent s'.
Proof.
  intros Hc Hdet Hlc Hk Hrun. unfold bind, assign_parent in Hrun.
  rewrite Hlc in Hrun.
  pose proof (triple_add_child [] p c _ (inv_assign_parent s c p nc Hc Hdet Hlc Hk))
    as H.
  rewrite Hrun in H. apply (inv_consistent _ _ H).
Qed.

Lemma list_remove_Some x l l' :
  list_remove x l = Some l' ->
  (forall y, y ∈ l' -> y ∈ l) /\ (NoDup l -> NoDup l').
Proof.
  revert l'. induction l as [| y l IH]; intros l' H; [discriminate |].
  cbn in H. destruct (Nat.eqb y x).
  - injection H as <-. split.
    + intros z Hz. apply elem_of_cons. right. exact Hz.
    + intros Hnd. apply NoDup_cons in Hnd. tauto.
  - destruct (list_remove x l) as [r |]; [| discriminate].
    injection H as <-. destruct (IH r eq_refl) as [H1 H2]. split.
    + intros z Hz. apply elem_of_cons in Hz as [-> | Hz];
        apply elem_of_cons; [left; reflexivity | right; auto].
    + intros Hnd. apply NoDup_cons in Hnd as [Hy Hnd]. apply NoDup_cons.
      split; [| auto]. intros Hin. apply Hy, H1, Hin.
Qed.

Lemma remove_child_consistent (s s' : store) (p c : addr) (r : result unit) :
  consistent s -> remove_child p c s = (r, s') -> consistent s'.
Proof.
  intros Hc Hrun. unfold remove_child in Hrun.
  destruct (s !! p) as [np |] eqn:Hlp; [| injection Hrun as _ <-; exact Hc].
  destruct (_body np) as [v | cs] eqn:Hb; [injection Hrun as _ <-; exact Hc |].
  destruct (list_remove c cs) as [cs' |] eqn:Hrm; [| injection Hrun as _ <-; exact Hc].
  injection Hrun as _ <-.
  destruct (list_remove_Some _ _ _ Hrm) as [Hsub Hnd].
  destruct (Hc p np cs Hlp Hb) as [Hnd0 Hch].
  apply (inv_consistent []).
  apply (inv_set_children [] [] s p np cs cs'); auto.
  - apply consistent_inv. exact Hc.
  - intros x Hx. split; [intros Hin; inversion Hin | apply Hch, Hsub, Hx].
  - apply NoDup_nil_2.
Qed.

(** C9 (amended). In a store whose [_children] lists are consistent:
    after [parse_nbt(d, root)], returned or raised, every node reachable from
    [root] other than [root] has a parent, is exactly once among that parent's
    children, and is a container exactly when its tag type is a mapping or
    sequence type; [add_child] paired with the parent assignment keeps this
    for a node that is in no [_children] list yet and whose class fits its tag
    type; [remove_child] keeps it. *)
Theorem parsed_tree_consistency (s : store) :
  consistent s ->
  (forall d root,
     consistent (snd (parse_nbt d (Some root) s))
     /\ tree_consistent (snd (parse_nbt d (Some root) s)) root)
  /\ (forall p c nc s',
        detached s c -> s !! c = Some nc -> kind_ok nc ->
        (assign_parent c (Some p) ;; add_child p c) s = (Ok tt, s') ->
        consistent s' /\ forall root, tree_consistent s' root)
  /\ (forall p c r s',
        remove_child p c s = (r, s') ->
        consistent s' /\ forall root, tree_consistent s' root).
Proof.
  intros Hc. split; [| split].
  - intros d root. pose proof (parse_nbt_consistent d (Some root) s Hc) as H.
    split; [exact H | apply consistent_tree; exact H].
  - intros p c nc s' Hdet Hlc Hk Hrun.
    pose proof (add_child_paired_consistent s s' p c nc Hc Hdet Hlc Hk Hrun) as H.
    split; [exact H | intros root; apply consistent_tree; exact H].
  - intros p c r s' Hrun.
    pose proof (remove_child_consistent s s' p c r Hc Hrun) as H.
    split; [exact H | intros root; apply consistent_tree; exact H].
Qed.

Lemma consistent_empty_root : consistent empty_root.
Proof.
  intros p np cs Hl Hb. destruct p as [| p]; cbn in Hl; [| discriminate].
  injection Hl as <-. injection Hb as <-.
  split; [apply NoDup_nil_2 | intros c Hin; inversion Hin].
Defined.

Lemma parsed_tree_consistency_witness :
  consistent empty_root
  /\ tree_consistent (snd (parse_nbt sample_doc (Some 0) empty_root)) 0.
Proof.
  split; [exact consistent_empty_root |].
  apply (proj2 (proj1 (parsed_tree_consistency empty_root consistent_empty_root)
                  sample_doc 0)).
Defined.

Lemma consistent_attached_store : consistent attached_store.
Proof.
  intros p np cs Hl Hb. destruct p as [| [| p]]; cbn in Hl; try discriminate;
    injection Hl as <-; cbn in Hb; [| discriminate].
  injection Hb as <-. split; [apply NoDup_singleton |].
  intros c Hin. apply list_elem_of_singleton in Hin. subst c.
  eexists. split; [reflexivity |]. split; reflexivity.
Qed.

(** C9 as stated fails: [add_child] paired with the parent assignment, for a
    node that is already a child of that parent, leaves it twice in the
    [_children] list. *)
Lemma add_child_twice_not_consistent :
  consistent attached_store
  /\ exists s',
       (assign_parent 1 (Some 0) ;; add_child 0 1) attached_store = (Ok tt, s')
       /\ ~ tree_consistent s' 0.
Proof.
  split; [exact consistent_attached_store |].
  eexists. split; [reflexivity |].
  intros H.
  assert (Hr : reachable
                 [ {| _parent := None; _name := ""; _type := TAG_Compound;
                      _body := Children [1; 1] |};
                   {| _parent := Some 0; _name := "x"; _type := TAG_Value TAG_Int;
                      _body := Value (PInt 1) |} ] 0 1).
  { eapply reach_child; [apply reach_root | reflexivity | reflexivity |].
    apply elem_of_cons. left. reflexivity. }
  destruct (H 1 Hr ltac:(discriminate)) as (nc & p & np & cs & H1 & H2 & H3 & H4 & H5 & _).
  cbn in H1. injection H1 as <-. cbn in H2. injection H2 as <-.
  cbn in H3. injection H3 as <-. cbn in H4. injection H4 as <-.
  cbn in H5. discriminate.
Qed.

(** A list that holds a list is handed to [parse_nbt], which asks it for
    [items()]: whatever the rest of the document, the call raises. *)
Lemma parse_nbt_list_in_list (key : string) (elems more : list nbt)
    (rest : list (string * nbt)) (parent : option addr) (s : store) :
  fst (parse_nbt (NCompound ((key, NList (NList elems :: more)) :: rest)) parent s)
  = Raise AttributeError.
Proof. reflexivity. Qed.

(** C1 at the document [{"a": [[]]}]: [parse_nbt] raises [AttributeError], and
    what [build_nbt] then returns for the root is the empty compound, not the
    document. *)
Theorem parse_nbt_nested_list_raises :
  fst (parse_nbt list_in_list_doc (Some 0) empty_root) = Raise AttributeError
  /\ forall limit,
       build_nbt lib (S (S limit)) (snd (parse_nbt list_in_list_doc (Some 0) empty_root)) 0
       = Ok (NCompound []).
Proof. split; [reflexivity | intros limit; reflexivity]. Qed.

Lemma grows_refl w : grows w w.
Proof. exists []. symmetry. apply app_nil_r. Qed.

Lemma grows_trans w1 w2 w3 : grows w1 w2 -> grows w2 w3 -> grows w1 w3.
Proof.
  intros [o1 H1] [o2 H2]. exists (o1 ++ o2). rewrite H2, H1. symmetry. apply app_assoc.
Qed.

Lemma grows_lookup w w' a v :
  grows w w' -> heap w !! a = Some v -> heap w' !! a = Some v.
Proof. intros [objs ->] H. apply lookup_app_l_Some. exact H. Qed.

Lemma on_nodes_heap {A} (m : M store A) (w : world) :
  heap (snd (on_nodes m w)) = heap w.
Proof. unfold on_nodes. destruct (m (nodes w)) as [r s']. reflexivity. Qed.

Lemma on_nodes_grows {A} (m : M store A) (w : world) : grows w (snd (on_nodes m w)).
Proof. exists []. rewrite on_nodes_heap. symmetry. apply app_nil_r. Qed.

Lemma NBTEditor_nbt_spec (limit : nat) (_parent : addr) (w w' : world) (r : addr) :
  NBTEditor_nbt lib limit _parent w = (Ok r, w') ->
  r = length (heap w)
  /\ exists v, build_nbt lib limit (nodes w) _parent = Ok v
               /\ heap w' = heap w ++ [v] /\ nodes w' = nodes w.
Proof.
  unfold NBTEditor_nbt, new_nbt. intros H.
  destruct (build_nbt lib limit (nodes w) _parent) as [v | e]; [| discriminate].
  injection H as <- <-. split; [reflexivity |]. exists v. auto.
Qed.

Lemma NBTEditor_nbt_grows (limit : nat) (_parent : addr) (w : world) :
  grows w (snd (NBTEditor_nbt lib limit _parent w)).
Proof.
  unfold NBTEditor_nbt, new_nbt.
  destruct (build_nbt lib limit (nodes w) _parent) as [v | e]; cbn.
  - exists [v]. reflexivity.
  - apply grows_refl.
Qed.

Lemma run_operation_grows limit _parent o w :
  grows w (snd (run_operation lib limit _parent o w)).
Proof.
  destruct o; cbn [run_operation]; try apply on_nodes_grows.
  unfold bind. pose proof (NBTEditor_nbt_grows limit _parent w) as H.
  destruct (NBTEditor_nbt lib limit _parent w) as [[r | e] w']; exact H.
Qed.

Lemma run_operations_grows limit _parent os w :
  grows w (run_operations lib limit _parent os w).
Proof.
  revert w. induction os as [| o os IH]; intros w; cbn.
  - apply grows_refl.
  - eapply grows_trans; [apply run_operation_grows | apply IH].
Qed.

Lemma on_nodes_parsed_objects {A} (m : M store A) (w : world) :
  parsed_objects (snd (on_nodes m w)) = parsed_objects w.
Proof. unfold on_nodes. destruct (m (nodes w)) as [r s']. reflexivity. Qed.

Lemma NBTEditor_nbt_parsed_objects (limit : nat) (_parent : addr) (w : world) :
  parsed_objects (snd (NBTEditor_nbt lib limit _parent w)) = parsed_objects w.
Proof.
  unfold NBTEditor_nbt, new_nbt.
  destruct (build_nbt lib limit (nodes w) _parent) as [v | e]; reflexivity.
Qed.

Lemma run_operation_parsed_objects limit _parent o w :
  parsed_objects (snd (run_operation lib limit _parent o w)) = parsed_objects w.
Proof.
  destruct o; cbn [run_operation]; try apply on_nodes_parsed_objects.
  unfold bind. pose proof (NBTEditor_nbt_parsed_objects limit _parent w) as H.
  destruct (NBTEditor_nbt lib limit _parent w) as [[r | e] w']; exact H.
Qed.

Lemma run_operations_parsed_objects limit _parent os w :
  parsed_objects (run_operations lib limit _parent os w) = parsed_objects w.
Proof.
  revert w. induction os as [| o os IH]; intros w; cbn; [reflexivity |].
  rewrite IH. apply run_operation_parsed_objects.
Qed.

(** The constructor, statement by statement: the state after each, and the
    result.  The copy is the new object at [length (heap w)]. *)
Lemma NBTEditor_init_run (limit0 : nat) (nbt_data : addr) (w : world) (v : nbt) :
  heap w !! nbt_data = Some v ->
  let _parent := length (nodes w) in
  let root := nodes w ++ [{| _parent := None; _name := ""; _type := TAG_Compound;
                             _body := Children [] |}] in
  let parsed := parse_nbt v (Some _parent) root in
  let w1 := {| heap := heap w ++ [v]; nodes := snd parsed;
               parsed_objects := length (heap w) :: parsed_objects w |} in
  NBTEditor_init limit0 nbt_data w
  = (match fst parsed with
     | Ok _ =>
         match _build_tree limit0 (snd parsed) _parent with
         | Ok _ => Ok _parent
         | Raise e => Raise e
         end
     | Raise e => Raise e
     end, w1).
Proof.
  intros Hv. cbv zeta.
  unfold NBTEditor_init, deepcopy, parse_object, read_nodes, bind, on_nodes,
    read_nbt, new_nbt, ret.
  cbn. rewrite Hv. cbn. rewrite list_lookup_middle by reflexivity.
  destruct (parse_nbt v _ _) as [[[] | e] s']; cbn; [| reflexivity].
  destruct (_build_tree limit0 s' _) as [[] | e]; reflexivity.
Qed.

Lemma NBTEditor_init_spec (limit0 : nat) (nbt_data : addr) (w w1 : world)
    (_parent : addr) :
  NBTEditor_init limit0 nbt_data w = (Ok _parent, w1) ->
  exists v root,
    heap w !! nbt_data = Some v
    /\ ParsedNBTContainer None "" TAG_Compound (nodes w) = (Ok _parent, root)
    /\ heap w1 = heap w ++ [v]
    /\ parsed_objects w1 = length (heap w) :: parsed_objects w
    /\ parse_nbt v (Some _parent) root = (Ok tt, nodes w1)
    /\ _build_tree limit0 (nodes w1) _parent = Ok tt.
Proof.
  intros H.
  destruct (heap w !! nbt_data) as [v |] eqn:Hv.
  - rewrite (NBTEditor_init_run limit0 nbt_data w v Hv) in H.
    destruct (parse_nbt v _ _) as [[[] | e] s'] eqn:Hp; cbn [fst snd] in H;
      [| discriminate].
    destruct (_build_tree limit0 s' _) as [[] | e] eqn:Hb; [| discriminate].
    injection H as <- <-. exists v. eexists. cbn [heap nodes parsed_objects].
    split; [reflexivity |]. split; [reflexivity |]. split; [reflexivity |].
    split; [reflexivity |]. split; [exact Hp | exact Hb].
  - unfold NBTEditor_init, deepcopy, bind, on_nodes, read_nbt in H.
    cbn in H. rewrite Hv in H. discriminate.
Qed.

(** C8. When the constructor returns, the object [parse_nbt] was called on,
    the one whose payload objects the parsed tree holds, is a new object: it
    has the content of the caller's [nbt_data] and is none of the objects the
    caller had.  Whatever operations follow (add, edit, delete, reading
    [nbt]), every object the caller had is still there unchanged, and the tree
    has come to hold the payloads of no other object.  What [nbt] gives
    depends on the parsed tree only: in two states with the same tree it
    raises the same exception, or returns each time a new object whose
    content is what [build_nbt] gives for the root. *)
Theorem editor_never_mutates_input
    (limit0 limit : nat) (nbt_data : addr) (w w1 : world) (_parent : addr) :
  NBTEditor_init limit0 nbt_data w = (Ok _parent, w1) ->
  (exists v copy root,
     heap w !! nbt_data = Some v
     /\ copy = length (heap w)
     /\ copy <> nbt_data
     /\ heap w !! copy = None
     /\ heap w1 = heap w ++ [v]
     /\ heap w1 !! copy = Some v
     /\ parsed_objects w1 = copy :: parsed_objects w
     /\ ParsedNBTContainer None "" TAG_Compound (nodes w) = (Ok _parent, root)
     /\ parse_nbt v (Some _parent) root = (Ok tt, nodes w1))
  /\ (forall os,
        (forall a v, heap w !! a = Some v ->
           heap (run_operations lib limit _parent os w1) !! a = Some v)
        /\ parsed_objects (run_operations lib limit _parent os w1)
           = length (heap w) :: parsed_objects w)
  /\ (forall wa wb,
        nodes wa = nodes wb ->
        match NBTEditor_nbt lib limit _parent wa,
              NBTEditor_nbt lib limit _parent wb with
        | (Ok ra, wa'), (Ok rb, wb') =>
            exists v, build_nbt lib limit (nodes wa) _parent = Ok v
                      /\ ra = length (heap wa) /\ heap wa' = heap wa ++ [v]
                      /\ rb = length (heap wb) /\ heap wb' = heap wb ++ [v]
                      /\ nodes wa' = nodes wa /\ nodes wb' = nodes wb
        | (Raise ea, wa'), (Raise eb, wb') => ea = eb /\ wa' = wa /\ wb' = wb
        | _, _ => False
        end).
Proof.
  intros Hinit.
  destruct (NBTEditor_init_spec _ _ _ _ _ Hinit) as (v & root & H1 & H2 & H3 & H4 & H5 & _).
  split; [| split].
  - exists v, (length (heap w)), root.
    split; [exact H1 |]. split; [reflexivity |].
    split; [apply lookup_lt_Some in H1; lia |].
    split; [apply lookup_ge_None; lia |].
    split; [exact H3 |].
    split; [rewrite H3; apply list_lookup_middle; reflexivity |].
    split; [exact H4 |]. split; [exact H2 | exact H5].
  - intros os. split.
    + intros a x Ha.
      apply (grows_lookup w1); [apply run_operations_grows |].
      rewrite H3. apply lookup_app_l_Some. exact Ha.
    + rewrite run_operations_parsed_objects. exact H4.
  - intros wa wb Hn. unfold NBTEditor_nbt, new_nbt. rewrite <- Hn.
    destruct (build_nbt lib limit (nodes wa) _parent) as [v' | e].
    + exists v'. cbn. rewrite Hn. repeat split; reflexivity.
    + repeat split; reflexivity.
Qed.

(** *** The round trip on parsable documents *)

Lemma frame_refl p s : frame p s s.
Proof. split; auto. Qed.

Lemma frame_trans p s1 s2 s3 : frame p s1 s2 -> frame p s2 s3 -> frame p s1 s3.
Proof.
  intros [H1 H2] [H3 H4]. split; [lia |].
  intros b Hb Hne. rewrite H4 by (auto; lia). apply H2; auto.
Qed.

Lemma repr_value_inv lo s a t v :
  repr lo s a (NValue t v) ->
  lo <= a /\ exists n, s !! a = Some n /\ _type n = TAG_Value t /\ _body n = Value v.
Proof. intros H. inversion H; subst. eauto 6. Qed.

Lemma repr_compound_inv lo s a items :
  repr lo s a (NCompound items) ->
  lo <= a /\ exists n cs,
    s !! a = Some n /\ _type n = TAG_Compound /\ _body n = Children cs
    /\ Forall2 (fun c kv => (_name <$> s !! c) = Some (fst kv)
                             /\ repr lo s c (snd kv)) cs items.
Proof. intros H. inversion H; subst. eauto 8. Qed.

Lemma repr_list_inv lo s a elems :
  repr lo s a (NList elems) ->
  lo <= a /\ exists n cs,
    s !! a = Some n /\ _type n = TAG_List /\ _body n = Children cs
    /\ Forall2 (repr lo s) cs elems.
Proof. intros H. inversion H; subst. eauto 8. Qed.

Lemma repr_lo lo s a d : repr lo s a d -> lo <= a.
Proof. intros H. inversion H; assumption. Qed.

(** Mapping a property of the represented tags over the children. *)
Lemma Forall2_items_impl (R R' : addr -> nbt -> Prop) (N : addr -> string -> Prop)
    (Q : nbt -> Prop) (cs : list addr) (items : list (string * nbt)) :
  Forall (fun kv => forall c, Q (snd kv) -> R c (snd kv) -> R' c (snd kv)) items ->
  Forall (fun kv => Q (snd kv)) items ->
  Forall2 (fun c kv => N c (fst kv) /\ R c (snd kv)) cs items ->
  Forall2 (fun c kv => N c (fst kv) /\ R' c (snd kv)) cs items.
Proof.
  intros HI HQ H. revert HI HQ.
  induction H as [| c kv cs items [Hn Hr] _ IH]; intros HI HQ; constructor.
  - apply Forall_cons in HI as [HI _]. apply Forall_cons in HQ as [HQ _].
    split; [exact Hn | apply HI; assumption].
  - apply Forall_cons in HI as [_ HI]. apply Forall_cons in HQ as [_ HQ].
    apply IH; assumption.
Qed.

Lemma Forall2_elems_impl (R R' : addr -> nbt -> Prop) (Q : nbt -> Prop)
    (cs : list addr) (elems : list nbt) :
  Forall (fun e => forall c, Q e -> R c e -> R' c e) elems ->
  Forall Q elems ->
  Forall2 R cs elems -> Forall2 R' cs elems.
Proof.
  intros HI HQ H. revert HI HQ.
  induction H as [| c e cs elems Hr _ IH]; intros HI HQ; constructor.
  - apply Forall_cons in HI as [HI _]. apply Forall_cons in HQ as [HQ _].
    apply HI; assumption.
  - apply Forall_cons in HI as [_ HI]. apply Forall_cons in HQ as [_ HQ].
    apply IH; assumption.
Qed.

Lemma Forall_True {A : Type} (l : list A) : Forall (fun _ => True) l.
Proof. induction l; constructor; auto. Qed.

Lemma repr_mono lo lo' s d : forall a,
  lo' <= lo -> repr lo s a d -> repr lo' s a d.
Proof.
  induction d as [t v | items IH | elems IH] using nbt_induction; intros a Hle H.
  - apply repr_value_inv in H as (Ha & n & H1 & H2 & H3).
    eapply repr_value; eauto; lia.
  - apply repr_compound_inv in H as (Ha & n & cs & H1 & H2 & H3 & H4).
    eapply repr_compound; eauto; [lia |].
    apply (Forall2_items_impl (repr lo s) (repr lo' s)
             (fun c k => (_name <$> s !! c) = Some k) (fun _ => True));
      [| apply Forall_True | exact H4].
    eapply Forall_impl; [exact IH |]. intros kv Hkv c _ Hr. apply Hkv; auto.
  - apply repr_list_inv in H as (Ha & n & cs & H1 & H2 & H3 & H4).
    eapply repr_list; eauto; [lia |].
    apply (Forall2_elems_impl (repr lo s) (repr lo' s) (fun _ => True));
      [| apply Forall_True | exact H4].
    eapply Forall_impl; [exact IH |]. intros e He c _ Hr. apply He; auto.
Qed.

Lemma repr_stable lo p s s' d : forall a,
  p < lo -> frame p s s' -> repr lo s a d -> repr lo s' a d.
Proof.
  intros a Hp [Hlen Hsame]. revert a.
  assert (Hkeep : forall b n, lo <= b -> s !! b = Some n -> s' !! b = Some n).
  { intros b n Hb Hl. rewrite Hsame; [exact Hl | | lia].
    eapply lookup_lt_Some; eauto. }
  induction d as [t v | items IH | elems IH] using nbt_induction; intros a H.
  - apply repr_value_inv in H as (Ha & n & H1 & H2 & H3).
    eapply repr_value; eauto.
  - apply repr_compound_inv in H as (Ha & n & cs & H1 & H2 & H3 & H4).
    eapply repr_compound; eauto.
    clear H1 H2 H3. revert IH.
    induction H4 as [| c kv cs items [Hn Hr] _ IHf]; intros IH; constructor.
    + apply Forall_cons in IH as [IH _]. split; [| apply IH; exact Hr].
      destruct (s !! c) as [nc |] eqn:Hc; [| discriminate].
      rewrite (Hkeep c nc); auto. apply (repr_lo _ _ _ _ Hr).
    + apply IHf. apply Forall_cons in IH as [_ IH]. exact IH.
  - apply repr_list_inv in H as (Ha & n & cs & H1 & H2 & H3 & H4).
    eapply repr_list; eauto.
    apply (Forall2_elems_impl (repr lo s) (repr lo s') (fun _ => True));
      [| apply Forall_True | exact H4].
    eapply Forall_impl; [exact IH |]. intros e He c _ Hr. apply He; auto.
Qed.

Lemma setitem_fresh (items : list (string * nbt)) (k : string) (v : nbt) :
  k ∉ items.*1 -> setitem items k v = items ++ [(k, v)].
Proof.
  induction items as [| [k' w] items IH]; intros Hk; [reflexivity |].
  cbn in Hk. apply not_elem_of_cons in Hk as [Hne Hk]. cbn.
  destruct (String.eqb_spec k' k) as [-> | _]; [congruence |].
  rewrite IH by exact Hk. reflexivity.
Qed.

Lemma build_items_ok (s : store) (build : addr -> result nbt)
    (cs : list addr) (items : list (string * nbt)) :
  Forall2 (fun c kv => (_name <$> s !! c) = Some (fst kv) /\ build c = Ok (snd kv))
          cs items ->
  forall acc, NoDup (acc.*1 ++ items.*1) ->
    build_items s build acc cs = Ok (acc ++ items).
Proof.
  induction 1 as [| c [k v] cs items [Hn Hb] _ IH]; intros acc Hnd; cbn.
  - rewrite app_nil_r. reflexivity.
  - cbn in Hn, Hb. destruct (s !! c) as [n |]; [| discriminate].
    cbn in Hn. injection Hn as Hn. rewrite Hb, Hn.
    cbn in Hnd. apply NoDup_app in Hnd as (Hacc & Hdisj & Hit).
    apply NoDup_cons in Hit as [Hk Hit].
    rewrite setitem_fresh.
    + rewrite IH.
      * rewrite <- app_assoc. reflexivity.
      * rewrite fmap_app. cbn. rewrite <- app_assoc. cbn.
        apply NoDup_app. split; [exact Hacc |]. split; [exact Hdisj |].
        apply NoDup_cons. split; assumption.
    + intros Hin. apply (Hdisj k Hin). apply elem_of_cons. left. reflexivity.
Qed.

Lemma build_elems_ok (build : addr -> result nbt) (cs : list addr) (elems : list nbt) :
  Forall2 (fun c e => build c = Ok e) cs elems ->
  forall acc, appends lib acc elems ->
    build_elems lib build acc cs = Ok (acc ++ elems).
Proof.
  induction 1 as [| c e cs elems Hb _ IH]; intros acc Happ; cbn.
  - rewrite app_nil_r. reflexivity.
  - destruct Happ as [Ha Hmore]. rewrite Hb, Ha. cbn [of_library].
    rewrite IH by exact Hmore. rewrite <- app_assoc. reflexivity.
Qed.

Lemma Forall2_uniform {A B : Type} (P : nat -> A -> B -> Prop) (l : list A) (k : list B) :
  Forall2 (fun a b => exists f0, forall f, f0 <= f -> P f a b) l k ->
  exists f0, forall f, f0 <= f -> Forall2 (P f) l k.
Proof.
  induction 1 as [| a b l k [f1 H1] _ [f2 H2]].
  - exists 0. intros f _. constructor.
  - exists (Nat.max f1 f2). intros f Hf. constructor; [apply H1 | apply H2]; lia.
Qed.

(** With enough depth allowed, [build_nbt] returns the tag a node stands
    for, when the library makes that tag again from its parts. *)
Lemma build_nbt_repr (lo : nat) (s : store) (d : nbt) : forall a,
  parsable d -> rebuilds lib d -> repr lo s a d ->
  exists f0, forall limit, f0 <= limit -> build_nbt lib limit s a = Ok d.
Proof.
  induction d as [t v | items IH | elems IH] using nbt_induction; intros a Hp Hlib Hr.
  - apply repr_value_inv in Hr as (Ha & n & H1 & H2 & H3).
    inversion Hlib as [t' v' Hnew | |]; subst.
    exists 1. intros [| limit] Hl; [lia |]. cbn [build_nbt].
    rewrite H1, H3, H2, Hnew. reflexivity.
  - apply repr_compound_inv in Hr as (Ha & n & cs & H1 & H2 & H3 & H4).
    inversion Hp as [| items' Hnd Hall |]; subst.
    inversion Hlib as [| items' Hlibs |]; subst.
    assert (Hch : Forall2 (fun c kv => exists f0, forall f, f0 <= f ->
                    (_name <$> s !! c) = Some (fst kv)
                    /\ build_nbt lib f s c = Ok (snd kv)) cs items).
    { clear H1 H2 H3 Hnd Hp Hlib. revert IH Hall Hlibs.
      induction H4 as [| c kv cs items [Hn Hrc] _ IHf]; intros IH Hall Hlibs;
        constructor.
      - apply Forall_cons in IH as [IH _]. apply Forall_cons in Hall as [Hpc _].
        apply Forall_cons in Hlibs as [Hlc _].
        destruct (IH c Hpc Hlc Hrc) as [f0 Hf0]. exists f0. intros f Hf.
        split; [exact Hn | apply Hf0; exact Hf].
      - apply Forall_cons in IH as [_ IH]. apply Forall_cons in Hall as [_ Hall].
        apply Forall_cons in Hlibs as [_ Hlibs].
        apply IHf; assumption. }
    apply Forall2_uniform in Hch as [f1 Hf1].
    exists (S f1). intros [| limit] Hl; [lia |]. cbn [build_nbt]. rewrite H1, H3, H2.
    rewrite (build_items_ok s (build_nbt lib limit s) cs items); [reflexivity | |].
    + apply Hf1. lia.
    + cbn. exact Hnd.
  - apply repr_list_inv in Hr as (Ha & n & cs & H1 & H2 & H3 & H4).
    inversion Hp as [| | elems' Hall]; subst.
    inversion Hlib as [| | elems' Hlibs Happ]; subst.
    assert (Hch : Forall2 (fun c e => exists f0, forall f, f0 <= f ->
                    build_nbt lib f s c = Ok e) cs elems).
    { clear H1 H2 H3 Hp Hlib Happ. revert IH Hall Hlibs.
      induction H4 as [| c e cs elems Hrc _ IHf]; intros IH Hall Hlibs; constructor.
      - apply Forall_cons in IH as [IH _]. apply Forall_cons in Hall as [[Hpc _] _].
        apply Forall_cons in Hlibs as [Hlc _].
        apply (IH c Hpc Hlc Hrc).
      - apply Forall_cons in IH as [_ IH]. apply Forall_cons in Hall as [_ Hall].
        apply Forall_cons in Hlibs as [_ Hlibs].
        apply IHf; assumption. }
    apply Forall2_uniform in Hch as [f1 Hf1].
    exists (S f1). intros [| limit] Hl; [lia |]. cbn [build_nbt]. rewrite H1, H3, H2.
    rewrite (build_elems_ok (build_nbt lib limit s) cs elems); [reflexivity | | exact Happ].
    apply Hf1. lia.
Qed.

Lemma set_body_same (n : node) (cs : list addr) :
  _body n = Children cs -> set_body n (Children cs) = n.
Proof. destruct n as [p nm ty b]. cbn. intros ->. reflexivity. Qed.

Lemma frame_insert (p : addr) (s : store) (n : node) : frame p s (<[p := n]> s).
Proof.
  split; [rewrite length_insert; lia |].
  intros b _ Hne. apply list_lookup_insert_ne. congruence.
Qed.

Lemma frame_new (p : addr) (s : store) (n : node) : frame p s (s ++ [n]).
Proof.
  split; [rewrite length_app; lia |].
  intros b Hb _. apply lookup_app_l. exact Hb.
Qed.

(** Building a node, filling it by [m], and appending it to the children of
    [p]. *)
Lemma attach (m : addr -> M store unit) (n : node) (d : nbt) (p : addr)
    (s s2 : store) (np : node) (cs0 : list addr) :
  s !! p = Some np -> _body np = Children cs0 ->
  m (length s) (s ++ [n]) = (Ok tt, s2) ->
  frame (length s) (s ++ [n]) s2 ->
  (_name <$> s2 !! length s) = Some (_name n) ->
  repr (length s) s2 (length s) d ->
  exists s1,
    bind (new_object n) (fun a => bind (m a) (fun _ => add_child p a)) s = (Ok tt, s1)
    /\ frame p s s1
    /\ s1 !! p = Some (set_body np (Children (cs0 ++ [length s])))
    /\ (_name <$> s1 !! length s) = Some (_name n)
    /\ repr (length s) s1 (length s) d.
Proof.
  intros Hlp Hbp Hm [Hlen Hsame] Hname Hrepr.
  assert (Hplt : p < length s) by (eapply lookup_lt_Some; eauto).
  assert (Hp2 : s2 !! p = Some np).
  { rewrite Hsame; [| rewrite length_app; cbn; lia | lia].
    apply lookup_app_l_Some. exact Hlp. }
  exists (<[p := set_body np (Children (cs0 ++ [length s]))]> s2).
  split; [| split; [| split; [| split]]].
  - unfold bind, new_object. rewrite Hm. unfold add_child. rewrite Hp2, Hbp.
    reflexivity.
  - split; [rewrite length_insert; rewrite length_app in Hlen; lia |].
    intros b Hb Hne. rewrite list_lookup_insert_ne by congruence.
    rewrite Hsame; [| rewrite length_app; cbn; lia | lia].
    apply lookup_app_l. exact Hb.
  - apply list_lookup_insert_eq. eapply lookup_lt_Some; eauto.
  - rewrite list_lookup_insert_ne by lia. exact Hname.
  - apply (repr_stable (length s) p s2); [exact Hplt | apply frame_insert | exact Hrepr].
Qed.

Lemma attaches_value (name : string) (t : ValueType) (v : payload) (p : addr) :
  attaches (let! c := ParsedNBTValue (Some p) name v (TAG_Value t) in add_child p c)
           name (NValue t v) p.
Proof.
  intros s np cs0 Hlp Hbp.
  set (n := {| _parent := Some p; _name := name; _type := TAG_Value t;
               _body := Value v |}).
  destruct (attach (fun _ => ret tt) n (NValue t v) p s (s ++ [n]) np cs0 Hlp Hbp)
    as (s1 & H1 & H2 & H3 & H4 & H5).
  - reflexivity.
  - apply frame_refl.
  - rewrite list_lookup_middle by reflexivity. reflexivity.
  - eapply repr_value; [lia | apply list_lookup_middle; reflexivity | |]; reflexivity.
  - exists s1. exact (conj H1 (conj H2 (conj H3 (conj H4 H5)))).
Qed.

Lemma attaches_compound (name : string) (items : list (string * nbt)) (p : addr) :
  parses_items items ->
  attaches (let! a := ParsedNBTContainer (Some p) name TAG_Compound in
            parse_nbt (NCompound items) (Some a) ;; add_child p a)
           name (NCompound items) p.
Proof.
  intros Hitems s np cs0 Hlp Hbp.
  set (n := {| _parent := Some p; _name := name; _type := TAG_Compound;
               _body := Children [] |}).
  destruct (Hitems (length s) (s ++ [n]) n []) as (s2 & cs & Hrun & Hfr & Hl2 & Hch).
  { apply list_lookup_middle. reflexivity. }
  { reflexivity. }
  destruct (attach (fun a => parse_nbt (NCompound items) (Some a)) n
              (NCompound items) p s s2 np cs0 Hlp Hbp)
    as (s1 & H1 & H2 & H3 & H4 & H5).
  - exact Hrun.
  - exact Hfr.
  - rewrite Hl2. reflexivity.
  - eapply repr_compound; [lia | exact Hl2 | reflexivity | reflexivity |].
    eapply Forall2_impl; [exact Hch |]. intros c kv [Hn Hr].
    split; [exact Hn |]. apply (repr_mono (length (s ++ [n]))); [| exact Hr].
    rewrite length_app. lia.
  - exists s1. exact (conj H1 (conj H2 (conj H3 (conj H4 H5)))).
Qed.

Lemma attaches_list (name : string) (elems : list nbt) (p : addr) :
  parses_elems elems ->
  attaches (let! a := ParsedNBTContainer (Some p) name TAG_List in
            parse_children parse_nbt a elems ;; add_child p a)
           name (NList elems) p.
Proof.
  intros Helems s np cs0 Hlp Hbp.
  set (n := {| _parent := Some p; _name := name; _type := TAG_List;
               _body := Children [] |}).
  destruct (Helems (length s) (s ++ [n]) n []) as (s2 & cs & Hrun & Hfr & Hl2 & Hch).
  { apply list_lookup_middle. reflexivity. }
  { reflexivity. }
  destruct (attach (fun a => parse_children parse_nbt a elems) n
              (NList elems) p s s2 np cs0 Hlp Hbp)
    as (s1 & H1 & H2 & H3 & H4 & H5).
  - exact Hrun.
  - exact Hfr.
  - rewrite Hl2. reflexivity.
  - eapply repr_list; [lia | exact Hl2 | reflexivity | reflexivity |].
    eapply Forall2_impl; [exact Hch |]. intros c e Hr.
    apply (repr_mono (length (s ++ [n]))); [| exact Hr].
    rewrite length_app. lia.
  - exists s1. exact (conj H1 (conj H2 (conj H3 (conj H4 H5)))).
Qed.

Lemma parses_items_step (key : string) (value : nbt) (rest : list (string * nbt))
    (step : option addr -> M store unit) :
  (forall p s, parse_item parse_nbt (Some p) key value s = step (Some p) s) ->
  (forall p, attaches (step (Some p)) key value p) ->
  parses_items rest -> parses_items ((key, value) :: rest).
Proof.
  intros Hstep Hatt Hrest p s np cs0 Hlp Hbp.
  destruct (Hatt p s np cs0 Hlp Hbp) as (s1 & H1 & H2 & H3 & H4 & H5).
  destruct (Hrest p s1 _ (cs0 ++ [length s]) H3 eq_refl)
    as (s' & cs & Hrun & Hfr & Hl' & Hch).
  assert (Hplt : p < length s) by (eapply lookup_lt_Some; eauto).
  assert (Hc1 : length s < length s1).
  { destruct (s1 !! length s) eqn:Hx; [| discriminate].
    eapply lookup_lt_Some; eauto. }
  exists s', (length s :: cs). split; [| split; [| split]].
  - cbn [parse_items]. unfold bind at 1. rewrite Hstep, H1. exact Hrun.
  - eapply frame_trans; eauto.
  - rewrite Hl'. cbn. rewrite <- app_assoc. reflexivity.
  - constructor.
    + split.
      * destruct Hfr as [_ Hsame]. rewrite Hsame by lia. exact H4.
      * apply (repr_stable (length s) p s1); auto.
    + eapply Forall2_impl; [exact Hch |]. intros c kv [Hn Hr].
      split; [exact Hn |]. apply (repr_mono (length s1)); [lia | exact Hr].
Qed.

Lemma parses_elems_step (child : nbt) (more : list nbt) (step : addr -> M store unit) :
  (forall p s, parse_child parse_nbt p child s = step p s) ->
  (forall p, attaches (step p) "" child p) ->
  parses_elems more -> parses_elems (child :: more).
Proof.
  intros Hstep Hatt Hrest p s np cs0 Hlp Hbp.
  destruct (Hatt p s np cs0 Hlp Hbp) as (s1 & H1 & H2 & H3 & H4 & H5).
  destruct (Hrest p s1 _ (cs0 ++ [length s]) H3 eq_refl)
    as (s' & cs & Hrun & Hfr & Hl' & Hch).
  assert (Hplt : p < length s) by (eapply lookup_lt_Some; eauto).
  assert (Hc1 : length s < length s1).
  { destruct (s1 !! length s) eqn:Hx; [| discriminate].
    eapply lookup_lt_Some; eauto. }
  exists s', (length s :: cs). split; [| split; [| split]].
  - cbn [parse_children]. unfold bind at 1. rewrite Hstep, H1. exact Hrun.
  - eapply frame_trans; eauto.
  - rewrite Hl'. cbn. rewrite <- app_assoc. reflexivity.
  - constructor.
    + apply (repr_stable (length s) p s1); auto.
    + eapply Forall2_impl; [exact Hch |]. intros c e Hr.
      apply (repr_mono (length s1)); [lia | exact Hr].
Qed.

Lemma parses_nil_items : parses_items [].
Proof.
  intros p s np cs0 Hlp Hbp. exists s, []. split; [reflexivity |].
  split; [apply frame_refl |]. split; [| constructor].
  rewrite app_nil_r, set_body_same; auto.
Qed.

Lemma parses_nil_elems : parses_elems [].
Proof.
  intros p s np cs0 Hlp Hbp. exists s, []. split; [reflexivity |].
  split; [apply frame_refl |]. split; [| constructor].
  rewrite app_nil_r, set_body_same; auto.
Qed.

(** [parse_nbt] returns on every parsable document and leaves under the parent
    a subtree for each item. *)
Lemma parse_nbt_parses (d : nbt) : parsable d -> parses d.
Proof.
  induction d as [t v | items IH | elems IH] using nbt_induction; intros Hp.
  - exact I.
  - inversion Hp as [| items' Hnd Hall |]; subst. clear Hp Hnd. cbn [parses].
    induction items as [| [key value] rest IHrest]; [apply parses_nil_items |].
    apply Forall_cons in IH as [IHv IH]. apply Forall_cons in Hall as [Hpv Hall].
    specialize (IHrest IH Hall). cbn [snd] in IHv, Hpv. specialize (IHv Hpv).
    destruct value as [t v | items' | elems'].
    + apply (parses_items_step key (NValue t v) rest
               (fun parent => match parent with
                  | Some p => let! c := ParsedNBTValue parent key v (TAG_Value t) in
                              add_child p c
                  | None => ret tt end));
        [reflexivity | | exact IHrest].
      intros p. apply attaches_value.
    + apply (parses_items_step key (NCompound items') rest
               (fun parent =>
                  let! a := ParsedNBTContainer parent key TAG_Compound in
                  parse_nbt (NCompound items') (Some a) ;; call_add_child parent a));
        [reflexivity | | exact IHrest].
      intros p. apply attaches_compound. exact IHv.
    + apply (parses_items_step key (NList elems') rest
               (fun parent =>
                  let! a := ParsedNBTContainer parent key TAG_List in
                  parse_children parse_nbt a elems' ;; call_add_child parent a));
        [reflexivity | | exact IHrest].
      intros p. apply attaches_list. exact IHv.
  - inversion Hp as [| | elems' Hall]; subst. clear Hp. cbn [parses].
    induction elems as [| child more IHmore]; [apply parses_nil_elems |].
    apply Forall_cons in IH as [IHc IH]. apply Forall_cons in Hall as [[Hpc Hnl] Hall].
    specialize (IHmore IH Hall). specialize (IHc Hpc).
    destruct child as [t v | items' | elems'].
    + apply (parses_elems_step (NValue t v) more
               (fun p => let! c := ParsedNBTValue (Some p) "" v (TAG_Value t) in
                         add_child p c));
        [reflexivity | | exact IHmore].
      intros p. apply attaches_value.
    + apply (parses_elems_step (NCompound items') more
               (fun p => let! a := ParsedNBTContainer (Some p) "" TAG_Compound in
                         parse_nbt (NCompound items') (Some a) ;; add_child p a));
        [reflexivity | | exact IHmore].
      intros p. apply attaches_compound. exact IHc.
    + exfalso. apply (Hnl elems'). reflexivity.
Qed.

(** X1. On a document in which every mapping has each key once and no list
    is an element of a list, parsing into an empty root of compound type
    returns; and when the library makes each tag of the document again from
    its parts, as it does for the tags it has made itself, then with enough
    depth allowed [build_nbt] of the root gives the document back. *)
Lemma parse_build_roundtrip (items : list (string * nbt)) (s : store)
    (root : addr) (n : node) :
  parsable (NCompound items) ->
  rebuilds lib (NCompound items) ->
  s !! root = Some n -> _type n = TAG_Compound -> _body n = Children [] ->
  exists s',
    parse_nbt (NCompound items) (Some root) s = (Ok tt, s')
    /\ exists f0, forall limit, f0 <= limit ->
         build_nbt lib limit s' root = Ok (NCompound items).
Proof.
  intros Hp Hlib Hl Hty Hb.
  destruct (parse_nbt_parses _ Hp root s n [] Hl Hb) as (s' & cs & Hrun & _ & Hl' & Hch).
  exists s'. split; [exact Hrun |].
  apply (build_nbt_repr 0 s' (NCompound items) root Hp Hlib).
  eapply repr_compound; [lia | exact Hl' | exact Hty | reflexivity |].
  eapply Forall2_impl; [exact Hch |]. intros c kv [Hn Hr].
  split; [exact Hn |]. apply (repr_mono (length s)); [lia | exact Hr].
Qed.

(** *** The constructor fills the tree widget *)

Lemma insert_sorted_Forall (P : addr -> Prop) (s : store) (c : addr) (l : list addr) :
  P c -> Forall P l -> Forall P (insert_sorted s c l).
Proof.
  intros Hc Hl. induction Hl as [| d rest Hd Hrest IH]; cbn.
  - constructor; [exact Hc | constructor].
  - destruct (String.leb _ _).
    + constructor; [exact Hc | constructor; assumption].
    + constructor; [exact Hd | exact IH].
Qed.

Lemma sorted_Forall (P : addr -> Prop) (s : store) (l : list addr) :
  Forall P l -> Forall P (sorted s l).
Proof.
  induction 1; cbn; [constructor | apply insert_sorted_Forall; assumption].
Qed.

Lemma Forall2_Forall_left {A B : Type} (R : A -> B -> Prop) (P : A -> Prop)
    (l : list A) (k : list B) :
  (forall a b, R a b -> P a) -> Forall2 R l k -> Forall P l.
Proof. intros H. induction 1; constructor; eauto. Qed.

Lemma sub_tree_children_ok (s : store) (F : addr -> result unit) (l : list addr) :
  Forall (fun c => exists n, s !! c = Some n
                             /\ (is_container n = true -> F c = Ok tt)) l ->
  sub_tree_children s F l = Ok tt.
Proof.
  induction 1 as [| c l (n & Hn & Hc) _ IH]; cbn; [reflexivity |].
  rewrite Hn. destruct (is_container n); [rewrite Hc by reflexivity |]; exact IH.
Qed.

(** With enough depth allowed, [_build_sub_tree] returns on a container that
    stands for a tag. *)
Lemma build_sub_tree_repr (lo : nat) (s : store) (d : nbt) : forall a,
  repr lo s a d ->
  exists f0, forall limit, f0 <= limit ->
    exists n, s !! a = Some n
              /\ (is_container n = true -> _build_sub_tree limit s a = Ok tt).
Proof.
  induction d as [t v | items IH | elems IH] using nbt_induction; intros a Hr.
  - apply repr_value_inv in Hr as (Ha & n & H1 & H2 & H3).
    exists 0. intros limit _. exists n. split; [exact H1 |].
    unfold is_container. rewrite H3. discriminate.
  - apply repr_compound_inv in Hr as (Ha & n & cs & H1 & H2 & H3 & H4).
    assert (Hch : Forall2 (fun c (kv : string * nbt) => exists f0, forall f, f0 <= f ->
                    exists nc, s !! c = Some nc
                      /\ (is_container nc = true -> _build_sub_tree f s c = Ok tt))
                    cs items).
    { clear H1 H2 H3. revert IH.
      induction H4 as [| c kv cs items [Hn Hrc] _ IHf]; intros IH; constructor.
      - apply Forall_cons in IH as [IH _]. apply (IH c Hrc).
      - apply Forall_cons in IH as [_ IH]. apply IHf; assumption. }
    apply Forall2_uniform in Hch as [f1 Hf1].
    exists (S f1). intros [| limit] Hl; [lia |]. exists n. split; [exact H1 |].
    intros _. cbn [_build_sub_tree]. rewrite H1, H3.
    apply sub_tree_children_ok, sorted_Forall.
    eapply Forall2_Forall_left; [| apply (Hf1 limit); lia].
    intros c kv H. exact H.
  - apply repr_list_inv in Hr as (Ha & n & cs & H1 & H2 & H3 & H4).
    assert (Hch : Forall2 (fun c (e : nbt) => exists f0, forall f, f0 <= f ->
                    exists nc, s !! c = Some nc
                      /\ (is_container nc = true -> _build_sub_tree f s c = Ok tt))
                    cs elems).
    { clear H1 H2 H3. revert IH.
      induction H4 as [| c e cs elems Hrc _ IHf]; intros IH; constructor.
      - apply Forall_cons in IH as [IH _]. apply (IH c Hrc).
      - apply Forall_cons in IH as [_ IH]. apply IHf; assumption. }
    apply Forall2_uniform in Hch as [f1 Hf1].
    exists (S f1). intros [| limit] Hl; [lia |]. exists n. split; [exact H1 |].
    intros _. cbn [_build_sub_tree]. rewrite H1, H3.
    apply sub_tree_children_ok, sorted_Forall.
    eapply Forall2_Forall_left; [| apply (Hf1 limit); lia].
    intros c e H. exact H.
Qed.

(** The node that stands for a tag is a container unless the tag is a value
    tag. *)
Lemma repr_container (lo : nat) (s : store) (a : addr) (d : nbt) (n : node) :
  repr lo s a d -> s !! a = Some n -> is_container n = negb (is_value d).
Proof.
  intros Hr Hn. unfold is_container.
  inversion Hr as [a' n' t v _ Hl _ Hb | a' n' cs items _ Hl _ Hb _
                   | a' n' cs elems _ Hl _ Hb _]; subst;
    rewrite Hl in Hn; injection Hn as <-; rewrite Hb; reflexivity.
Qed.

(** [_build_tree] on a root whose children stand for the items of a document:
    with enough depth allowed it returns when no item is a value tag, and
    raises [AttributeError] at the first item that is one. *)
Lemma tree_roots_repr (lo : nat) (s : store) (cs : list addr)
    (items : list (string * nbt)) :
  Forall2 (fun c kv => (_name <$> s !! c) = Some (fst kv) /\ repr lo s c (snd kv))
          cs items ->
  exists f0, forall limit, f0 <= limit ->
    tree_roots s (_build_sub_tree limit s) cs
    = if forallb (fun kv => negb (is_value (snd kv))) items then Ok tt
      else Raise AttributeError.
Proof.
  induction 1 as [| c kv cs items [Hn Hr] _ [f2 IH]].
  - exists 0. intros limit _. reflexivity.
  - destruct (build_sub_tree_repr lo s (snd kv) c Hr) as [f1 Hf1].
    exists (S (Nat.max f1 f2)). intros limit Hl. cbn [tree_roots forallb].
    destruct (Hf1 limit ltac:(lia)) as (nc & Hc & Hsub). rewrite Hc.
    pose proof (repr_container lo s c (snd kv) nc Hr Hc) as Hk.
    destruct (is_value (snd kv)); cbn [negb andb] in *.
    + destruct limit as [| limit]; [lia |]. cbn [_build_sub_tree]. rewrite Hc.
      unfold is_container in Hk. destruct (_body nc); [reflexivity | discriminate].
    + rewrite (Hsub Hk). apply IH. lia.
Qed.

Lemma parse_nbt_build_tree (items : list (string * nbt)) (s : store) (root : addr)
    (n : node) :
  parsable (NCompound items) ->
  s !! root = Some n -> _body n = Children [] ->
  exists s',
    parse_nbt (NCompound items) (Some root) s = (Ok tt, s')
    /\ (_type n = TAG_Compound -> repr 0 s' root (NCompound items))
    /\ exists f0, forall limit, f0 <= limit ->
         _build_tree limit s' root
         = if forallb (fun kv => negb (is_value (snd kv))) items then Ok tt
           else Raise AttributeError.
Proof.
  intros Hp Hl Hb.
  destruct (parse_nbt_parses _ Hp root s n [] Hl Hb) as (s' & cs & Hrun & _ & Hl' & Hch).
  exists s'. split; [exact Hrun |]. split.
  - intros Hty. eapply repr_compound; [lia | exact Hl' | exact Hty | reflexivity |].
    eapply Forall2_impl; [exact Hch |]. intros c kv [Hn Hr].
    split; [exact Hn |]. apply (repr_mono (length s)); [lia | exact Hr].
  - destruct (tree_roots_repr (length s) s' cs items Hch) as [f0 Hf0].
    exists f0. intros limit Hlim. unfold _build_tree. rewrite Hl'. cbn.
    apply Hf0. exact Hlim.
Qed.

(** X2. The same for the editor, for a document the caller holds in which
    every mapping has each key once and no list is an element of a list.
    With enough depth allowed, the constructor raises [AttributeError] when
    an item at the top of the document is a value tag, since
    [_build_sub_tree] reads the [children] of its node.  When no item at the
    top is a value tag the constructor returns; and when, moreover, the
    library makes each tag of the document again from its parts, the object
    [nbt] then returns is a new one, equal to the caller's document, which is
    still in its place. *)
Lemma editor_roundtrip (items : list (string * nbt)) (nbt_data : addr) (w : world) :
  parsable (NCompound items) ->
  heap w !! nbt_data = Some (NCompound items) ->
  exists f0, forall limit0, f0 <= limit0 ->
    (Exists (fun kv => is_value (snd kv) = true) items ->
     fst (NBTEditor_init limit0 nbt_data w) = Raise AttributeError)
    /\ (Forall (fun kv => is_value (snd kv) = false) items ->
        exists _parent w1,
          NBTEditor_init limit0 nbt_data w = (Ok _parent, w1)
          /\ (rebuilds lib (NCompound items) ->
              exists f1, forall limit, f1 <= limit ->
                exists r w2,
                  NBTEditor_nbt lib limit _parent w1 = (Ok r, w2)
                  /\ r <> nbt_data
                  /\ heap w2 !! r = Some (NCompound items)
                  /\ heap w2 !! nbt_data = Some (NCompound items))).
Proof.
  intros Hp Hd.
  set (n := {| _parent := None; _name := ""; _type := TAG_Compound;
               _body := Children [] |}).
  destruct (parse_nbt_build_tree items (nodes w ++ [n]) (length (nodes w)) n Hp)
    as (s' & Hrun & Hrepr & f0 & Hf0);
    [apply list_lookup_middle; reflexivity | reflexivity |].
  specialize (Hrepr eq_refl).
  exists f0. intros limit0 Hlim0.
  pose proof (NBTEditor_init_run limit0 nbt_data w _ Hd) as Hinit.
  cbv zeta in Hinit. fold n in Hinit. rewrite Hrun in Hinit. cbn [fst snd] in Hinit.
  rewrite (Hf0 limit0 Hlim0) in Hinit.
  split.
  - intros Hex. rewrite Hinit.
    replace (forallb (fun kv => negb (is_value (snd kv))) items) with false;
      [reflexivity |].
    symmetry. apply not_true_is_false. intros Hall.
    rewrite forallb_forall in Hall.
    apply Exists_exists in Hex as (kv & Hin & Hv).
    apply list_elem_of_In in Hin. specialize (Hall kv Hin).
    rewrite Hv in Hall. discriminate.
  - intros Hall.
    replace (forallb (fun kv => negb (is_value (snd kv))) items) with true in Hinit.
    2:{ symmetry. apply forallb_forall. intros kv Hin.
        rewrite Forall_forall in Hall. apply list_elem_of_In in Hin.
        rewrite (Hall kv Hin). reflexivity. }
    eexists _, _. split; [exact Hinit |].
    intros Hlib.
    destruct (build_nbt_repr 0 s' (NCompound items) (length (nodes w)) Hp Hlib Hrepr)
      as (f1 & Hf1).
    exists f1. intros limit Hlim. unfold NBTEditor_nbt, new_nbt. cbn [nodes heap].
    rewrite (Hf1 limit Hlim). eexists _, _. split; [reflexivity |].
    assert (Hlt : nbt_data < length (heap w)) by (eapply lookup_lt_Some; eauto).
    cbn [heap]. split; [rewrite length_app; cbn; lia |]. split.
    + apply list_lookup_middle. reflexivity.
    + apply lookup_app_l_Some, lookup_app_l_Some. exact Hd.
Qed.

(** *** When parse_nbt returns, and what the operations keep *)

Lemma bind_Ok {S A B} (m : M S A) (k : A -> M S B) s a s1 :
  m s = (Ok a, s1) -> bind m k s = k a s1.
Proof. intros H. unfold bind. rewrite H. reflexivity. Qed.

Lemma bind_Raise {S A B} (m : M S A) (k : A -> M S B) s e s1 :
  m s = (Raise e, s1) -> bind m k s = (Raise e, s1).
Proof. intros H. unfold bind. rewrite H. reflexivity. Qed.

Lemma bind_fst_Raise {S A B} (m : M S A) (k : A -> M S B) s e :
  fst (m s) = Raise e -> fst (bind m k s) = Raise e.
Proof.
  intros H. unfold bind. destruct (m s) as [[a | e'] s1]; cbn in H; [discriminate |].
  cbn. congruence.
Qed.

(** *** The exceptions of parse_nbt *)

Lemma only_bind {A B} (m : M store A) (k : A -> M store B) :
  raises_only_attribute_error m -> (forall a, raises_only_attribute_error (k a)) ->
  raises_only_attribute_error (bind m k).
Proof.
  intros Hm Hk s e s' H. unfold bind in H.
  destruct (m s) as [[a | e1] s1] eqn:Hms.
  - eapply Hk; eauto.
  - injection H as <- <-. eapply Hm; eauto.
Qed.

Lemma only_new_object n : raises_only_attribute_error (new_object n).
Proof. intros s e s' H. discriminate. Qed.

Lemma only_add_child p c : raises_only_attribute_error (add_child p c).
Proof.
  intros s e s' H. unfold add_child in H.
  destruct (s !! p) as [n |]; [destruct (_body n) |]; congruence.
Qed.

Lemma only_call_add_child p c : raises_only_attribute_error (call_add_child p c).
Proof.
  destruct p as [p |]; [apply only_add_child |].
  intros s e s' H. unfold call_add_child, raise in H. congruence.
Qed.

Lemma only_ret {A} (a : A) : raises_only_attribute_error (ret a).
Proof. intros s e s' H. discriminate. Qed.

Lemma only_parse_child (new_parent : addr) (child : nbt) :
  (forall parent, raises_only_attribute_error (parse_nbt child parent)) ->
  raises_only_attribute_error (parse_child parse_nbt new_parent child).
Proof.
  intros IH. destruct child as [t v | items | elems]; cbn [parse_child].
  - apply only_bind; [apply only_new_object | intros c; apply only_add_child].
  - apply only_bind; [apply only_new_object | intros c].
    apply only_bind; [apply IH | intros ?; apply only_add_child].
  - apply only_bind; [apply only_new_object | intros c].
    apply only_bind; [apply IH | intros ?; apply only_add_child].
Qed.

Lemma only_parse_item (parent : option addr) (key : string) (value : nbt) :
  (forall parent', raises_only_attribute_error (parse_nbt value parent')) ->
  (forall p elems, value = NList elems ->
     raises_only_attribute_error (parse_children parse_nbt p elems)) ->
  raises_only_attribute_error (parse_item parse_nbt parent key value).
Proof.
  intros IH IHl. destruct value as [t v | items | elems]; cbn [parse_item].
  - destruct parent as [p |]; [| apply only_ret].
    apply only_bind; [apply only_new_object | intros c; apply only_add_child].
  - apply only_bind; [apply only_new_object | intros c].
    apply only_bind; [apply IH | intros ?; apply only_call_add_child].
  - apply only_bind; [apply only_new_object | intros c].
    apply only_bind; [apply (IHl c elems eq_refl) | intros ?; apply only_call_add_child].
Qed.

Lemma parse_nbt_only_attribute_error (d : nbt) :
  (forall parent, raises_only_attribute_error (parse_nbt d parent))
  /\ (forall p elems, d = NList elems ->
        raises_only_attribute_error (parse_children parse_nbt p elems)).
Proof.
  induction d as [t v | items IH | elems IH] using nbt_induction.
  - split; [| discriminate]. intros parent s e s' H. cbn [parse_nbt] in H.
    unfold raise in H. congruence.
  - split; [| discriminate]. intros parent. cbn [parse_nbt].
    induction IH as [| [key value] rest [Hv Hl] _ IHrest]; cbn [parse_items].
    + apply only_ret.
    + apply only_bind; [apply only_parse_item; assumption | intros ?; exact IHrest].
  - split.
    + intros parent s e s' H. cbn [parse_nbt] in H. unfold raise in H. congruence.
    + intros p elems' Heq. injection Heq as <-.
      induction IH as [| child more [Hc _] _ IHmore]; cbn [parse_children].
      * apply only_ret.
      * apply only_bind; [apply only_parse_child; exact Hc | intros ?; exact IHmore].
Qed.

(** *** When parse_nbt returns *)

Lemma parse_nbt_parses_supported (d : nbt) : supported d = true -> parses d.
Proof.
  induction d as [t v | items IH | elems IH] using nbt_induction; intros Hs.
  - exact I.
  - cbn [parses]. cbn [supported] in Hs.
    induction items as [| [key value] rest IHrest]; [apply parses_nil_items |].
    apply Forall_cons in IH as [IHv IH]. cbn [forallb snd] in Hs.
    apply andb_true_iff in Hs as [Hv Hs]. cbn [snd] in IHv.
    specialize (IHrest IH Hs). specialize (IHv Hv).
    destruct value as [t v | items' | elems'].
    + apply (parses_items_step key (NValue t v) rest
               (fun parent => match parent with
                  | Some p => let! c := ParsedNBTValue parent key v (TAG_Value t) in
                              add_child p c
                  | None => ret tt end));
        [reflexivity | | exact IHrest].
      intros p. apply attaches_value.
    + apply (parses_items_step key (NCompound items') rest
               (fun parent =>
                  let! a := ParsedNBTContainer parent key TAG_Compound in
                  parse_nbt (NCompound items') (Some a) ;; call_add_child parent a));
        [reflexivity | | exact IHrest].
      intros p. apply attaches_compound. exact IHv.
    + apply (parses_items_step key (NList elems') rest
               (fun parent =>
                  let! a := ParsedNBTContainer parent key TAG_List in
                  parse_children parse_nbt a elems' ;; call_add_child parent a));
        [reflexivity | | exact IHrest].
      intros p. apply attaches_list. exact IHv.
  - cbn [parses]. cbn [supported] in Hs.
    induction elems as [| child more IHmore]; [apply parses_nil_elems |].
    apply Forall_cons in IH as [IHc IH]. cbn [forallb] in Hs.
    apply andb_true_iff in Hs as [Hc Hs]. specialize (IHmore IH Hs).
    destruct child as [t v | items' | elems']; [| | discriminate].
    + apply (parses_elems_step (NValue t v) more
               (fun p => let! c := ParsedNBTValue (Some p) "" v (TAG_Value t) in
                         add_child p c));
        [reflexivity | | exact IHmore].
      intros p. apply attaches_value.
    + apply (parses_elems_step (NCompound items') more
               (fun p => let! a := ParsedNBTContainer (Some p) "" TAG_Compound in
                         parse_nbt (NCompound items') (Some a) ;; add_child p a));
        [reflexivity | | exact IHmore].
      intros p. apply attaches_compound. exact (IHc Hc).
Qed.

(** A subtree that attaches leaves [p] a container. *)
Lemma attaches_run (step : M store unit) (name : string) (value : nbt) (p : addr)
    (s : store) (np : node) (cs0 : list addr) :
  attaches step name value p ->
  s !! p = Some np -> _body np = Children cs0 ->
  exists s1 np1 cs1,
    step s = (Ok tt, s1) /\ s1 !! p = Some np1 /\ _body np1 = Children cs1.
Proof.
  intros Hatt Hlp Hbp.
  destruct (Hatt s np cs0 Hlp Hbp) as (s1 & H1 & _ & H3 & _).
  exists s1, (set_body np (Children (cs0 ++ [length s]))), (cs0 ++ [length s]).
  auto.
Qed.

Lemma new_container_run parent name ty s :
  ParsedNBTContainer parent name ty s
  = (Ok (length s),
     s ++ [{| _parent := parent; _name := name; _type := ty; _body := Children [] |}]).
Proof. reflexivity. Qed.

(** The item of a mapping, or the element of a sequence, that does not parse. *)
Lemma item_fails_compound parent key items' s :
  fails_items items' ->
  fst (parse_item parse_nbt parent key (NCompound items') s) = Raise AttributeError.
Proof.
  intros Hf. cbn [parse_item type_of].
  erewrite bind_Ok by apply new_container_run.
  apply bind_fst_Raise. cbn [parse_nbt].
  eapply Hf; [apply list_lookup_middle; reflexivity | reflexivity].
Qed.

Lemma item_fails_list parent key elems' s :
  fails_elems elems' ->
  fst (parse_item parse_nbt parent key (NList elems') s) = Raise AttributeError.
Proof.
  intros Hf. cbn [parse_item type_of].
  erewrite bind_Ok by apply new_container_run.
  apply bind_fst_Raise.
  eapply Hf; [apply list_lookup_middle; reflexivity | reflexivity].
Qed.

Lemma child_fails_compound p items' s :
  fails_items items' ->
  fst (parse_child parse_nbt p (NCompound items') s) = Raise AttributeError.
Proof.
  intros Hf. cbn [parse_child type_of].
  erewrite bind_Ok by apply new_container_run.
  apply bind_fst_Raise. cbn [parse_nbt].
  eapply Hf; [apply list_lookup_middle; reflexivity | reflexivity].
Qed.

Lemma child_fails_list p elems' s :
  fst (parse_child parse_nbt p (NList elems') s) = Raise AttributeError.
Proof. reflexivity. Qed.

Lemma parse_nbt_fails (d : nbt) :
  supported d = false ->
  match d with
  | NValue _ _ => True
  | NCompound items => fails_items items
  | NList elems => fails_elems elems
  end.
Proof.
  induction d as [t v | items IH | elems IH] using nbt_induction; intros Hs.
  - exact I.
  - cbn [supported] in Hs.
    induction items as [| [key value] rest IHrest]; [discriminate |].
    apply Forall_cons in IH as [IHv IH]. cbn [forallb snd] in Hs. cbn [snd] in IHv.
    intros p s np cs0 Hlp Hbp. cbn [parse_items].
    destruct (supported value) eqn:Hv.
    + cbn [andb] in Hs. specialize (IHrest IH Hs).
      pose proof (parse_nbt_parses_supported value Hv) as Hpv.
      assert (Hatt : exists s1 np1 cs1,
                parse_item parse_nbt (Some p) key value s = (Ok tt, s1)
                /\ s1 !! p = Some np1 /\ _body np1 = Children cs1).
      { destruct value as [t v | items' | elems'].
        - apply (attaches_run _ key (NValue t v) p s np cs0); auto.
          apply attaches_value.
        - apply (attaches_run _ key (NCompound items') p s np cs0); auto.
          apply attaches_compound. exact Hpv.
        - apply (attaches_run _ key (NList elems') p s np cs0); auto.
          apply attaches_list. exact Hpv. }
      destruct Hatt as (s1 & np1 & cs1 & Hrun & Hl1 & Hb1).
      rewrite (bind_Ok _ _ _ _ _ Hrun). eapply IHrest; eauto.
    + apply bind_fst_Raise. specialize (IHv eq_refl).
      destruct value as [t v | items' | elems']; [discriminate | |].
      * apply item_fails_compound. exact IHv.
      * apply item_fails_list. exact IHv.
  - cbn [supported] in Hs.
    induction elems as [| child more IHmore]; [discriminate |].
    apply Forall_cons in IH as [IHc IH]. cbn [forallb] in Hs.
    intros p s np cs0 Hlp Hbp. cbn [parse_children].
    destruct child as [t v | items' | elems'].
    + cbn [andb supported] in Hs. specialize (IHmore IH Hs).
      destruct (attaches_run _ "" (NValue t v) p s np cs0 (attaches_value "" t v p)
                  Hlp Hbp) as (s1 & np1 & cs1 & Hrun & Hl1 & Hb1).
      rewrite (bind_Ok _ _ _ _ _ Hrun). eapply IHmore; eauto.
    + destruct (supported (NCompound items')) eqn:Hv.
      * cbn [andb] in Hs. specialize (IHmore IH Hs).
        destruct (attaches_run _ "" (NCompound items') p s np cs0
                    (attaches_compound "" items' p
                       (parse_nbt_parses_supported _ Hv)) Hlp Hbp)
          as (s1 & np1 & cs1 & Hrun & Hl1 & Hb1).
        rewrite (bind_Ok _ _ _ _ _ Hrun). eapply IHmore; eauto.
      * apply bind_fst_Raise. apply child_fails_compound. exact (IHc eq_refl).
    + apply bind_fst_Raise. apply child_fails_list.
Qed.

(** X3. With a container to fill, [parse_nbt] on a mapping returns exactly
    when no list of the document, at any depth, has a list among its
    elements; otherwise it raises [AttributeError]. *)
Theorem parse_nbt_returns_iff (items : list (string * nbt)) (root : addr)
    (s : store) (n : node) (cs : list addr) :
  s !! root = Some n -> _body n = Children cs ->
  fst (parse_nbt (NCompound items) (Some root) s)
  = if supported (NCompound items) then Ok tt else Raise AttributeError.
Proof.
  intros Hl Hb. destruct (supported (NCompound items)) eqn:Hs.
  - destruct (parse_nbt_parses_supported _ Hs root s n cs Hl Hb)
      as (s' & cs' & Hrun & _).
    cbn [parse_nbt]. rewrite Hrun. reflexivity.
  - apply (parse_nbt_fails _ Hs root s n cs Hl Hb).
Qed.

Lemma parse_nbt_returns_iff_witness :
  fst (parse_nbt sample_doc (Some 0) empty_root)
  = (if supported sample_doc then Ok tt else Raise AttributeError).
Proof.
  apply (parse_nbt_returns_iff _ 0 empty_root
           {| _parent := None; _name := ""; _type := TAG_Compound;
              _body := Children [] |} []); reflexivity.
Defined.

(** *** parse_nbt with the default parent *)

Lemma parse_item_None_container key value s :
  is_value value = false ->
  fst (parse_item parse_nbt None key value s) = Raise AttributeError.
Proof.
  intros Hv.
  destruct (parse_item parse_nbt None key value s) as [[[] | e] s'] eqn:Hrun.
  - exfalso. destruct value as [t v | items' | elems']; [discriminate | |];
      cbn [parse_item type_of] in Hrun; unfold bind in Hrun; cbn in Hrun.
    + destruct (parse_items _ _ _ _) as [[[] | e] s1]; discriminate.
    + destruct (parse_children _ _ _ _) as [[[] | e] s1]; discriminate.
  - cbn. f_equal.
    eapply (only_parse_item None key value); [| | exact Hrun].
    + intros parent'. apply parse_nbt_only_attribute_error.
    + intros p elems Heq. eapply parse_nbt_only_attribute_error. exact Heq.
Qed.

(** X4. Called with the default [parent=None], [parse_nbt] returns only for a
    mapping whose values are all value tags, and then builds nothing: the
    store is left as it was.  As soon as one value is a mapping or a sequence
    the call raises [AttributeError]. *)
Theorem parse_nbt_without_parent (items : list (string * nbt)) (s : store) :
  fst (parse_nbt (NCompound items) None s)
  = (if forallb (fun kv => is_value (snd kv)) items
     then Ok tt else Raise AttributeError)
  /\ (forallb (fun kv => is_value (snd kv)) items = true ->
      snd (parse_nbt (NCompound items) None s) = s).
Proof.
  cbn [parse_nbt]. induction items as [| [key value] rest IH].
  - split; reflexivity.
  - cbn [parse_items forallb snd]. destruct (is_value value) eqn:Hv.
    + destruct value as [t v | |]; try discriminate.
      cbn [andb]. exact IH.
    + cbn [andb]. split; [| discriminate].
      apply bind_fst_Raise. apply parse_item_None_container. exact Hv.
Qed.

(** *** build_nbt on children that share a name *)

Lemma setitem_keys (items : list (string * nbt)) (k : string) (v : nbt) :
  NoDup items.*1 -> NoDup (setitem items k v).*1.
Proof.
  induction items as [| [k' w] rest IH]; intros Hnd; cbn [setitem].
  - cbn. apply NoDup_singleton.
  - cbn in Hnd. apply NoDup_cons in Hnd as [Hnin Hnd].
    destruct (String.eqb k' k) eqn:Hk; cbn.
    + apply NoDup_cons. split; assumption.
    + apply NoDup_cons. split; [| apply IH; exact Hnd].
      intros Hin. apply Hnin. clear IH Hnd Hnin.
      induction rest as [| [k2 w2] rest IH]; cbn [setitem] in Hin.
      * cbn in Hin. apply list_elem_of_singleton in Hin. subst k'.
        rewrite String.eqb_refl in Hk. discriminate.
      * destruct (String.eqb k2 k); cbn in Hin |- *.
        -- exact Hin.
        -- apply elem_of_cons in Hin as [-> | Hin]; [left |right; apply IH; exact Hin].
Qed.

Lemma getitem_setitem (items : list (string * nbt)) (k name : string) (v : nbt) :
  getitem (setitem items k v) name
  = if String.eqb k name then Some v else getitem items name.
Proof.
  induction items as [| [k' w] rest IH]; cbn [setitem getitem].
  - reflexivity.
  - destruct (String.eqb k' k) eqn:Hk; cbn [getitem].
    + apply String.eqb_eq in Hk. subst k'. destruct (String.eqb k name); reflexivity.
    + rewrite IH. destruct (String.eqb k' name) eqn:Hn; [| reflexivity].
      apply String.eqb_eq in Hn. subst k'.
      destruct (String.eqb k name) eqn:Hkn; [| reflexivity].
      apply String.eqb_eq in Hkn. subst k. rewrite String.eqb_refl in Hk. discriminate.
Qed.

Lemma build_items_last (s : store) (build : addr -> result nbt) (cs : list addr) :
  forall acc items,
    build_items s build acc cs = Ok items -> NoDup acc.*1 ->
    NoDup items.*1
    /\ forall name,
         getitem items name
         = match last_named s cs name with
           | Some c => returned (build c)
           | None => getitem acc name
           end.
Proof.
  induction cs as [| c more IH]; intros acc items Hb Hnd; cbn [build_items] in Hb.
  - injection Hb as <-. split; [exact Hnd | reflexivity].
  - destruct (s !! c) as [nc |] eqn:Hc; [| discriminate].
    destruct (build c) as [v | e] eqn:Hv; [| discriminate].
    destruct (IH _ _ Hb (setitem_keys acc (_name nc) v Hnd)) as [Hnd' Hget].
    split; [exact Hnd' |]. intros name. rewrite Hget. cbn [last_named].
    destruct (last_named s more name) as [c' |]; [reflexivity |].
    rewrite Hc, getitem_setitem.
    destruct (String.eqb (_name nc) name); [rewrite Hv |]; reflexivity.
Qed.

Lemma build_nbt_Ok_lookup (limit : nat) (s : store) (c : addr) (v : nbt) :
  build_nbt lib limit s c = Ok v -> exists n, s !! c = Some n.
Proof.
  destruct limit; cbn [build_nbt]; [discriminate |].
  destruct (s !! c) as [n |]; [eauto | discriminate].
Qed.

Lemma build_items_returns (s : store) (build : addr -> result nbt) (cs : list addr) :
  (forall c, c ∈ cs -> exists n v, s !! c = Some n /\ build c = Ok v) ->
  forall acc, exists items, build_items s build acc cs = Ok items.
Proof.
  induction cs as [| c more IH]; intros H acc; cbn [build_items].
  - exists acc. reflexivity.
  - destruct (H c) as (n & v & Hn & Hv); [left |].
    rewrite Hn, Hv. apply IH. intros c' Hin. apply H. right. exact Hin.
Qed.

Lemma last_named_elem (s : store) (cs : list addr) (name : string) (c : addr) :
  last_named s cs name = Some c -> c ∈ cs.
Proof.
  induction cs as [| c0 more IH]; cbn [last_named]; [discriminate |].
  destruct (last_named s more name) as [c' |].
  - intros H. injection H as ->. right. apply IH. reflexivity.
  - destruct (s !! c0) as [n |]; [| discriminate].
    destruct (String.eqb (_name n) name); [| discriminate].
    intros H. injection H as ->. left.
Qed.

(** X5. On a compound node each of whose children builds, [build_nbt]
    returns, also when children share a name: the compound it returns has
    every key once, the entry of a name is what the last child of that name
    builds, and a name no child has is not a key. *)
Theorem build_nbt_last_child_wins (limit : nat) (s : store) (a : addr) (n : node)
    (cs : list addr) (built : addr -> nbt) :
  s !! a = Some n -> _type n = TAG_Compound -> _body n = Children cs ->
  (forall c, c ∈ cs -> build_nbt lib limit s c = Ok (built c)) ->
  exists items,
    build_nbt lib (S limit) s a = Ok (NCompound items)
    /\ NoDup items.*1
    /\ forall name,
         getitem items name
         = match last_named s cs name with
           | Some c => Some (built c)
           | None => None
           end.
Proof.
  intros Hl Hty Hb Hch.
  destruct (build_items_returns s (build_nbt lib limit s) cs) with (acc := @nil (string * nbt))
    as [items Hitems].
  { intros c Hin. specialize (Hch c Hin).
    destruct (build_nbt_Ok_lookup _ _ _ _ Hch) as [nc Hc]. eauto. }
  exists items. split.
  - cbn [build_nbt]. rewrite Hl, Hb, Hty, Hitems. reflexivity.
  - destruct (build_items_last s (build_nbt lib limit s) cs [] items Hitems)
      as [Hnd Hget]; [constructor |].
    split; [exact Hnd |]. intros name. rewrite Hget.
    destruct (last_named s cs name) as [c |] eqn:Hlast; [| reflexivity].
    rewrite (Hch c (last_named_elem _ _ _ _ Hlast)). reflexivity.
Qed.

(** *** The editor keeps the tree consistent *)

Lemma add_tag_run (p : addr) (name : string) (ty : TagType) (v : payload) (s : store) :
  add_tag p name ty v s = add_child p (length s) (s ++ [added_node p name ty v]).
Proof.
  unfold add_tag, bind, new_tag, assign_parent.
  destruct ty; cbn; rewrite list_lookup_middle by reflexivity;
    rewrite insert_app_r_alt by lia; rewrite Nat.sub_diag; reflexivity.
Qed.

Lemma kind_ok_added_node p name ty v : kind_ok (added_node p name ty v).
Proof. destruct ty; reflexivity. Qed.

Lemma add_tag_consistent (p : addr) (name : string) (ty : TagType) (v : payload)
    (s : store) :
  consistent s -> consistent (snd (add_tag p name ty v s)).
Proof.
  intros Hc. rewrite add_tag_run.
  assert (Hinv : inv [(length s, Some p)] (s ++ [added_node p name ty v])).
  { apply (inv_new_object [] s (added_node p name ty v)).
    - apply consistent_inv. exact Hc.
    - apply kind_ok_added_node.
    - intros cs Hb. destruct ty; cbn in Hb; congruence. }
  pose proof (triple_add_child [] p (length s) _ Hinv) as Ht.
  destruct (add_child p (length s) _) as [[[] | e] s']; cbn [snd];
    apply (inv_consistent [] s'); exact Ht.
Qed.

Lemma update_value_consistent (s : store) (t : addr) (n : node) (v0 v : payload)
    (name : string) :
  consistent s -> s !! t = Some n -> _body n = Value v0 ->
  consistent (<[t := {| _parent := _parent n; _name := name; _type := _type n;
                        _body := Value v |}]> s).
Proof.
  intros Hc Hl Hb p np cs Hlp Hbp.
  apply list_lookup_insert_Some in Hlp as [(-> & <- & _) | [Hne Hlp]];
    [cbn in Hbp; discriminate |].
  destruct (Hc p np cs Hlp Hbp) as [Hnd Hmem]. split; [exact Hnd |].
  intros c Hin. destruct (Hmem c Hin) as (nc & Hlc & Hpar & Hk).
  destruct (decide (c = t)) as [-> | Hct].
  - eexists. split.
    + apply list_lookup_insert_Some. left.
      split; [reflexivity |]. split; [reflexivity |]. eapply lookup_lt_Some; eauto.
    + assert (nc = n) by congruence. subst nc. split; [exact Hpar |].
      unfold kind_ok, is_container in Hk |- *. cbn. rewrite Hb in Hk. exact Hk.
  - exists nc. split; [| auto].
    apply list_lookup_insert_Some. right. auto.
Qed.

Lemma edit_tag_consistent (t : addr) (name : string) (v : payload) (s : store) :
  consistent s -> consistent (snd (edit_tag t name v s)).
Proof.
  intros Hc. unfold edit_tag, bind, get_value, update.
  destruct (s !! t) as [n |] eqn:Hl; [| exact Hc].
  destruct (_body n) as [v0 | cs] eqn:Hb; [| exact Hc].
  rewrite Hl, Hb. cbn [snd]. eapply update_value_consistent; eauto.
Qed.

Lemma delete_tag_consistent (t : addr) (s : store) :
  consistent s -> consistent (snd (delete_tag t s)).
Proof.
  intros Hc. unfold delete_tag, remove.
  destruct (s !! t) as [n |]; [| exact Hc].
  destruct (_body n), (_parent n) as [p |]; try exact Hc;
    destruct (remove_child p t s) as [r s'] eqn:Hr;
    exact (remove_child_consistent s s' p t r Hc Hr).
Qed.

Lemma on_nodes_nodes {A : Type} (m : M store A) (w : world) :
  nodes (snd (on_nodes m w)) = snd (m (nodes w)).
Proof. unfold on_nodes. destruct (m (nodes w)). reflexivity. Qed.

Lemma NBTEditor_nbt_nodes (limit : nat) (root : addr) (w : world) :
  nodes (snd (NBTEditor_nbt lib limit root w)) = nodes w.
Proof. unfold NBTEditor_nbt. destruct (build_nbt lib _ _ _); reflexivity. Qed.

Lemma run_operation_nodes (limit : nat) (root : addr) (o : operation) (w : world) :
  nodes (snd (run_operation lib limit root o w))
  = match o with
    | AddTag p name ty v => snd (add_tag p name ty v (nodes w))
    | EditTag t name v => snd (edit_tag t name v (nodes w))
    | DeleteTag t => snd (delete_tag t (nodes w))
    | ReadNbt => nodes w
    end.
Proof.
  destruct o; cbn [run_operation]; try apply on_nodes_nodes.
  unfold bind. pose proof (NBTEditor_nbt_nodes limit root w) as H.
  destruct (NBTEditor_nbt lib limit root w) as [[r | e] w']; exact H.
Qed.

Lemma run_operation_consistent limit root o w :
  consistent (nodes w) -> consistent (nodes (snd (run_operation lib limit root o w))).
Proof.
  intros Hc. rewrite run_operation_nodes. destruct o.
  - apply add_tag_consistent, Hc.
  - apply edit_tag_consistent, Hc.
  - apply delete_tag_consistent, Hc.
  - exact Hc.
Qed.

Lemma NBTEditor_init_nodes (limit0 : nat) (nbt_data : addr) (w : world) :
  nodes (snd (NBTEditor_init limit0 nbt_data w))
  = let root := nodes w ++ [{| _parent := None; _name := ""; _type := TAG_Compound;
                               _body := Children [] |}] in
    match heap w !! nbt_data with
    | Some v => snd (parse_nbt v (Some (length (nodes w))) root)
    | None => root
    end.
Proof.
  destruct (heap w !! nbt_data) as [v |] eqn:Hd.
  - rewrite (NBTEditor_init_run limit0 nbt_data w v Hd). reflexivity.
  - unfold NBTEditor_init, deepcopy, bind, on_nodes, read_nbt. cbn. rewrite Hd.
    reflexivity.
Qed.

Lemma NBTEditor_init_consistent (limit0 : nat) (nbt_data : addr) (w : world) :
  consistent (nodes w) -> consistent (nodes (snd (NBTEditor_init limit0 nbt_data w))).
Proof.
  intros Hc. rewrite NBTEditor_init_nodes. cbv zeta.
  assert (Hroot : consistent (nodes w ++ [{| _parent := None; _name := "";
                     _type := TAG_Compound; _body := Children [] |}])).
  { eapply inv_consistent, inv_new_object;
      [apply consistent_inv, Hc | reflexivity | cbn; congruence]. }
  destruct (heap w !! nbt_data); [apply parse_nbt_consistent |]; exact Hroot.
Qed.

(** X6. The editor keeps its tree consistent: starting from a consistent
    store, after [NBTEditor.__init__] (whether it returns or raises) and any
    sequence of add, edit, delete and read operations, with any arguments,
    every [_children] list repeats no node and each member has the owner of
    the list as [_parent] and the class that fits its tag type. *)
Theorem editor_keeps_consistent (limit0 limit : nat) (nbt_data : addr)
    (os : list operation) (w : world) :
  consistent (nodes w) ->
  forall root,
    consistent (nodes (run_operations lib limit root os
                         (snd (NBTEditor_init limit0 nbt_data w)))).
Proof.
  intros Hc root. apply (NBTEditor_init_consistent limit0 nbt_data) in Hc.
  generalize dependent (snd (NBTEditor_init limit0 nbt_data w)). clear w.
  induction os as [| o rest IH]; intros w Hc; cbn [run_operations].
  - exact Hc.
  - apply IH, run_operation_consistent, Hc.
Qed.

Lemma consistent_nil : consistent [].
Proof. intros p np cs H. rewrite lookup_nil in H. discriminate. Defined.

(** *** What the operations leave of a node *)

Lemma same_identity_refl n : same_identity n n.
Proof. repeat split. Qed.

Lemma same_identity_trans n1 n2 n3 :
  same_identity n1 n2 -> same_identity n2 n3 -> same_identity n1 n3.
Proof.
  intros (Ht & Hp & Hc & Hn) (Ht' & Hp' & Hc' & Hn').
  split; [congruence |]. split; [congruence |]. split; [congruence |].
  intros H. rewrite Hn', Hn; [reflexivity | exact H | congruence].
Qed.

Lemma same_identity_set_body n cs cs' :
  _body n = Children cs -> same_identity n (set_body n (Children cs')).
Proof.
  intros Hb. unfold same_identity, is_container. cbn. rewrite Hb. repeat split.
Qed.

(** The node at [a] after one node was replaced. *)
Lemma identity_insert (s : store) (p a : addr) (np np' n : node) :
  s !! p = Some np -> same_identity np np' -> s !! a = Some n ->
  exists n', <[p := np']> s !! a = Some n' /\ same_identity n n'.
Proof.
  intros Hp Hsame Ha. destruct (decide (p = a)) as [-> | Hne].
  - exists np'. split.
    + apply list_lookup_insert_Some. left. repeat split.
      eapply lookup_lt_Some; eauto.
    + assert (n = np) by congruence. subst n. exact Hsame.
  - exists n. split; [| apply same_identity_refl].
    apply list_lookup_insert_Some. right. auto.
Qed.

Lemma add_child_identity (p c a : addr) (s : store) (n : node) :
  s !! a = Some n ->
  exists n', snd (add_child p c s) !! a = Some n' /\ same_identity n n'.
Proof.
  intros Ha. unfold add_child.
  destruct (s !! p) as [np |] eqn:Hp;
    [| exists n; split; [exact Ha | apply same_identity_refl]].
  destruct (_body np) as [v0 | cs] eqn:Hb;
    [exists n; split; [exact Ha | apply same_identity_refl] |].
  cbn [snd]. eapply identity_insert; eauto. eapply same_identity_set_body; eauto.
Qed.

Lemma remove_child_identity (p c a : addr) (s : store) (n : node) :
  s !! a = Some n ->
  exists n', snd (remove_child p c s) !! a = Some n' /\ same_identity n n'.
Proof.
  intros Ha. unfold remove_child.
  destruct (s !! p) as [np |] eqn:Hp;
    [| exists n; split; [exact Ha | apply same_identity_refl]].
  destruct (_body np) as [v0 | cs] eqn:Hb;
    [exists n; split; [exact Ha | apply same_identity_refl] |].
  destruct (list_remove c cs) as [cs' |];
    [| exists n; split; [exact Ha | apply same_identity_refl]].
  cbn [snd]. eapply identity_insert; eauto. eapply same_identity_set_body; eauto.
Qed.

Lemma add_tag_identity p name ty v a (s : store) (n : node) :
  s !! a = Some n ->
  exists n', snd (add_tag p name ty v s) !! a = Some n' /\ same_identity n n'.
Proof.
  intros Ha. rewrite add_tag_run. apply add_child_identity.
  apply lookup_app_l_Some. exact Ha.
Qed.

Lemma edit_tag_identity t name v a (s : store) (n : node) :
  s !! a = Some n ->
  exists n', snd (edit_tag t name v s) !! a = Some n' /\ same_identity n n'.
Proof.
  intros Ha. unfold edit_tag, bind, get_value, update.
  destruct (s !! t) as [nt |] eqn:Hl;
    [| exists n; split; [exact Ha | apply same_identity_refl]].
  destruct (_body nt) as [v0 | cs] eqn:Hb;
    [| exists n; split; [exact Ha | apply same_identity_refl]].
  rewrite Hl, Hb. cbn [snd]. eapply identity_insert; eauto.
  unfold same_identity, is_container. cbn. rewrite Hb.
  repeat split. discriminate.
Qed.

Lemma delete_tag_identity t a (s : store) (n : node) :
  s !! a = Some n ->
  exists n', snd (delete_tag t s) !! a = Some n' /\ same_identity n n'.
Proof.
  intros Ha. unfold delete_tag, remove.
  destruct (s !! t) as [nt |];
    [| exists n; split; [exact Ha | apply same_identity_refl]].
  destruct (_body nt), (_parent nt) as [p |];
    try (exists n; split; [exact Ha | apply same_identity_refl]);
    apply remove_child_identity; exact Ha.
Qed.

(** X8. No sequence of editor operations changes the tag type, the parent or
    the class of a node that exists, nor the name of a container: a container
    cannot be renamed, and a node is never moved to another parent. *)
Theorem operations_keep_identity (limit : nat) (root : addr) (os : list operation)
    (w : world) (a : addr) (n : node) :
  nodes w !! a = Some n ->
  exists n',
    nodes (run_operations lib limit root os w) !! a = Some n' /\ same_identity n n'.
Proof.
  revert w n. induction os as [| o rest IH]; intros w n Ha; cbn [run_operations].
  - exists n. split; [exact Ha | apply same_identity_refl].
  - assert (H1 : exists n1, nodes (snd (run_operation lib limit root o w)) !! a = Some n1
                            /\ same_identity n n1).
    { rewrite run_operation_nodes. destruct o.
      - apply add_tag_identity, Ha.
      - apply edit_tag_identity, Ha.
      - apply delete_tag_identity, Ha.
      - exists n. split; [exact Ha | apply same_identity_refl]. }
    destruct H1 as (n1 & Ha1 & Hs1).
    destruct (IH _ n1 Ha1) as (n' & Ha' & Hs').
    exists n'. split; [exact Ha' | eapply same_identity_trans; eauto].
Qed.

(** *** Deleting a tag *)

Lemma filter_ne_id (t : addr) (l : list addr) :
  t ∉ l -> filter (fun c => c <> t) l = l.
Proof.
  induction l as [| y rest IH]; intros Hnin; [reflexivity |].
  apply not_elem_of_cons in Hnin as [Hne Hnin].
  rewrite filter_cons_True by congruence. rewrite IH by exact Hnin. reflexivity.
Qed.

Lemma list_remove_notin (t : addr) (l : list addr) :
  t ∉ l -> list_remove t l = None.
Proof.
  induction l as [| y rest IH]; intros Hnin; [reflexivity |].
  apply not_elem_of_cons in Hnin as [Hne Hnin]. cbn [list_remove].
  destruct (Nat.eqb y t) eqn:Hy; [apply Nat.eqb_eq in Hy; congruence |].
  rewrite IH by exact Hnin. reflexivity.
Qed.

Lemma list_remove_filter (t : addr) (l : list addr) :
  NoDup l -> t ∈ l -> list_remove t l = Some (filter (fun c => c <> t) l).
Proof.
  induction l as [| y rest IH]; intros Hnd Hin; [inversion Hin |].
  apply NoDup_cons in Hnd as [Hnin Hnd]. cbn [list_remove].
  destruct (Nat.eqb y t) eqn:Hy.
  - apply Nat.eqb_eq in Hy. subst y.
    rewrite filter_cons_False by (intros H; apply H; reflexivity).
    rewrite filter_ne_id by exact Hnin. reflexivity.
  - apply Nat.eqb_neq in Hy. apply elem_of_cons in Hin as [-> | Hin]; [congruence |].
    rewrite (IH Hnd Hin). rewrite filter_cons_True by exact Hy. reflexivity.
Qed.

Lemma remove_is_remove_child (t p : addr) (n : node) (s : store) :
  s !! t = Some n -> _parent n = Some p -> remove t s = remove_child p t s.
Proof.
  intros Hl Hp. unfold remove. rewrite Hl, Hp. destruct (_body n); reflexivity.
Qed.

(** X7. In a consistent tree, deleting a tag that is among the children of its
    parent returns, takes the tag out of that list and changes nothing else;
    afterwards the tag is in no [_children] list, but still names its old
    parent, so that deleting it again raises [ValueError] and leaves the store
    as it is. *)
Theorem delete_tag_detaches (s : store) (t p : addr) (n np : node) (cs : list addr) :
  consistent s -> s !! t = Some n -> _parent n = Some p ->
  s !! p = Some np -> _body np = Children cs -> t ∈ cs ->
  let s' := <[p := set_body np (Children (filter (fun c => c <> t) cs))]> s in
  delete_tag t s = (Ok tt, s')
  /\ detached s' t
  /\ delete_tag t s' = (Raise ValueError, s').
Proof.
  intros Hc Hlt Hpar Hlp Hbp Hin s'.
  destruct (Hc p np cs Hlp Hbp) as [Hnd Hmem].
  assert (Hplt : p < length s) by (eapply lookup_lt_Some; eauto).
  assert (Hlp' : s' !! p = Some (set_body np (Children (filter (fun c => c <> t) cs)))).
  { apply list_lookup_insert_Some. left. auto. }
  assert (Hnotin : t ∉ filter (fun c => c <> t) cs).
  { intros H. apply list_elem_of_filter in H as [H _]. apply H. reflexivity. }
  split; [| split].
  - unfold delete_tag. rewrite (remove_is_remove_child t p n s Hlt Hpar).
    unfold remove_child. rewrite Hlp, Hbp, (list_remove_filter t cs Hnd Hin).
    reflexivity.
  - intros q nq cq Hlq Hbq Hinq.
    apply list_lookup_insert_Some in Hlq as [(-> & <- & _) | [Hne Hlq]].
    + cbn in Hbq. injection Hbq as <-. contradiction.
    + destruct (Hc q nq cq Hlq Hbq) as [_ Hmemq].
      destruct (Hmemq t Hinq) as (nt & Hlt' & Hpt & _). congruence.
  - assert (Hlt' : exists n', s' !! t = Some n' /\ _parent n' = Some p).
    { destruct (decide (p = t)) as [-> | Hne].
      - eexists. split; [exact Hlp' |]. cbn. congruence.
      - exists n. split; [| exact Hpar].
        apply list_lookup_insert_Some. right. auto. }
    destruct Hlt' as (n' & Hlt' & Hpar').
    unfold delete_tag. rewrite (remove_is_remove_child t p n' s' Hlt' Hpar').
    unfold remove_child. rewrite Hlp'. cbn [_body set_body].
    rewrite (list_remove_notin t _ Hnotin). reflexivity.
Qed.

Lemma delete_tag_detaches_witness :
  delete_tag 1 attached_store
  = (Ok tt, <[0 := set_body {| _parent := None; _name := ""; _type := TAG_Compound;
                               _body := Children [1] |}
                     (Children (filter (fun c => c <> 1) [1]))]> attached_store)
  /\ delete_tag 1 (snd (delete_tag 1 attached_store))
     = (Raise ValueError, snd (delete_tag 1 attached_store)).
Proof.
  pose proof (delete_tag_detaches attached_store 1 0 _ _ [1]
                consistent_attached_store eq_refl eq_refl eq_refl eq_refl
                (list_elem_of_here 1 [])) as H.
  cbv zeta in H. destruct H as (H1 & _ & H3).
  split; [exact H1 |]. rewrite H1. exact H3.
Defined.

(** *** Adding a tag and deleting it again *)

Lemma build_items_app (s extra : store) (build build' : addr -> result nbt)
    (cs : list addr) :
  (forall c d, build c = Ok d -> build' c = Ok d) ->
  forall acc items,
    build_items s build acc cs = Ok items ->
    build_items (s ++ extra) build' acc cs = Ok items.
Proof.
  intros Hb. induction cs as [| c more IH]; intros acc items H; cbn [build_items] in *.
  - exact H.
  - destruct (s !! c) as [nc |] eqn:Hc; [| discriminate].
    rewrite (lookup_app_l_Some _ _ _ _ Hc).
    destruct (build c) as [v | e] eqn:Hv; [| discriminate].
    rewrite (Hb c v Hv). apply IH. exact H.
Qed.

Lemma build_elems_app (build build' : addr -> result nbt) (cs : list addr) :
  (forall c d, build c = Ok d -> build' c = Ok d) ->
  forall acc elems,
    build_elems lib build acc cs = Ok elems -> build_elems lib build' acc cs = Ok elems.
Proof.
  intros Hb. induction cs as [| c more IH]; intros acc elems H; cbn [build_elems] in *.
  - exact H.
  - destruct (build c) as [v | e] eqn:Hv; [| discriminate].
    rewrite (Hb c v Hv).
    destruct (of_library (list_append lib acc v)) as [acc' | e]; [| discriminate].
    apply IH. exact H.
Qed.

(** Nodes that come after the tree do not change what [build_nbt] gives. *)
Lemma build_nbt_app (extra : store) (limit : nat) (s : store) :
  forall a d, build_nbt lib limit s a = Ok d -> build_nbt lib limit (s ++ extra) a = Ok d.
Proof.
  induction limit as [| limit IH]; intros a d H; [discriminate |].
  cbn [build_nbt] in *.
  destruct (s !! a) as [n |] eqn:Hl; [| discriminate].
  rewrite (lookup_app_l_Some _ _ _ _ Hl).
  destruct (_body n) as [v | cs]; [exact H |].
  destruct (_type n) as [t | |]; [exact H | |].
  - destruct (build_items s (build_nbt lib limit s) [] cs) as [items | e] eqn:Hi;
      [| discriminate].
    rewrite (build_items_app s extra _ _ cs IH [] items Hi). exact H.
  - destruct (build_elems lib (build_nbt lib limit s) [] cs) as [elems | e] eqn:He;
      [| discriminate].
    rewrite (build_elems_app _ _ cs IH [] elems He). exact H.
Qed.

Lemma list_remove_last (c : addr) (cs : list addr) :
  c ∉ cs -> list_remove c (cs ++ [c]) = Some cs.
Proof.
  induction cs as [| y rest IH]; intros Hnin; cbn [list_remove app].
  - rewrite Nat.eqb_refl. reflexivity.
  - apply not_elem_of_cons in Hnin as [Hne Hnin].
    destruct (Nat.eqb y c) eqn:Hy; [apply Nat.eqb_eq in Hy; congruence |].
    rewrite (IH Hnin). reflexivity.
Qed.

(** X9. Adding a tag and then deleting it undoes the change to the parent: in
    a consistent tree, after [add_tag] has returned, [delete_tag] of the new
    node returns and leaves the old store followed by the new, detached node;
    whatever [build_nbt] gave for a node before, it gives again. *)
Theorem add_then_delete_tag (limit : nat) (s s1 : store) (p root : addr)
    (name : string) (ty : TagType) (v : payload) :
  consistent s -> add_tag p name ty v s = (Ok tt, s1) ->
  delete_tag (length s) s1 = (Ok tt, s ++ [added_node p name ty v])
  /\ forall d, build_nbt lib limit s root = Ok d ->
       build_nbt lib limit (s ++ [added_node p name ty v]) root = Ok d.
Proof.
  intros Hc Hadd. split; [| intros d; apply build_nbt_app].
  rewrite add_tag_run in Hadd. unfold add_child in Hadd.
  set (s0 := s ++ [added_node p name ty v]) in *.
  destruct (s0 !! p) as [np |] eqn:Hlp; [| discriminate].
  destruct (_body np) as [v0 | cs] eqn:Hbp; [discriminate |].
  injection Hadd as <-.
  assert (Hplt : p < length s0) by (eapply lookup_lt_Some; eauto).
  assert (Hnin : length s ∉ cs).
  { intros Hin. destruct (decide (p < length s)) as [Hlt | Hge].
    - unfold s0 in Hlp. rewrite lookup_app_l in Hlp by exact Hlt.
      destruct (Hc p np cs Hlp Hbp) as [_ Hmem].
      destruct (Hmem _ Hin) as (nc & Hlc & _).
      apply lookup_lt_Some in Hlc. lia.
    - assert (p = length s).
      { unfold s0 in Hplt. rewrite length_app in Hplt. cbn in Hplt. lia. }
      subst p. unfold s0 in Hlp. rewrite list_lookup_middle in Hlp by reflexivity.
      injection Hlp as <-. destruct ty; cbn in Hbp; try discriminate;
        injection Hbp as <-; inversion Hin. }
  set (np' := set_body np (Children (cs ++ [length s]))).
  assert (Hlp' : <[p := np']> s0 !! p = Some np').
  { apply list_lookup_insert_Some. left. auto. }
  assert (Hnew : exists n1, <[p := np']> s0 !! length s = Some n1
                            /\ _parent n1 = Some p).
  { destruct (decide (p = length s)) as [Heq | Hne].
    - exists np'. split; [rewrite <- Heq; exact Hlp' |].
      subst p. unfold s0 in Hlp. rewrite list_lookup_middle in Hlp by reflexivity.
      injection Hlp as <-. reflexivity.
    - exists (added_node p name ty v). split; [| reflexivity].
      apply list_lookup_insert_Some. right. split; [exact Hne |].
      apply list_lookup_middle. reflexivity. }
  destruct Hnew as (n1 & Hl1 & Hp1).
  unfold delete_tag. rewrite (remove_is_remove_child _ p n1 _ Hl1 Hp1).
  unfold remove_child. rewrite Hlp'. cbn [_body np' set_body].
  rewrite (list_remove_last _ _ Hnin). f_equal.
  rewrite list_insert_insert_eq.
  apply list_insert_id. rewrite Hlp. f_equal.
  unfold np', set_body. destruct np as [par nm ty' b]. cbn in Hbp |- *.
  rewrite Hbp. reflexivity.
Qed.

(** *** Adding a tag to a parsed document *)

Lemma build_nbt_step (limit : nat) (s : store) (self : addr) :
  build_nbt lib (S limit) s self
  = match s !! self with
    | None => Raise AttributeError
    | Some n =>
        match _body n with
        | Value v => of_library (tag_new lib (_type n) v)
        | Children cs =>
            match _type n with
            | TAG_Compound =>
                match build_items s (build_nbt lib limit s) [] cs with
                | Ok items => Ok (NCompound items)
                | Raise e => Raise e
                end
            | TAG_List =>
                match build_elems lib (build_nbt lib limit s) [] cs with
                | Ok elems => Ok (NList elems)
                | Raise e => Raise e
                end
            | TAG_Value t =>
                match cs with
                | [] => Ok (NValue t (default_payload t))
                | _ :: _ => Raise AttributeError
                end
            end
        end
    end.
Proof. reflexivity. Qed.

Lemma build_items_snoc (s : store) (build : addr -> result nbt) (cs : list addr)
    (c : addr) :
  forall acc,
    build_items s build acc (cs ++ [c])
    = match build_items s build acc cs with
      | Ok items => build_items s build items [c]
      | Raise e => Raise e
      end.
Proof.
  induction cs as [| c0 more IH]; intros acc; cbn [app build_items].
  - destruct (s !! c) as [n |]; [| reflexivity]. destruct (build c); reflexivity.
  - destruct (s !! c0) as [n0 |]; [| reflexivity].
    destruct (build c0) as [v0 | e]; [| reflexivity]. apply IH.
Qed.

Lemma build_items_ext (s s' : store) (build build' : addr -> result nbt)
    (cs : list addr) :
  (forall c n, c ∈ cs -> s !! c = Some n -> s' !! c = Some n) ->
  (forall c d, c ∈ cs -> build c = Ok d -> build' c = Ok d) ->
  forall acc items,
    build_items s build acc cs = Ok items -> build_items s' build' acc cs = Ok items.
Proof.
  induction cs as [| c more IH]; intros Hs Hb acc items H; cbn [build_items] in *.
  - exact H.
  - destruct (s !! c) as [nc |] eqn:Hc; [| discriminate].
    rewrite (Hs c nc (list_elem_of_here _ _) Hc).
    destruct (build c) as [v | e] eqn:Hv; [| discriminate].
    rewrite (Hb c v (list_elem_of_here _ _) Hv). apply IH; [| | exact H].
    + intros c' n' Hin. apply Hs. right. exact Hin.
    + intros c' d' Hin. apply Hb. right. exact Hin.
Qed.

Lemma build_elems_ext (build build' : addr -> result nbt) (cs : list addr) :
  (forall c d, c ∈ cs -> build c = Ok d -> build' c = Ok d) ->
  forall acc elems,
    build_elems lib build acc cs = Ok elems -> build_elems lib build' acc cs = Ok elems.
Proof.
  induction cs as [| c more IH]; intros Hb acc elems H; cbn [build_elems] in *.
  - exact H.
  - destruct (build c) as [v | e] eqn:Hv; [| discriminate].
    rewrite (Hb c v (list_elem_of_here _ _) Hv).
    destruct (of_library (list_append lib acc v)) as [acc' | e]; [| discriminate].
    apply IH; [| exact H]. intros c' d' Hin. apply Hb. right. exact Hin.
Qed.

(** In a store in which children are younger than their parents, what
    [build_nbt] gives for a node does not depend on the nodes before it. *)
Lemma build_nbt_above (p : addr) (s s' : store) :
  ordered s ->
  (forall a n, p < a -> s !! a = Some n -> s' !! a = Some n) ->
  forall limit a d, p < a ->
    build_nbt lib limit s a = Ok d -> build_nbt lib limit s' a = Ok d.
Proof.
  intros Ho Hs. induction limit as [| limit IH]; intros a d Ha H; [discriminate |].
  cbn [build_nbt] in *.
  destruct (s !! a) as [n |] eqn:Hl; [| discriminate].
  rewrite (Hs a n Ha Hl).
  destruct (_body n) as [v | cs] eqn:Hb; [exact H |].
  assert (Hcs : forall c, c ∈ cs -> p < c).
  { intros c Hin. pose proof (Ho a n cs c Hl Hb Hin). lia. }
  destruct (_type n) as [t | |]; [exact H | |].
  - destruct (build_items s (build_nbt lib limit s) [] cs) as [items | e] eqn:Hi;
      [| discriminate].
    rewrite (build_items_ext s s' (build_nbt lib limit s) (build_nbt lib limit s') cs)
      with (acc := []) (items := items); [exact H | | | exact Hi].
    + intros c nc Hin. apply Hs, Hcs, Hin.
    + intros c dc Hin. apply IH, Hcs, Hin.
  - destruct (build_elems lib (build_nbt lib limit s) [] cs) as [elems | e] eqn:He;
      [| discriminate].
    rewrite (build_elems_ext (build_nbt lib limit s) (build_nbt lib limit s') cs)
      with (acc := []) (elems := elems); [exact H | | exact He].
    intros c dc Hin. apply IH, Hcs, Hin.
Qed.

(** What [build_nbt] gives for the node [add_tag] has made. *)
Lemma build_nbt_added_node (limit : nat) (s : store) (a p : addr) (name : string)
    (ty : TagType) (v : payload) :
  s !! a = Some (added_node p name ty v) ->
  build_nbt lib (S limit) s a = added_tag lib ty v.
Proof.
  intros Hl. cbn [build_nbt]. rewrite Hl. destruct ty; reflexivity.
Qed.

(** X10. In a tree in which children are younger than their parents, let
    [build_nbt] give the mapping [items] for a compound node, and let [name]
    be no key of it.  Then adding a tag of that name to the node returns, and
    afterwards [build_nbt] of the node gives [items] with one more entry at
    its end, the name with the new tag: what the library makes of the class
    and the payload for a value class, the empty compound or list otherwise.
    When the library raises on the class and the payload, so does
    [build_nbt] of the node from then on. *)
Theorem add_tag_appends_entry (limit : nat) (s : store) (p : addr) (np : node)
    (cs : list addr) (items : list (string * nbt)) (name : string) (ty : TagType)
    (v : payload) :
  ordered s ->
  s !! p = Some np -> _type np = TAG_Compound -> _body np = Children cs ->
  build_nbt lib (S (S limit)) s p = Ok (NCompound items) ->
  name ∉ items.*1 ->
  exists s',
    add_tag p name ty v s = (Ok tt, s')
    /\ build_nbt lib (S (S limit)) s' p
       = match added_tag lib ty v with
         | Ok tag => Ok (NCompound (items ++ [(name, tag)]))
         | Raise e => Raise e
         end.
Proof.
  intros Ho Hl Hty Hb Hbuild Hfresh.
  assert (Hp : p < length s) by (eapply lookup_lt_Some; eauto).
  set (new := added_node p name ty v).
  set (np' := set_body np (Children (cs ++ [length s]))).
  set (s' := <[p := np']> (s ++ [new])).
  assert (Hadd : add_tag p name ty v s = (Ok tt, s')).
  { rewrite add_tag_run. unfold add_child.
    rewrite (lookup_app_l_Some _ _ _ _ Hl), Hb. reflexivity. }
  assert (Hlp : s' !! p = Some np').
  { apply list_lookup_insert_Some. left. split; [reflexivity |].
    split; [reflexivity |]. rewrite length_app. lia. }
  assert (Hnew : s' !! length s = Some new).
  { apply list_lookup_insert_Some. right. split; [lia |].
    apply list_lookup_middle. reflexivity. }
  assert (Hold : forall a n, p < a -> s !! a = Some n -> s' !! a = Some n).
  { intros a n Ha Hn. apply list_lookup_insert_Some. right. split; [lia |].
    apply lookup_app_l_Some. exact Hn. }
  exists s'. split; [exact Hadd |].
  rewrite build_nbt_step in Hbuild |- *.
  rewrite Hl, Hb, Hty in Hbuild. rewrite Hlp. cbn [np' set_body _body _type].
  rewrite Hty.
  destruct (build_items s (build_nbt lib (S limit) s) [] cs) as [items' | e] eqn:Hi;
    [| discriminate].
  injection Hbuild as ->.
  rewrite build_items_snoc.
  rewrite (build_items_ext s s' (build_nbt lib (S limit) s)
             (build_nbt lib (S limit) s') cs) with (acc := []) (items := items);
    [| | | exact Hi].
  - cbn [build_items]. rewrite Hnew.
    rewrite (build_nbt_added_node limit s' (length s) p name ty v Hnew).
    destruct (added_tag lib ty v) as [tag | e]; [| reflexivity].
    cbn [new added_node _name]. rewrite (setitem_fresh items name tag Hfresh).
    reflexivity.
  - intros c nc Hin. apply Hold. exact (Ho p np cs c Hl Hb Hin).
  - intros c dc Hin. apply (build_nbt_above p s s' Ho Hold).
    exact (Ho p np cs c Hl Hb Hin).
Qed.

(** *** What parse_nbt leaves alone *)

Lemma snd_bind {S A B} (m : M S A) (k : A -> M S B) (s : S) :
  snd (bind m k s)
  = match m s with
    | (Ok a, s1) => snd (k a s1)
    | (Raise _, s1) => s1
    end.
Proof. unfold bind. destruct (m s) as [[a | e] s1]; reflexivity. Qed.

Lemma untouched_refl s : untouched s s.
Proof. split; [lia | auto]. Qed.

Lemma untouched_trans s1 s2 s3 :
  untouched s1 s2 -> untouched s2 s3 -> untouched s1 s3.
Proof.
  intros [H1 H1'] [H2 H2']. split; [lia |].
  intros b Hb. rewrite H2' by lia. apply H1', Hb.
Qed.

Lemma untouched_new s n : untouched s (s ++ [n]).
Proof.
  split; [rewrite length_app; lia |]. intros b Hb. apply lookup_app_l. exact Hb.
Qed.

Lemma node_with_same_children (np : node) :
  match _body np with
  | Children cs => set_body np (Children (cs ++ []))
  | Value _ => np
  end = np.
Proof.
  destruct np as [par nm ty [v | cs]]; cbn; [reflexivity |].
  unfold set_body. cbn. rewrite app_nil_r. reflexivity.
Qed.

Lemma untouched_fills p s s' : untouched s s' -> fills p s s'.
Proof.
  intros [Hlen Hsame]. split; [split; [exact Hlen | intros b Hb _; apply Hsame, Hb] |].
  intros np Hl. exists []. rewrite node_with_same_children.
  rewrite Hsame by (eapply lookup_lt_Some; eauto). exact Hl.
Qed.

Lemma fills_refl p s : fills p s s.
Proof. apply untouched_fills, untouched_refl. Qed.

Lemma fills_trans p s1 s2 s3 : fills p s1 s2 -> fills p s2 s3 -> fills p s1 s3.
Proof.
  intros [Hf1 Hp1] [Hf2 Hp2]. split; [eapply frame_trans; eauto |].
  intros np Hl. destruct (Hp1 np Hl) as [m1 Hl2].
  destruct (Hp2 _ Hl2) as [m2 Hl3].
  destruct np as [par nm ty [v | cs]]; cbn in *.
  - exists []. exact Hl3.
  - exists (m1 ++ m2). rewrite Hl3. unfold set_body. cbn. rewrite app_assoc.
    reflexivity.
Qed.

(** Filling a container that was made after [s] changes nothing of [s]. *)
Lemma fills_new_untouched s n s1 :
  fills (length s) (s ++ [n]) s1 -> untouched s s1.
Proof.
  intros [[Hlen Hsame] _]. rewrite length_app in Hlen. cbn in Hlen.
  split; [lia |]. intros b Hb.
  rewrite Hsame by (rewrite ?length_app; cbn; lia).
  apply lookup_app_l. exact Hb.
Qed.

Lemma add_child_fills p c s : fills p s (snd (add_child p c s)).
Proof.
  unfold add_child. destruct (s !! p) as [np |] eqn:Hl; [| apply fills_refl].
  destruct (_body np) as [v | cs] eqn:Hb; [apply fills_refl |]. cbn [snd].
  split; [apply frame_insert |].
  intros np' Hl'. assert (np' = np) by congruence. subst np'.
  exists [c]. rewrite Hb. apply list_lookup_insert_Some. left.
  repeat split. eapply lookup_lt_Some; eauto.
Qed.

Lemma call_add_child_fills p c s : fills p s (snd (call_add_child (Some p) c s)).
Proof. apply add_child_fills. Qed.

(** A new container, what fills it, and its attachment to [p]. *)
Lemma container_fills (p : addr) (n : node) (fill : addr -> M store unit)
    (s : store) :
  (forall s0, fills (length s) s0 (snd (fill (length s) s0))) ->
  fills p s (snd ((let! a := new_object n in fill a ;; add_child p a) s)).
Proof.
  intros Hfill. rewrite snd_bind. cbn [new_object]. rewrite snd_bind.
  pose proof (Hfill (s ++ [n])) as H1. apply fills_new_untouched in H1.
  destruct (fill (length s) (s ++ [n])) as [[[] | e] s1]; cbn [snd] in H1.
  - eapply fills_trans; [apply untouched_fills, H1 | apply add_child_fills].
  - apply untouched_fills, H1.
Qed.

Lemma container_untouched (n : node) (fill : addr -> M store unit) (s : store) :
  (forall s0, fills (length s) s0 (snd (fill (length s) s0))) ->
  untouched s (snd ((let! a := new_object n in
                     fill a ;; call_add_child None a) s)).
Proof.
  intros Hfill. rewrite snd_bind. cbn [new_object]. rewrite snd_bind.
  pose proof (Hfill (s ++ [n])) as H1. apply fills_new_untouched in H1.
  destruct (fill (length s) (s ++ [n])) as [[[] | e] s1]; cbn [snd] in H1; exact H1.
Qed.

Lemma value_fills (p : addr) (n : node) (s : store) :
  fills p s (snd ((let! c := new_object n in add_child p c) s)).
Proof.
  rewrite snd_bind. cbn [new_object].
  eapply fills_trans; [apply untouched_fills, untouched_new | apply add_child_fills].
Qed.

Lemma parse_nbt_fills_all (d : nbt) :
  (forall p s, fills p s (snd (parse_nbt d (Some p) s)))
  /\ (forall s, untouched s (snd (parse_nbt d None s)))
  /\ (forall p elems s, d = NList elems ->
        fills p s (snd (parse_children parse_nbt p elems s))).
Proof.
  induction d as [t v | items IH | elems IH] using nbt_induction.
  - split; [intros; apply fills_refl |]. split; [intros; apply untouched_refl |].
    discriminate.
  - assert (Hitem : Forall (fun kv =>
              (forall p s, fills p s (snd (parse_item parse_nbt (Some p) (fst kv)
                                             (snd kv) s)))
              /\ (forall s, untouched s (snd (parse_item parse_nbt None (fst kv)
                                                (snd kv) s)))) items).
    { eapply Forall_impl; [exact IH |]. intros [key value] (Hs & Hn & Hl).
      cbn [fst snd] in *. destruct value as [t v | items' | elems'].
      - split; [intros p s; apply value_fills | intros s; apply untouched_refl].
      - split.
        + intros p s. apply (container_fills p _ (fun a => parse_nbt _ (Some a))).
          intros s0. apply Hs.
        + intros s. apply (container_untouched _ (fun a => parse_nbt _ (Some a))).
          intros s0. apply Hs.
      - split.
        + intros p s.
          apply (container_fills p _ (fun a => parse_children parse_nbt a elems')).
          intros s0. apply (Hl _ elems' s0 eq_refl).
        + intros s.
          apply (container_untouched _ (fun a => parse_children parse_nbt a elems')).
          intros s0. apply (Hl _ elems' s0 eq_refl). }
    clear IH. split; [| split; [| discriminate]].
    + intros p. cbn [parse_nbt].
      induction Hitem as [| [key value] rest [Hs _] _ IHrest]; intros s;
        cbn [parse_items]; [apply fills_refl |].
      rewrite snd_bind. pose proof (Hs p s) as H1. cbn [fst snd] in H1.
      destruct (parse_item parse_nbt (Some p) key value s) as [[[] | e] s1];
        cbn [snd] in H1; [| exact H1].
      eapply fills_trans; [exact H1 | apply IHrest].
    + cbn [parse_nbt].
      induction Hitem as [| [key value] rest [_ Hn] _ IHrest]; intros s;
        cbn [parse_items]; [apply untouched_refl |].
      rewrite snd_bind. pose proof (Hn s) as H1. cbn [fst snd] in H1.
      destruct (parse_item parse_nbt None key value s) as [[[] | e] s1];
        cbn [snd] in H1; [| exact H1].
      eapply untouched_trans; [exact H1 | apply IHrest].
  - split; [intros; apply fills_refl |]. split; [intros; apply untouched_refl |].
    intros p elems' s Heq. injection Heq as <-. revert s.
    induction IH as [| child more (Hs & _ & _) _ IHmore]; intros s;
      cbn [parse_children]; [apply fills_refl |].
    rewrite snd_bind.
    assert (H1 : fills p s (snd (parse_child parse_nbt p child s))).
    { destruct child as [t v | items' | elems']; cbn [parse_child].
      - apply value_fills.
      - apply (container_fills p _ (fun a => parse_nbt _ (Some a))).
        intros s0. apply Hs.
      - apply (container_fills p _ (fun a => parse_nbt _ (Some a))).
        intros s0. apply Hs. }
    destruct (parse_child parse_nbt p child s) as [[[] | e] s1];
      cbn [snd] in H1; [| exact H1].
    eapply fills_trans; [exact H1 | apply IHmore].
Qed.

(** X21. What [parse_nbt] never does: whatever the document, and whether the
    call returns or raises, no node that existed before is changed, except
    that the container given as parent may have more children at the end of
    its list; with the default [parent=None] no existing node changes at
    all. *)
Theorem parse_nbt_changes_only_parent (d : nbt) (s : store) :
  (forall p, fills p s (snd (parse_nbt d (Some p) s)))
  /\ untouched s (snd (parse_nbt d None s)).
Proof.
  destruct (parse_nbt_fills_all d) as (Hs & Hn & _).
  split; [intros p; apply Hs | apply Hn].
Qed.

(** *** Children are younger than their parents *)

Lemma ordered_new (s : store) (n : node) :
  (forall cs, _body n = Children cs -> cs = []) -> ordered s -> ordered (s ++ [n]).
Proof.
  intros Hn Ho p np cs c Hl Hb Hin.
  apply lookup_app_Some in Hl as [Hl | [_ Hl]]; [eapply Ho; eauto |].
  apply list_lookup_singleton_Some in Hl as [_ <-].
  rewrite (Hn cs Hb) in Hin. inversion Hin.
Qed.

Lemma ordered_set_children (s : store) (p : addr) (np : node) (cs cs' : list addr) :
  ordered s -> s !! p = Some np -> _body np = Children cs ->
  (forall c, c ∈ cs' -> c ∈ cs \/ p < c) ->
  ordered (<[p := set_body np (Children cs')]> s).
Proof.
  intros Ho Hl Hb Hcs q nq cq c Hlq Hbq Hin.
  apply list_lookup_insert_Some in Hlq as [(-> & <- & _) | [Hne Hlq]].
  - cbn in Hbq. injection Hbq as <-.
    destruct (Hcs c Hin) as [Hold | Hlt]; [eapply Ho; eauto | exact Hlt].
  - eapply Ho; eauto.
Qed.

Lemma add_child_ordered (p c : addr) (s : store) :
  p < c -> ordered s -> ordered (snd (add_child p c s)).
Proof.
  intros Hlt Ho. unfold add_child.
  destruct (s !! p) as [np |] eqn:Hl; [| exact Ho].
  destruct (_body np) as [v | cs] eqn:Hb; [exact Ho |]. cbn [snd].
  eapply ordered_set_children; eauto.
  intros x Hx. apply elem_of_app in Hx as [Hx | Hx]; [auto |].
  apply list_elem_of_singleton in Hx. subst x. auto.
Qed.

Lemma add_child_length (p c : addr) (s : store) :
  length (snd (add_child p c s)) = length s.
Proof.
  unfold add_child. destruct (s !! p) as [np |]; [| reflexivity].
  destruct (_body np); [reflexivity |]. cbn. apply length_insert.
Qed.

Lemma ordered_from_weaken L L' s : L <= L' -> ordered_from L' s -> ordered_from L s.
Proof. intros HL [Ho Hlen]. split; [exact Ho | lia]. Qed.

(** A new childless node, what fills it, and its attachment to the parent. *)
Lemma container_ordered (parent : option addr) (n : node)
    (fill : addr -> M store unit) (L : nat) (s : store) :
  (forall cs, _body n = Children cs -> cs = []) ->
  (forall s0, ordered_from (S (length s)) s0 ->
              ordered_from (S (length s)) (snd (fill (length s) s0))) ->
  match parent with Some p => p < L | None => True end ->
  ordered_from L s ->
  ordered_from L (snd ((let! a := new_object n in
                        fill a ;; call_add_child parent a) s)).
Proof.
  intros Hn Hfill Hp [Ho Hlen]. rewrite snd_bind. cbn [new_object]. rewrite snd_bind.
  assert (H0 : ordered_from (S (length s)) (s ++ [n])).
  { split; [apply ordered_new; assumption | rewrite length_app; cbn; lia]. }
  apply Hfill in H0.
  destruct (fill (length s) (s ++ [n])) as [[[] | e] s1]; cbn [snd] in H0.
  - destruct H0 as [Ho1 Hlen1]. destruct parent as [p |]; cbn [call_add_child].
    + split; [apply add_child_ordered; [lia | exact Ho1] |].
      rewrite add_child_length. lia.
    + cbn. split; [exact Ho1 | lia].
  - eapply ordered_from_weaken; [| exact H0]. lia.
Qed.

Lemma value_ordered (p : addr) (n : node) (L : nat) (s : store) :
  (forall cs, _body n = Children cs -> cs = []) ->
  p < L -> ordered_from L s ->
  ordered_from L (snd ((let! c := new_object n in add_child p c) s)).
Proof.
  intros Hn Hp [Ho Hlen]. rewrite snd_bind. cbn [new_object]. split.
  - apply add_child_ordered; [lia |]. apply ordered_new; assumption.
  - rewrite add_child_length, length_app. lia.
Qed.

Lemma parse_nbt_ordered_all (d : nbt) :
  (forall parent L s,
     match parent with Some p => p < L | None => True end ->
     ordered_from L s -> ordered_from L (snd (parse_nbt d parent s)))
  /\ (forall p elems L s, d = NList elems -> p < L ->
        ordered_from L s ->
        ordered_from L (snd (parse_children parse_nbt p elems s))).
Proof.
  induction d as [t v | items IH | elems IH] using nbt_induction.
  - split; [| discriminate]. intros parent L s _ H. exact H.
  - split; [| discriminate]. intros parent L s Hp. revert s. cbn [parse_nbt].
    induction IH as [| [key value] rest [Hv Hl] _ IHrest]; intros s H;
      cbn [parse_items]; [exact H |].
    cbn [snd] in Hv, Hl. rewrite snd_bind.
    assert (H1 : ordered_from L (snd (parse_item parse_nbt parent key value s))).
    { destruct value as [t v | items' | elems']; cbn [parse_item].
      - destruct parent as [p |]; [| exact H].
        apply value_ordered; [discriminate | exact Hp | exact H].
      - apply (container_ordered parent _ (fun a => parse_nbt _ (Some a)) L s);
          [cbn; congruence | | exact Hp | exact H].
        intros s0. apply Hv. lia.
      - apply (container_ordered parent _
                 (fun a => parse_children parse_nbt a elems') L s);
          [cbn; congruence | | exact Hp | exact H].
        intros s0. apply (Hl _ elems' _ s0 eq_refl). lia. }
    destruct (parse_item parse_nbt parent key value s) as [[[] | e] s1];
      cbn [snd] in H1; [apply IHrest; exact H1 | exact H1].
  - split; [intros parent L s _ H; exact H |].
    intros p elems' L s Heq Hp. injection Heq as <-. revert s.
    induction IH as [| child more [Hc _] _ IHmore]; intros s H;
      cbn [parse_children]; [exact H |].
    rewrite snd_bind.
    assert (H1 : ordered_from L (snd (parse_child parse_nbt p child s))).
    { destruct child as [t v | items' | elems']; cbn [parse_child].
      - apply value_ordered; [discriminate | exact Hp | exact H].
      - apply (container_ordered (Some p) _ (fun a => parse_nbt _ (Some a)) L s);
          [cbn; congruence | | exact Hp | exact H].
        intros s0. apply Hc. lia.
      - apply (container_ordered (Some p) _ (fun a => parse_nbt _ (Some a)) L s);
          [cbn; congruence | | exact Hp | exact H].
        intros s0. apply Hc. lia. }
    destruct (parse_child parse_nbt p child s) as [[[] | e] s1];
      cbn [snd] in H1; [apply IHmore; exact H1 | exact H1].
Qed.

Lemma add_tag_ordered p name ty v (s : store) :
  p < length s -> ordered s -> ordered (snd (add_tag p name ty v s)).
Proof.
  intros Hp Ho. rewrite add_tag_run. apply add_child_ordered; [exact Hp |].
  apply ordered_new; [| exact Ho]. intros cs Hb. destruct ty; cbn in Hb; congruence.
Qed.

Lemma edit_tag_ordered t name v (s : store) :
  ordered s -> ordered (snd (edit_tag t name v s)).
Proof.
  intros Ho. unfold edit_tag, bind, get_value, update.
  destruct (s !! t) as [n |] eqn:Hl; [| exact Ho].
  destruct (_body n) as [v0 | cs] eqn:Hb; [| exact Ho].
  rewrite Hl, Hb. cbn [snd]. intros q nq cq c Hlq Hbq Hin.
  apply list_lookup_insert_Some in Hlq as [(-> & <- & _) | [Hne Hlq]];
    [discriminate Hbq | eapply Ho; eauto].
Qed.

Lemma remove_child_ordered p c (s : store) :
  ordered s -> ordered (snd (remove_child p c s)).
Proof.
  intros Ho. unfold remove_child.
  destruct (s !! p) as [np |] eqn:Hl; [| exact Ho].
  destruct (_body np) as [v | cs] eqn:Hb; [exact Ho |].
  destruct (list_remove c cs) as [cs' |] eqn:Hr; [| exact Ho]. cbn [snd].
  eapply ordered_set_children; eauto.
  intros x Hx. left. apply (proj1 (list_remove_Some c cs cs' Hr)). exact Hx.
Qed.

Lemma delete_tag_ordered t (s : store) :
  ordered s -> ordered (snd (delete_tag t s)).
Proof.
  intros Ho. unfold delete_tag, remove.
  destruct (s !! t) as [n |]; [| exact Ho].
  destruct (_body n), (_parent n) as [p |]; try exact Ho;
    apply remove_child_ordered; exact Ho.
Qed.

Lemma run_operation_ordered limit root o w :
  operation_valid (nodes w) o -> ordered (nodes w) ->
  ordered (nodes (snd (run_operation lib limit root o w))).
Proof.
  intros Hv Ho. rewrite run_operation_nodes. destruct o.
  - apply add_tag_ordered; assumption.
  - apply edit_tag_ordered, Ho.
  - apply delete_tag_ordered, Ho.
  - exact Ho.
Qed.

Lemma NBTEditor_init_ordered (limit0 : nat) (nbt_data : addr) (w : world) :
  ordered (nodes w) -> ordered (nodes (snd (NBTEditor_init limit0 nbt_data w))).
Proof.
  intros Ho. rewrite NBTEditor_init_nodes. cbv zeta.
  set (root := {| _parent := None; _name := ""%string; _type := TAG_Compound;
                  _body := Children [] |}).
  assert (Hroot : ordered_from (S (length (nodes w))) (nodes w ++ [root])).
  { split; [apply ordered_new; [cbn; congruence | exact Ho] |].
    rewrite length_app. cbn. lia. }
  destruct (heap w !! nbt_data) as [v |]; [| exact (proj1 Hroot)].
  apply (proj1 (parse_nbt_ordered_all v) (Some (length (nodes w)))
           (S (length (nodes w))) _ (Nat.lt_succ_diag_r _) Hroot).
Qed.

(** The depth [build_nbt] needs is bounded by the number of nodes: what the
    library raises is no [RecursionError]. *)
Lemma of_library_no_recursion {A : Type} (r : (A + library_error)%type) :
  of_library r <> Raise RecursionError.
Proof. destruct r as [a | []]; discriminate. Qed.

Lemma build_items_no_recursion (s : store) (build : addr -> result nbt)
    (cs : list addr) :
  (forall c, c ∈ cs -> build c <> Raise RecursionError) ->
  forall acc, build_items s build acc cs <> Raise RecursionError.
Proof.
  induction cs as [| c more IH]; intros Hb acc; cbn [build_items]; [discriminate |].
  destruct (s !! c); [| discriminate].
  assert (Hc : build c <> Raise RecursionError) by (apply Hb; left).
  destruct (build c) as [v | e]; [| congruence].
  apply IH. intros x Hx. apply Hb. right. exact Hx.
Qed.

Lemma build_elems_no_recursion (build : addr -> result nbt) (cs : list addr) :
  (forall c, c ∈ cs -> build c <> Raise RecursionError) ->
  forall acc, build_elems lib build acc cs <> Raise RecursionError.
Proof.
  induction cs as [| c more IH]; intros Hb acc; cbn [build_elems]; [discriminate |].
  assert (Hc : build c <> Raise RecursionError) by (apply Hb; left).
  destruct (build c) as [v | e]; [| congruence].
  pose proof (of_library_no_recursion (list_append lib acc v)) as Happ.
  destruct (of_library (list_append lib acc v)) as [acc' | e]; [| congruence].
  apply IH. intros x Hx. apply Hb. right. exact Hx.
Qed.

Lemma build_nbt_ordered (s : store) :
  ordered s ->
  forall k a, length s - a <= k -> build_nbt lib (S k) s a <> Raise RecursionError.
Proof.
  intros Ho. induction k as [| k IH]; intros a Hk; rewrite build_nbt_step.
  - destruct (s !! a) as [n |] eqn:Hl; [| discriminate].
    apply lookup_lt_Some in Hl. lia.
  - destruct (s !! a) as [n |] eqn:Hl; [| discriminate].
    assert (Hch : forall cs c, _body n = Children cs -> c ∈ cs ->
                    build_nbt lib (S k) s c <> Raise RecursionError).
    { intros cs c Hb Hin. apply IH. pose proof (Ho a n cs c Hl Hb Hin).
      apply lookup_lt_Some in Hl. lia. }
    destruct (_body n) as [v | cs] eqn:Hb.
    + apply of_library_no_recursion.
    + destruct (_type n).
      * destruct cs; discriminate.
      * pose proof (build_items_no_recursion s (build_nbt lib (S k) s) cs
                      (fun c Hin => Hch cs c eq_refl Hin) []) as Hi.
        destruct (build_items s (build_nbt lib (S k) s) [] cs) as [items | e];
          congruence.
      * pose proof (build_elems_no_recursion (build_nbt lib (S k) s) cs
                      (fun c Hin => Hch cs c eq_refl Hin) []) as He.
        destruct (build_elems lib (build_nbt lib (S k) s) [] cs) as [elems | e];
          congruence.
Qed.

Lemma run_operations_ordered limit root os : forall w,
  operations_valid lib limit root os w -> ordered (nodes w) ->
  ordered (nodes (run_operations lib limit root os w)).
Proof.
  induction os as [| o rest IH]; intros w Hv Ho; cbn [run_operations]; [exact Ho |].
  destruct Hv as [Hv1 Hv2]. apply IH; [exact Hv2 |].
  apply run_operation_ordered; assumption.
Qed.

(** X23. The editor never builds a cycle.  From a store in which every child
    is younger than its parent, after [NBTEditor.__init__] and any sequence of
    operations that add tags to existing nodes only, every child is still
    younger than its parent, so that the recursion of [build_nbt] is no deeper
    than the number of nodes: with a larger depth allowed, it does not end in
    [RecursionError], from whatever node it starts. *)
Theorem editor_tree_has_no_cycle (limit0 limit : nat) (nbt_data root : addr)
    (os : list operation) (w : world) :
  ordered (nodes w) ->
  operations_valid lib limit root os (snd (NBTEditor_init limit0 nbt_data w)) ->
  let s := nodes (run_operations lib limit root os
                    (snd (NBTEditor_init limit0 nbt_data w))) in
  ordered s
  /\ forall a depth, length s < depth -> build_nbt lib depth s a <> Raise RecursionError.
Proof.
  intros Ho Hv s.
  assert (Hs : ordered s).
  { apply run_operations_ordered; [exact Hv |].
    apply NBTEditor_init_ordered, Ho. }
  split; [exact Hs |]. intros a depth Hd.
  destruct depth as [| k]; [lia |].
  apply (build_nbt_ordered s Hs). lia.
Qed.

Lemma ordered_nil : ordered [].
Proof. intros p np cs c H. rewrite lookup_nil in H. discriminate. Defined.

End NbtEditorFacts.

(** *** The properties of the editor on sample documents *)

Section NbtEditorSamples.
Import NbtEditor.
Local Open Scope nat_scope.

Lemma parsable_editor_doc : parsable editor_doc.
Proof.
  apply parsable_compound.
  - cbn. apply NoDup_cons. split; [| apply NoDup_singleton].
    intros H. apply list_elem_of_singleton in H. discriminate.
  - constructor; [| constructor; [| constructor]].
    + apply parsable_compound.
      * cbn. apply NoDup_cons. split; [| apply NoDup_singleton].
        intros H. apply list_elem_of_singleton in H. discriminate.
      * constructor; [apply parsable_value |].
        constructor; [apply parsable_value | constructor].
    + apply parsable_list.
      constructor; [split; [apply parsable_value | discriminate] |].
      constructor; [split; [apply parsable_value | discriminate] | constructor].
Defined.

Lemma rebuilds_editor_doc : rebuilds lib_sample editor_doc.
Proof.
  apply rebuilds_compound.
  constructor; [| constructor; [| constructor]].
  - apply rebuilds_compound.
    constructor; [apply rebuilds_value; reflexivity |].
    constructor; [apply rebuilds_value; reflexivity | constructor].
  - apply rebuilds_list.
    + constructor; [apply rebuilds_value; reflexivity |].
      constructor; [apply rebuilds_value; reflexivity | constructor].
    + cbn. split; [reflexivity |]. split; [reflexivity | exact I].
Defined.

(** On [sample_doc], which has a value tag at its top, the constructor
    raises. *)
Lemma NBTEditor_init_sample_world :
  fst (NBTEditor_init 16 0 sample_world) = Raise AttributeError.
Proof. reflexivity. Qed.

Lemma no_value_editor_items : Forall (fun kv => is_value (snd kv) = false) editor_items.
Proof. repeat constructor. Defined.

Lemma ordered_editor_nodes : ordered editor_nodes.
Proof.
  intros p np cs c Hp Hb Hc.
  do 7 (destruct p as [| p];
        [vm_compute in Hp; injection Hp as <-; cbn in Hb;
         first [discriminate Hb | injection Hb as <-];
         repeat (apply elem_of_cons in Hc as [-> | Hc]; [lia |]); inversion Hc |]).
  vm_compute in Hp. discriminate Hp.
Defined.

Lemma editor_never_mutates_input_witness :
  exists w1,
    NBTEditor_init 16 0 editor_world = (Ok 0, w1)
    /\ parsed_objects w1 = [1]
    /\ heap (run_operations lib_sample 16 0
               [EditTag 2 "z" (PStr "ho"); DeleteTag 3; ReadNbt;
                AddTag 1 "n" TAG_List (PInt 0)] w1) !! 0
       = Some editor_doc
    /\ parsed_objects (run_operations lib_sample 16 0
                         [EditTag 2 "z" (PStr "ho"); DeleteTag 3; ReadNbt;
                          AddTag 1 "n" TAG_List (PInt 0)] w1)
       = [1].
Proof.
  eexists. split; [reflexivity |].
  destruct (editor_never_mutates_input lib_sample 16 16 0 editor_world _ 0 eq_refl)
    as ((v & copy & root & _ & -> & _ & _ & _ & _ & Hparsed & _) & Hops & _).
  split; [exact Hparsed |].
  destruct (Hops [EditTag 2 "z" (PStr "ho"); DeleteTag 3; ReadNbt;
                  AddTag 1 "n" TAG_List (PInt 0)]) as [Hheap Hpo].
  split; [apply Hheap; reflexivity | exact Hpo].
Defined.

Lemma parse_build_roundtrip_witness :
  exists s',
    parse_nbt editor_doc (Some 0) empty_root = (Ok tt, s')
    /\ exists f0, forall limit, f0 <= limit ->
         build_nbt lib_sample limit s' 0 = Ok editor_doc.
Proof.
  apply (parse_build_roundtrip lib_sample editor_items empty_root 0
           {| _parent := None; _name := ""; _type := TAG_Compound;
              _body := Children [] |} parsable_editor_doc rebuilds_editor_doc);
    reflexivity.
Defined.

Lemma editor_roundtrip_witness :
  exists f0, forall limit0, f0 <= limit0 ->
    exists _parent w1,
      NBTEditor_init limit0 0 editor_world = (Ok _parent, w1)
      /\ exists f1, forall limit, f1 <= limit ->
           exists r w2,
             NBTEditor_nbt lib_sample limit _parent w1 = (Ok r, w2)
             /\ r <> 0
             /\ heap w2 !! r = Some editor_doc
             /\ heap w2 !! 0 = Some editor_doc.
Proof.
  destruct (editor_roundtrip lib_sample editor_items 0 editor_world
              parsable_editor_doc eq_refl) as [f0 H].
  exists f0. intros limit0 Hl.
  destruct (H limit0 Hl) as [_ Hreturns].
  destruct (Hreturns no_value_editor_items) as (_parent & w1 & Hinit & Hnbt).
  exists _parent, w1. split; [exact Hinit |].
  exact (Hnbt rebuilds_editor_doc).
Defined.

Lemma build_nbt_last_child_wins_witness :
  exists items,
    build_nbt lib_sample 2 twins_store 0 = Ok (NCompound items)
    /\ NoDup items.*1
    /\ forall name,
         getitem items name
         = match last_named twins_store [1; 2] name with
           | Some c => Some (NValue TAG_Int (PInt (Z.of_nat c)))
           | None => None
           end.
Proof.
  apply (build_nbt_last_child_wins lib_sample 1 twins_store 0 _ [1; 2]
           (fun c => NValue TAG_Int (PInt (Z.of_nat c))) eq_refl eq_refl eq_refl).
  intros c Hc.
  apply elem_of_cons in Hc as [-> | Hc]; [reflexivity |].
  apply list_elem_of_singleton in Hc as ->. reflexivity.
Defined.

Lemma editor_keeps_consistent_witness :
  consistent
    (nodes (run_operations lib_sample 16 0
              [AddTag 1 "n" TAG_List (PInt 0); EditTag 2 "z" (PStr "ho"); DeleteTag 3]
              (snd (NBTEditor_init 16 0 editor_world)))).
Proof.
  apply (editor_keeps_consistent lib_sample 16 16 0 _ editor_world).
  exact consistent_nil.
Defined.

Lemma operations_keep_identity_witness :
  exists n',
    nodes (run_operations lib_sample 16 0
             [EditTag 0 "renamed" (PInt 7); AddTag 0 "n" TAG_List (PInt 0); DeleteTag 1]
             {| heap := []; nodes := attached_store; parsed_objects := [] |}) !! 0
    = Some n'
    /\ same_identity {| _parent := None; _name := ""; _type := TAG_Compound;
                        _body := Children [1] |} n'.
Proof.
  apply (operations_keep_identity lib_sample 16 0 _
           {| heap := []; nodes := attached_store; parsed_objects := [] |} 0).
  reflexivity.
Defined.

Lemma add_then_delete_tag_witness :
  delete_tag 2 (snd (add_tag 0 "n" TAG_List (PInt 0) attached_store))
  = (Ok tt, attached_store ++ [added_node 0 "n" TAG_List (PInt 0)]).
Proof.
  apply (add_then_delete_tag lib_sample 0 attached_store _ 0 0 "n" TAG_List (PInt 0)
           consistent_attached_store eq_refl).
Defined.

Lemma add_tag_appends_entry_witness :
  exists s',
    add_tag 1 "y" (TAG_Value TAG_Byte) (PInt 7) editor_nodes = (Ok tt, s')
    /\ build_nbt lib_sample 2 s' 1
       = Ok (NCompound [("x", NValue TAG_String (PStr "hi"));
                        ("n", NValue TAG_Int (PInt 3));
                        ("y", NValue TAG_Byte (PInt 7))]%string).
Proof.
  apply (add_tag_appends_entry lib_sample 0 editor_nodes 1 _ [2; 3]
           [("x", NValue TAG_String (PStr "hi")); ("n", NValue TAG_Int (PInt 3))]%string
           "y" (TAG_Value TAG_Byte) (PInt 7) ordered_editor_nodes
           eq_refl eq_refl eq_refl eq_refl).
  cbn. intros H.
  repeat (apply elem_of_cons in H as [H | H]; [discriminate H |]). inversion H.
Defined.

Lemma editor_tree_has_no_cycle_witness :
  ordered (nodes (run_operations lib_sample 16 0
                    [AddTag 1 "n" TAG_List (PInt 0); DeleteTag 3]
                    (snd (NBTEditor_init 16 0 editor_world))))
  /\ forall a depth,
       length (nodes (run_operations lib_sample 16 0
                        [AddTag 1 "n" TAG_List (PInt 0); DeleteTag 3]
                        (snd (NBTEditor_init 16 0 editor_world)))) < depth ->
       build_nbt lib_sample depth
         (nodes (run_operations lib_sample 16 0
                   [AddTag 1 "n" TAG_List (PInt 0); DeleteTag 3]
                   (snd (NBTEditor_init 16 0 editor_world)))) a
       <> Raise RecursionError.
Proof.
  apply (editor_tree_has_no_cycle lib_sample 16 16 0 0
           [AddTag 1 "n" TAG_List (PInt 0); DeleteTag 3] editor_world ordered_nil).
  cbn [operations_valid]. split; [vm_compute; lia |]. split; exact I.
Defined.

End NbtEditorSamples.
